(** * pyhf: parameter bookkeeping, expected yields and the Newton fit

    A shallow embedding of [pyhf/pdf.py] ([_ModelConfig], [Model]) and of
    [pyhf/optimize/opt_tflow.py] ([tflow_optimizer]).

    Conventions of the embedding.
    - Python exceptions are values of [exn]; a function that can raise
      returns [result A].
    - The modifier classes ([pyhf.modifiers]), the combiners
      ([pyhf.modifiers.combined]), the tensor backend and TensorFlow are
      collaborators whose code is not part of the files embedded here.
      They enter as the type classes [Modifiers], [Combiners], [Backend]
      and [TensorFlow]: every definition and theorem is parametric in
      them, and the concrete instances further down serve the examples.
    - Modifier instances are Python objects that [add_sample] mutates and
      that [par_map] references; they live in an explicit object store
      ([heap]) and are referred to by their position in it.
    - Array elements are an abstract number type with a not-a-number
      element ([Number]); the optimizer works on rationals. *)

From Stdlib Require Import ZArith QArith Qabs Qminmax Lia.
From stdpp Require Import base option list strings gmap.

(** ** Exceptions and the error monad *)

Inductive exn : Set :=
| InvalidModel
| InvalidModifier
| InvalidNameReuse
| AssertionError
| KeyError
| ValueError
| IndexError
| TypeError
| AttributeError
| UnboundLocalError.

Inductive result (A : Type) : Type :=
| Ok (a : A)
| Raise (e : exn).
Arguments Ok {A} a.
Arguments Raise {A} e.

#[global] Instance result_ret : MRet result := fun A a => Ok a.
#[global] Instance result_bind : MBind result := fun A B f m =>
  match m with
  | Ok a => f a
  | Raise e => Raise e
  end.

Definition is_Ok {A} (r : result A) : Prop := exists a, r = Ok a.

(** A Python [for] loop whose body may raise. *)
Fixpoint for_each {A S : Type} (body : S -> A -> result S) (l : list A) (s : S)
  : result S :=
  match l with
  | [] => Ok s
  | x :: l' => s' ← body s x; for_each body l' s'
  end.

(** ** The specification (input data) *)

Record modifier_def (moddata : Type) : Type := {
  md_name : string;
  md_type : string;
  md_data : moddata
}.
Arguments md_name {moddata} _.
Arguments md_type {moddata} _.
Arguments md_data {moddata} _.

Record sample (F moddata : Type) : Type := {
  s_name : string;
  s_data : list F;
  s_modifiers : list (modifier_def moddata);
  modifiers_by_type : gmap string (list string)
}.
Arguments s_name {F moddata} _.
Arguments s_data {F moddata} _.
Arguments s_modifiers {F moddata} _.
Arguments modifiers_by_type {F moddata} _.

Record channel (F moddata : Type) : Type := {
  c_name : string;
  c_samples : list (sample F moddata)
}.
Arguments c_name {F moddata} _.
Arguments c_samples {F moddata} _.

(** [spec['channels']] *)
Definition spec (F moddata : Type) : Type := list (channel F moddata).

(** ** Modifier objects and the modifier registry *)

(** The attributes of a modifier instance that [pdf.py] reads.
    [type_name] is [type(modifier).__name__]; [uncertainties] and
    [nominal_counts] are attributes that only some classes have ([None]
    when the attribute is absent); [mod_state] stands for whatever else
    the instance accumulates in [add_sample]. *)
Record modifier (F mstate : Type) : Type := {
  type_name : string;
  n_parameters : nat;
  mod_suggested_init : list F;
  mod_suggested_bounds : list (F * F);
  is_constrained : bool;
  mod_auxdata : list F;
  pdf_type : string;
  uncertainties : option (list (list F));
  nominal_counts : option (list (list F));
  mod_state : mstate
}.
Arguments type_name {F mstate} _.
Arguments n_parameters {F mstate} _.
Arguments mod_suggested_init {F mstate} _.
Arguments mod_suggested_bounds {F mstate} _.
Arguments is_constrained {F mstate} _.
Arguments mod_auxdata {F mstate} _.
Arguments pdf_type {F mstate} _.
Arguments uncertainties {F mstate} _.
Arguments nominal_counts {F mstate} _.
Arguments mod_state {F mstate} _.

(** A modifier class: the class attribute [is_shared] and the
    constructor [modifier_cls(sample['data'], modifier_def['data'])]. *)
Record modifier_cls (F moddata mstate : Type) : Type := {
  is_shared : bool;
  new : list F -> moddata -> modifier F mstate
}.
Arguments is_shared {F moddata mstate} _.
Arguments new {F moddata mstate} _ _ _.

(** [modifiers.registry] and the methods of a modifier instance:
    [modifier.add_sample(channel, sample, modifier_def)], which sees the
    channel name, the sample name and data, and the modifier definition;
    [modifier.alphas(pars)] and [modifier.expected_data(pars)]. *)
Class Modifiers (F moddata mstate : Type) : Type := {
  registry : gmap string (modifier_cls F moddata mstate);
  add_sample : modifier F mstate -> string -> string -> list F ->
               modifier_def moddata -> modifier F mstate;
  alphas : modifier F mstate -> list F -> list F;
  expected_data_of : modifier F mstate -> list F -> list F
}.

(** ** _ModelConfig *)

(** An entry of [par_map]: [{'slice': sl, 'modifier': modifier}].  The
    slice is the half-open range [start, stop); the modifier is a
    reference into the object store. *)
Record par_entry : Set := {
  slice : nat * nat;
  modifier_ref : nat
}.

Record _ModelConfig (F mstate : Type) : Type := {
  poi_index : option nat;
  par_map : gmap string par_entry;
  par_order : list string;
  auxdata : list F;
  auxdata_order : list string;
  next_index : nat;
  channels : gset string;
  samples : gset string;
  modifiers : gset string;
  heap : list (modifier F mstate)
}.
Arguments poi_index {F mstate} _.
Arguments par_map {F mstate} _.
Arguments par_order {F mstate} _.
Arguments auxdata {F mstate} _.
Arguments auxdata_order {F mstate} _.
Arguments next_index {F mstate} _.
Arguments channels {F mstate} _.
Arguments samples {F mstate} _.
Arguments modifiers {F mstate} _.
Arguments heap {F mstate} _.

Section ModelConfig.
Context {F moddata mstate : Type} `{!Modifiers F moddata mstate}.

Local Abbreviation config := (_ModelConfig F mstate).

(** [_ModelConfig.__init__] *)
Definition __init__ : config :=
  {| poi_index := None; par_map := ∅; par_order := []; auxdata := [];
     auxdata_order := []; next_index := 0; channels := ∅; samples := ∅;
     modifiers := ∅; heap := [] |}.

(** [self.par_map[name]['slice']] *)
Definition par_slice (self : config) (name : string) : result (nat * nat) :=
  match par_map self !! name with
  | Some e => Ok (slice e)
  | None => Raise KeyError
  end.

(** [self.par_map[name]['modifier']], dereferenced *)
Definition get_modifier (self : config) (name : string)
  : result (modifier F mstate) :=
  match par_map self !! name with
  | Some e =>
      match heap self !! modifier_ref e with
      | Some m => Ok m
      | None => Raise KeyError
      end
  | None => Raise KeyError
  end.

Definition suggested_init (self : config) : result (list F) :=
  for_each (fun init name =>
              m ← get_modifier self name; Ok (init ++ mod_suggested_init m))
           (par_order self) [].

Definition suggested_bounds (self : config) : result (list (F * F)) :=
  for_each (fun bounds name =>
              m ← get_modifier self name; Ok (bounds ++ mod_suggested_bounds m))
           (par_order self) [].

Definition with_poi_index (self : config) (i : nat) : config :=
  {| poi_index := Some i; par_map := par_map self;
     par_order := par_order self; auxdata := auxdata self;
     auxdata_order := auxdata_order self; next_index := next_index self;
     channels := channels self; samples := samples self;
     modifiers := modifiers self; heap := heap self |}.

Definition set_poi (self : config) (name : string) : result config :=
  if bool_decide (name ∈ modifiers self) then
    s ← par_slice self name;
    if (snd s - fst s =? 1)%nat then Ok (with_poi_index self (fst s))
    else Raise AssertionError
  else Raise InvalidModel.

(** The creation branch of [add_or_get_modifier]: allocate the slice
    at [next_index], register the name, store the new object. *)
Definition register_modifier (self : config) (name : string)
    (m : modifier F mstate) : config :=
  let npars := n_parameters m in
  let sl := (next_index self, next_index self + npars)%nat in
  let ref := length (heap self) in
  {| poi_index := poi_index self;
     par_map := <[name := {| slice := sl; modifier_ref := ref |}]> (par_map self);
     par_order := par_order self ++ [name];
     auxdata := if is_constrained m then auxdata self ++ mod_auxdata m
                else auxdata self;
     auxdata_order := if is_constrained m then auxdata_order self ++ [name]
                      else auxdata_order self;
     next_index := (next_index self + npars)%nat;
     channels := channels self; samples := samples self;
     modifiers := modifiers self;
     heap := heap self ++ [m] |}.

(** Returns the reference of the modifier object and the updated
    configuration. *)
Definition add_or_get_modifier (self : config) (sample_data : list F)
    (d : modifier_def moddata) : result (nat * config) :=
  match registry !! md_type d with
  | None => Raise InvalidModifier
  | Some modifier_cls =>
      match (if is_shared modifier_cls then par_map self !! md_name d
             else None) with
      | Some e =>
          match heap self !! modifier_ref e with
          | Some m =>
              if bool_decide (type_name m = md_type d)
              then Ok (modifier_ref e, self)
              else Raise InvalidNameReuse
          | None => Raise KeyError
          end
      | None =>
          let m := new modifier_cls sample_data (md_data d) in
          Ok (length (heap self), register_modifier self (md_name d) m)
      end
  end.

(** The state of the loops of [from_spec]. *)
Record build_state : Type := {
  bs_instance : config;
  bs_poiname : string;
  bs_modifiers : list string
}.

(** [modifier.add_sample(...)] on the referenced object. *)
Definition heap_add_sample (self : config) (ref : nat) (cname sname : string)
    (sdata : list F) (d : modifier_def moddata) : config :=
  {| poi_index := poi_index self; par_map := par_map self;
     par_order := par_order self; auxdata := auxdata self;
     auxdata_order := auxdata_order self; next_index := next_index self;
     channels := channels self; samples := samples self;
     modifiers := modifiers self;
     heap := alter (fun m => add_sample m cname sname sdata d) ref (heap self) |}.

(** [modifier_def['name']] after the optional qualification. *)
Definition qualified (qualify_names : bool) (d : modifier_def moddata)
  : modifier_def moddata :=
  if qualify_names
  then {| md_name := md_type d +:+ "/"%string +:+ md_name d;
          md_type := md_type d; md_data := md_data d |}
  else d.

(** [sample['modifiers_by_type'].setdefault(type, []).append(name)] *)
Definition by_type_append (t name : string) (bt : gmap string (list string))
  : gmap string (list string) :=
  <[t := default [] (bt !! t) ++ [name]]> bt.

(** The body of the innermost loop of [from_spec].  The accumulator
    also carries the rewritten modifier definitions and the
    [modifiers_by_type] of the current sample. *)
Definition modifier_body (qualify_names : bool) (cname sname : string)
    (sdata : list F)
    (acc : build_state * list (modifier_def moddata) * gmap string (list string))
    (modifier_def0 : modifier_def moddata)
  : result (build_state * list (modifier_def moddata) * gmap string (list string)) :=
  let '(st, defs, bt) := acc in
  let d := qualified qualify_names modifier_def0 in
  let poiname :=
    if qualify_names && bool_decide (md_name modifier_def0 = bs_poiname st)
    then md_name d else bs_poiname st in
  '(ref, inst) ← add_or_get_modifier (bs_instance st) sdata d;
  let inst := heap_add_sample inst ref cname sname sdata d in
  Ok ({| bs_instance := inst; bs_poiname := poiname;
         bs_modifiers := bs_modifiers st ++ [md_name d] |},
      defs ++ [d],
      by_type_append (md_type d) (md_name d) bt).

Definition sample_body (qualify_names : bool) (cname : string)
    (acc : build_state * list (sample F moddata)) (s : sample F moddata)
  : result (build_state * list (sample F moddata)) :=
  let '(st, done) := acc in
  '(st', defs, bt) ← for_each (modifier_body qualify_names cname (s_name s) (s_data s))
                               (s_modifiers s) (st, [], ∅);
  Ok (st', done ++ [ {| s_name := s_name s; s_data := s_data s;
                        s_modifiers := defs; modifiers_by_type := bt |} ]).

Definition channel_body (qualify_names : bool)
    (acc : build_state * spec F moddata) (c : channel F moddata)
  : result (build_state * spec F moddata) :=
  let '(st, done) := acc in
  '(st', ss) ← for_each (sample_body qualify_names (c_name c)) (c_samples c) (st, []);
  Ok (st', done ++ [ {| c_name := c_name c; c_samples := ss |} ]).

Definition with_names (self : config) (cs ss ms : gset string) : config :=
  {| poi_index := poi_index self; par_map := par_map self;
     par_order := par_order self; auxdata := auxdata self;
     auxdata_order := auxdata_order self; next_index := next_index self;
     channels := cs; samples := ss; modifiers := ms; heap := heap self |}.

(** The three loops of [from_spec], before the name sets are stored and
    the parameter of interest is set. *)
Definition from_spec_loops (sp : spec F moddata) (poiname : string)
    (qualify_names : bool) : result (build_state * spec F moddata) :=
  for_each (channel_body qualify_names) sp
           ({| bs_instance := __init__; bs_poiname := poiname;
               bs_modifiers := [] |}, []).

(** [_ModelConfig.from_spec]: returns the configuration and the
    specification as the loops leave it (names qualified,
    [modifiers_by_type] filled in). *)
Definition from_spec (sp : spec F moddata) (poiname : string)
    (qualify_names : bool) : result (config * spec F moddata) :=
  '(st, sp') ← from_spec_loops sp poiname qualify_names;
  let sample_names := c ← sp; s_name <$> c_samples c in
  let instance :=
    with_names (bs_instance st) (list_to_set (c_name <$> sp))
               (list_to_set sample_names) (list_to_set (bs_modifiers st)) in
  instance ← set_poi instance (bs_poiname st);
  Ok (instance, sp').

End ModelConfig.

(** ** Numbers, tensors and the tensor backend *)

(** Array elements: the arithmetic of the arrays with its not-a-number
    element. *)
Class Number (F : Type) : Type := {
  fzero : F;
  fone : F;
  fnan : F;
  fadd : F -> F -> F;
  fmul : F -> F -> F;
  isnan : F -> bool
}.

(** The laws of the arithmetic that the identity-point property relies
    on. *)
Class NumberLaws (F : Type) `{!Number F} : Prop := {
  fmul_1_l : forall x : F, fmul fone x = x;
  fmul_1_r : forall x : F, fmul x fone = x;
  fadd_0_l : forall x : F, fadd fzero x = x
}.

(** The operations of [tensorlib] that [pdf.py] calls, on flat tensors.
    [pdf_eval k c] is [getattr(tensorlib, k)(c[:,0], c[:,1], c[:,2])] for
    the list [c] of [auxdata, alphas, sigma] triples. *)
Class Backend (F : Type) : Type := {
  poisson : list F -> list F -> list F;
  tlog : list F -> list F;
  texp : list F -> list F;
  tsum : list F -> F;
  tsqrt : list F -> list F;
  tpower : list (list F) -> nat -> list (list F);
  tsum_axis0 : list (list F) -> list F;
  tdivide : list F -> list F -> list F;
  pdf_eval : string -> list (list F * list F * list F) -> result (list F)
}.

(** The index [total] of an entry of the combiners' results: it selects
    the bin row [op_fields[opcode, mod_id, channel, sample]]. *)
Record op_index : Set := {
  ix_opcode : nat;
  ix_mod : nat;
  ix_chan : nat;
  ix_samp : nat
}.

#[global] Instance op_index_eq_dec : EqDecision op_index.
Proof. solve_decision. Defined.

(** The nominal cube: channel, sample slot, bin. *)
Definition tensor3 (F : Type) : Type := list (list (list F)).

(** [histomap[channel][sample] = {'id': histoid, 'index': (i, j)}] *)
Definition histomap : Type := gmap string (gmap string (nat * (nat * nat))).

(** [allmods]: name, then [type, opcode_id, mod_id], in insertion order. *)
Definition mod_index : Type := list (string * (string * nat * nat)).

Record Model (F moddata mstate : Type) : Type := {
  m_spec : spec F moddata;
  config : _ModelConfig F mstate;
  cube : tensor3 F;
  hm : histomap;
  finalized_stats : gmap string (list F);
  allmods : mod_index
}.
Arguments m_spec {F moddata mstate} _.
Arguments config {F moddata mstate} _.
Arguments cube {F moddata mstate} _.
Arguments hm {F moddata mstate} _.
Arguments finalized_stats {F moddata mstate} _.
Arguments allmods {F moddata mstate} _.

(** [CombinedInterpolator(model, mtype).apply(pars)] and
    [TrivialCombined(model, mtype).apply(pars)]: per modifier name, the
    list of [(total, r)] pairs. *)
Class Combiners (F moddata mstate : Type) : Type := {
  combined_apply : Model F moddata mstate -> string -> list F ->
                   gmap string (list (op_index * list F));
  trivial_apply : Model F moddata mstate -> string -> list F ->
                  gmap string (list (op_index * list F))
}.

(** ** Python and numpy helpers *)

(** [data[:c]] and [data[c:]] for a possibly negative [c]. *)
Definition py_slice_to {A} (l : list A) (c : Z) : list A :=
  if (c <? 0)%Z then take (Z.to_nat (Z.of_nat (length l) + c)) l
  else take (Z.to_nat c) l.

Definition py_slice_from {A} (l : list A) (c : Z) : list A :=
  if (c <? 0)%Z then drop (Z.to_nat (Z.of_nat (length l) + c)) l
  else drop (Z.to_nat c) l.

(** [l[start:stop]] for natural bounds. *)
Definition py_slice {A} (l : list A) (sl : nat * nat) : list A :=
  take (snd sl - fst sl) (drop (fst sl) l).

(** [max(...)] of a generator: raises on the empty sequence. *)
Definition py_max (l : list nat) : result nat :=
  match l with
  | [] => Raise ValueError
  | x :: l' => Ok (foldl Nat.max x l')
  end.

Definition enumerate {A} (l : list A) : list (nat * A) :=
  zip (seq 0 (length l)) l.

(** Assigning the 1-D value [r] to a row of [n] bins: numpy broadcasts a
    value of length 1 and refuses any other length than [n]. *)
Definition broadcast_row {A} (n : nat) (r : list A) : result (list A) :=
  if (length r =? n)%nat then Ok r
  else match r with
       | [x] => Ok (replicate n x)
       | _ => Raise ValueError
       end.

(** [a[i] = x] with the bounds check of numpy. *)
Definition set_at {A} (i : nat) (x : A) (a : list A) : result (list A) :=
  if (i <? length a)%nat then Ok (<[i := x]> a) else Raise IndexError.

(** [a[i]] with the bounds check. *)
Definition get_at {A} (i : nat) (a : list A) : result A :=
  match a !! i with
  | Some x => Ok x
  | None => Raise IndexError
  end.

(** [cube[i, j, :] = r] *)
Definition set_row {A} (i j : nat) (r : list A) (c : list (list (list A)))
  : result (list (list (list A))) :=
  plane ← get_at i c;
  old ← get_at j plane;
  row ← broadcast_row (length old) r;
  plane' ← set_at j row plane;
  set_at i plane' c.

(** [cube.shape], read off the first plane and its first row (an array
    that [_make_cube] returns has at least one channel and one sample
    slot). *)
Definition shape3 {A} (c : list (list (list A))) : nat * nat * nat :=
  (length c, length (default [] (head c)),
   length (default [] (head (default [] (head c))))).

Definition full3 {A} (sh : nat * nat * nat) (x : A) : list (list (list A)) :=
  replicate sh.1.1 (replicate sh.1.2 (replicate sh.2 x)).

Definition zip3_with {A} (f : A -> A -> A) (a b : list (list (list A)))
  : list (list (list A)) :=
  zip_with (zip_with (zip_with f)) a b.

(** ** Model *)

Section ModelDefs.
Context {F moddata mstate : Type}.
Context `{!Modifiers F moddata mstate} `{!Number F} `{!Backend F}.
Context `{!Combiners F moddata mstate}.

Local Abbreviation model := (Model F moddata mstate).

(** [finalize_stats(modifier)]; reading an attribute the instance does
    not have raises. *)
Definition finalize_stats (m : modifier F mstate) : result (list F) :=
  match uncertainties m, nominal_counts m with
  | Some unc, Some nom =>
      let inquad := tsqrt (tsum_axis0 (tpower unc 2)) in
      let totals := tsum_axis0 nom in
      Ok (tdivide inquad totals)
  | _, _ => Raise AttributeError
  end.

(** The body of the inner loop of [_make_cube], for the sample [js.2] in
    slot [js.1] of channel [i]: the row assignment and the entry of the
    histogram map. *)
Definition cube_sample_body (i : nat) (cname : string)
    (acc : tensor3 F * nat * histomap) (js : nat * sample F moddata)
  : result (tensor3 F * nat * histomap) :=
  let '(cube', histoid, hmap) := acc in
  let '(j, s) := js in
  cube'' ← set_row i j (s_data s) cube';
  let inner := default ∅ (hmap !! cname) in
  Ok (cube'', S histoid, <[cname := <[s_name s := (histoid, (i, j))]> inner]> hmap).

(** The body of the outer loop of [_make_cube]. *)
Definition cube_channel_body (acc : tensor3 F * nat * histomap)
    (ic : nat * channel F moddata) : result (tensor3 F * nat * histomap) :=
  for_each (cube_sample_body ic.1 (c_name ic.2)) (enumerate (c_samples ic.2)) acc.

(** [Model._make_cube] *)
Definition _make_cube (sp : spec F moddata) : result (tensor3 F * histomap) :=
  let nchan := length sp in
  maxsamp ← py_max ((fun c => length (c_samples c)) <$> sp);
  maxbins ← py_max (c ← sp; (fun s => length (s_data s)) <$> c_samples c);
  let cube0 := full3 (nchan, maxsamp, maxbins) (fmul fone fnan) in
  '(cube1, _, histomap1) ← for_each cube_channel_body (enumerate sp) (cube0, 0%nat, ∅);
  Ok (cube1, histomap1).

Definition factor_mods : list string :=
  ["normfactor"; "normsys"; "shapesys"; "shapefactor"; "staterror"]%string.
Definition delta_mods : list string := ["histosys"]%string.

(** All modifier definitions of the specification, in the order of the
    three nested loops. *)
Definition all_modifier_defs (sp : spec F moddata) : list (modifier_def moddata) :=
  c ← sp; s ← c_samples c; s_modifiers s.

(** [allmods.setdefault(mname, [mtype, opcode_id])] *)
Definition setdefault {V} (k : string) (v : V) (d : list (string * V))
  : list (string * V) :=
  if bool_decide (k ∈ d.*1) then d else d ++ [(k, v)].

(** [Model._make_mod_index].  [opcode_id] is a local variable that keeps
    its previous value when the type is in neither list, and is unbound
    before its first assignment. *)
Definition _make_mod_index (sp : spec F moddata) : result mod_index :=
  '(am, _) ←
    for_each (fun (acc : list (string * (string * nat)) * option nat) m =>
      let '(am, opcode_id) := acc in
      let opcode_id :=
        if bool_decide (md_type m ∈ factor_mods) then Some 0%nat
        else if bool_decide (md_type m ∈ delta_mods) then Some 1%nat
        else opcode_id in
      match opcode_id with
      | Some o => Ok (setdefault (md_name m) (md_type m, o) am, opcode_id)
      | None => Raise UnboundLocalError
      end)
      (all_modifier_defs sp) ([], None);
  Ok ((fun '(mod_id, (mname, (mtype, o))) => (mname, (mtype, o, mod_id)))
        <$> enumerate am).

(** [Model.__init__], after the schema validation (an external
    collaborator).  The combiner instances hold the model and their
    type; they are represented by [combined_apply] and [trivial_apply]
    applied to the model. *)
Definition Model_init (sp : spec F moddata) (poiname : string)
    (qualify_names : bool) : result model :=
  '(cfg, sp') ← from_spec sp poiname qualify_names;
  '(cube1, hm1) ← _make_cube sp';
  stats ← for_each (fun acc (kv : string * par_entry) =>
             match String.index 0 "staterror" kv.1 with
             | Some _ =>
                 m ← get_modifier cfg kv.1;
                 fs ← finalize_stats m;
                 Ok (<[kv.1 := fs]> acc)
             | None => Ok acc
             end) (map_to_list (par_map cfg)) ∅;
  am ← _make_mod_index sp';
  Ok {| m_spec := sp'; config := cfg; cube := cube1; hm := hm1;
        finalized_stats := stats; allmods := am |}.

(** [Model._mtype_results]: falls off the end ([None]) for any other
    type. *)
Definition _mtype_results (self : model) (mtype : string) (pars : list F)
  : option (gmap string (list (op_index * list F))) :=
  if bool_decide (mtype ∈ ["normsys"; "histosys"]%string)
  then Some (combined_apply self mtype pars)
  else if bool_decide (mtype ∈ ["normfactor"; "shapesys"; "shapefactor"; "staterror"]%string)
  then Some (trivial_apply self mtype pars)
  else None.

(** [Model._make_result_index] *)
Definition _make_result_index (self : model) (pars : list F)
  : result (nat * list (op_index * list F)) :=
  let all_results : gmap string (option (gmap string (list (op_index * list F)))) :=
    foldl (fun acc mtype => <[mtype := _mtype_results self mtype pars]> acc) ∅
          (["normsys"; "normfactor"; "shapesys"; "shapefactor"; "staterror"]%string
             ++ delta_mods) in
  result_index_list ←
    for_each (fun acc (e : string * (string * nat * nat)) =>
      let '(mname, (mtype, _, _)) := e in
      match all_results !! mtype with
      | None => Raise KeyError
      | Some None => Raise AttributeError
      | Some (Some res) => Ok (acc ++ default [] (res !! mname))
      end) (allmods self) [];
  Ok (length (allmods self), result_index_list).

(** [op_fields[total] = r] on the pair [op_fields[0]], [op_fields[1]]. *)
Definition set_op_field (total : op_index) (r : list F)
    (op_fields : list (tensor3 F) * list (tensor3 F))
  : result (list (tensor3 F) * list (tensor3 F)) :=
  match ix_opcode total with
  | 0%nat =>
      c ← get_at (ix_mod total) op_fields.1;
      c' ← set_row (ix_chan total) (ix_samp total) r c;
      f ← set_at (ix_mod total) c' op_fields.1;
      Ok (f, op_fields.2)
  | 1%nat =>
      c ← get_at (ix_mod total) op_fields.2;
      c' ← set_row (ix_chan total) (ix_samp total) r c;
      f ← set_at (ix_mod total) c' op_fields.2;
      Ok (op_fields.1, f)
  | _ => Raise IndexError
  end.

(** [np.product(a, axis=0)] and [np.sum(a, axis=0)]: the reduction of the
    layers, from the identity of the operation. *)
Definition product_axis0 (sh : nat * nat * nat) (a : list (tensor3 F)) : tensor3 F :=
  foldl (zip3_with fmul) (full3 sh fone) a.

Definition sum_axis0 (sh : nat * nat * nat) (a : list (tensor3 F)) : tensor3 F :=
  foldl (zip3_with fadd) (full3 sh fzero) a.

(** [np.sum] of a flat array. *)
Definition np_sum (l : list F) : F := foldl fadd fzero l.

(** [Model._all_modifications] *)
Definition _all_modifications (self : model) (pars : list F)
  : result (tensor3 F * tensor3 F) :=
  '(ntotalmods, result_index) ← _make_result_index self pars;
  let sh := shape3 (cube self) in
  let op_fields := (replicate ntotalmods (full3 sh fone),
                    replicate ntotalmods (full3 sh fzero)) in
  op_fields ← for_each (fun ops (res : op_index * list F) =>
                          set_op_field res.1 res.2 ops) result_index op_fields;
  let factor_field := product_axis0 sh op_fields.1 in
  let delta_field := sum_axis0 sh op_fields.2 in
  Ok (factor_field, delta_field).

(** [a[~np.isnan(a)]] for a 2-D array: the entries that are numbers, in
    row-major order. *)
Definition not_nan_entries (a : list (list F)) : list F :=
  filter (fun x => isnan x = false) (concat a).

(** [Model.expected_actualdata] *)
Definition expected_actualdata (self : model) (pars : list F) : result (list F) :=
  '(factor_field, delta_field) ← _all_modifications self pars;
  let combined := zip3_with fmul factor_field (zip3_with fadd delta_field (cube self)) in
  for_each (fun expected (ic : nat * channel F moddata) =>
              ci ← get_at ic.1 combined;
              Ok (expected ++ [np_sum (not_nan_entries ci)]))
           (enumerate (m_spec self)) [].

(** [Model.expected_auxdata]: [None] when no modifier is constrained. *)
Definition expected_auxdata (self : model) (pars : list F)
  : result (option (list F)) :=
  for_each (fun (aux : option (list F)) modname =>
              m ← get_modifier (config self) modname;
              sl ← par_slice (config self) modname;
              let thisaux := expected_data_of m (py_slice pars sl) in
              Ok (Some (default [] aux ++ thisaux)))
           (auxdata_order (config self)) None.

(** [Model.expected_data] *)
Definition expected_data (self : model) (pars : list F) (include_auxdata : bool)
  : result (list F) :=
  expected_actual ← expected_actualdata self pars;
  if negb include_auxdata then Ok expected_actual
  else
    expected_constraints ← expected_auxdata self pars;
    Ok (expected_actual ++ default [] expected_constraints).

(** [bytype.setdefault(k, []).append(v)] *)
Definition setdefault_append {V} (k : string) (v : V) (d : list (string * list V))
  : list (string * list V) :=
  if bool_decide (k ∈ d.*1)
  then (fun kv : string * list V =>
          if bool_decide (kv.1 = k) then (kv.1, kv.2 ++ [v]) else kv) <$> d
  else d ++ [(k, [v])].

(** [Model.__calculate_constraint] *)
Definition __calculate_constraint
    (bytype : list (string * list (list F * list F * list F))) : result F :=
  newsummands ←
    for_each (fun (acc : option (list F)) kc =>
                pdfval ← pdf_eval kc.1 kc.2;
                let constraint_term := tlog pdfval in
                Ok (Some (default [] acc ++ constraint_term)))
             bytype None;
  Ok (match newsummands with
      | Some l => tsum l
      | None => fzero
      end).

(** [Model.constraint_logpdf].  [kwargs] is a local variable: unbound at
    first ([None]), then [{}] ([Some None]) or [{'sigma': s}]; a normal
    constraint of a class in neither list leaves it as it was. *)
Definition constraint_logpdf (self : model) (auxdata0 pars : list F) : result F :=
  '(_, bytype, _) ←
    for_each (fun (acc : nat * list (string * list (list F * list F * list F))
                         * option (option (list F))) cname =>
      let '(start_index, bytype, kwargs) := acc in
      m ← get_modifier (config self) cname;
      modslice ← par_slice (config self) cname;
      let modalphas := alphas m (py_slice pars modslice) in
      let end_index := (start_index + length modalphas)%nat in
      let thisauxdata := py_slice auxdata0 (start_index, end_index) in
      kwargs ←
        (if bool_decide (pdf_type m = "normal"%string) then
           if bool_decide (type_name m ∈ ["histosys"; "normsys"]%string)
           then Ok (Some (Some [fone]))
           else if bool_decide (type_name m ∈ ["staterror"]%string)
           then match finalized_stats self !! cname with
                | Some s => Ok (Some (Some s))
                | None => Raise KeyError
                end
           else Ok kwargs
         else Ok (Some None));
      match kwargs with
      | None => Raise UnboundLocalError
      | Some kw =>
          let callargs := (thisauxdata, modalphas, default [] kw) in
          Ok (end_index, setdefault_append (pdf_type m) callargs bytype, kwargs)
      end)
      (auxdata_order (config self)) (0%nat, [], None);
  __calculate_constraint bytype.

(** The cut of [logpdf]: [data[:cut]] and [data[cut:]] with
    [cut = len(data) - len(self.config.auxdata)]. *)
Definition logpdf_split (self : model) (data : list F) : list F * list F :=
  let cut := (Z.of_nat (length data) - Z.of_nat (length (auxdata (config self))))%Z in
  (py_slice_to data cut, py_slice_from data cut).

(** [Model.logpdf] *)
Definition logpdf (self : model) (pars data : list F) : result (list F) :=
  let '(actual_data, aux_data) := logpdf_split self data in
  lambdas_data ← expected_actualdata self pars;
  let summands := tlog (poisson actual_data lambdas_data) in
  c ← constraint_logpdf self aux_data pars;
  let result := fadd (tsum summands) c in
  Ok [fmul result fone].

(** [Model.pdf] *)
Definition pdf (self : model) (pars data : list F) : result (list F) :=
  l ← logpdf self pars data; Ok (texp l).

End ModelDefs.

(** ** tflow_optimizer *)

(** The graph operations of TensorFlow that the optimizer uses.  A graph
    that computes a scalar from the tensor it is differentiated by is a
    function; [tf_gradients f x] and [tf_hessians f x] are
    [tf.gradients(f, v)[0]] and [tf.hessians(f, v)[0]] evaluated with [v]
    fed the value [x]; [tf_linalg_inv] is [None] when the evaluation
    raises [InvalidArgumentError]. *)
Class TensorFlow : Type := {
  tf_gradients : (list Q -> Q) -> list Q -> list Q;
  tf_hessians : (list Q -> Q) -> list Q -> list (list Q);
  tf_linalg_inv : list (list Q) -> option (list (list Q))
}.

(** [h + c]: the scalar is added to every entry of the matrix. *)
Definition add_scalar (h : list (list Q)) (c : Q) : list (list Q) :=
  (fun row : list Q => (fun x => Qplus x c) <$> row) <$> h.

(** [tf.transpose(tf.matmul(m, tf.transpose(tf.stack([g]))))[0]] *)
Definition matvec (m : list (list Q)) (g : list Q) : list Q :=
  (fun row : list Q => foldl Qplus 0%Q (zip_with Qmult row g)) <$> m.

(** [np.max] of a flat array *)
Definition np_max (l : list Q) : result Q :=
  match l with
  | [] => Raise ValueError
  | x :: l' => Ok (foldl Qmax x l')
  end.

Definition regularizer : Q := (1 # 10000000000)%Q.
Definition tolerance : Q := (1 # 10000)%Q.
Definition max_iterations : nat := 1000.

(** [pdf.config.poi_index] as the comprehension [i != poi_index] reads
    it: no index is equal to [None]. *)
Definition not_poi (poi : option nat) (i : nat) : bool :=
  match poi with
  | Some p => negb (i =? p)%nat
  | None => true
  end.

(** [[p for i, p in enumerate(init_pars) if i != poi_index]] *)
Definition nuisance_of {A} (poi : option nat) (init_pars : list A) : list A :=
  (filter (fun ip : nat * A => not_poi poi ip.1 = true) (enumerate init_pars)).*2.

(** [l.insert(i, x)] *)
Definition py_insert {A} (i : nat) (x : A) (l : list A) : list A :=
  take i l ++ x :: drop i l.

Section Optimizer.
Context `{!TensorFlow}.

(** The tensor [update] of both fits for the graph [objective] of the
    differentiated tensor, evaluated at [x]. *)
Definition hessian (objective : list Q -> Q) (x : list Q) : list (list Q) :=
  add_scalar (tf_hessians objective x) regularizer.

Definition gradient (objective : list Q -> Q) (x : list Q) : list Q :=
  tf_gradients objective x.

Definition update (objective : list Q -> Q) (x : list Q) : option (list Q) :=
  invhess ← tf_linalg_inv (hessian objective x);
  Some (matvec invhess (gradient objective x)).

(** One pass through the body of the [for] loop.  The state is the
    current estimate and whether it is a numpy array yet (it is the
    Python list [init_pars] until the first subtraction).
    [on_invalid] is the [except InvalidArgumentError] block.  The
    result also tells whether [break] was reached. *)
Definition newton_iteration (objective : list Q -> Q)
    (on_invalid : list Q -> result unit) (st : list Q * bool)
  : result (list Q * bool * bool) :=
  match update objective st.1 with
  | Some up =>
      let best_fit := zip_with Qminus st.1 up in
      m ← np_max up;
      Ok (best_fit, true, if Qlt_le_dec (Qabs m) tolerance then true else false)
  | None =>
      _ ← on_invalid st.1;
      Ok (st.1, st.2, false)
  end.

(** [for i in range(n)]: the final state and the number of passes
    through the body. *)
Fixpoint newton_loop (objective : list Q -> Q)
    (on_invalid : list Q -> result unit) (n : nat) (st : list Q * bool)
    (passes : nat) : result (list Q * bool * nat) :=
  match n with
  | O => Ok (st, passes)
  | S n' =>
      '(best_fit, arr, brk) ← newton_iteration objective on_invalid st;
      if brk : bool then Ok (best_fit, arr, S passes)
      else newton_loop objective on_invalid n' (best_fit, arr) (S passes)
  end.

(** [best_fit.tolist()]: a method of arrays, not of lists. *)
Definition tolist (st : list Q * bool) : result (list Q) :=
  if st.2 then Ok st.1 else Raise AttributeError.

(** [unconstrained_bestfit] with the number of passes of its loop.  Its
    [except] block builds [feed_dict={best_fit: best_fit}], whose key is
    unhashable. *)
Definition unconstrained_bestfit_passes {D M : Type}
    (objective : list Q -> D -> M -> Q) (data : D) (pdf : M)
    (init_pars : list Q) : result (list Q * nat) :=
  let graph := fun pars => objective pars data pdf in
  '(st, passes) ← newton_loop graph (fun _ => Raise TypeError) max_iterations
                               (init_pars, false) 0;
  l ← tolist st;
  Ok (l, passes).

Definition unconstrained_bestfit {D M : Type}
    (objective : list Q -> D -> M -> Q) (data : D) (pdf : M)
    (init_pars : list Q) : result (list Q) :=
  r ← unconstrained_bestfit_passes objective data pdf init_pars; Ok r.1.

(** The tensor [pars] of [constrained_bestfit] as a function of
    [nuis_cat]: [concatenate([nuis_cat[:0], poi_par, nuis_cat[0:]])]. *)
Definition constrained_pars (constrained_mu : Q) (nuis_cat : list Q) : list Q :=
  take 0 nuis_cat ++ [constrained_mu] ++ drop 0 nuis_cat.

(** [constrained_bestfit] with the number of passes of its loop;
    [poi_index] is [pdf.config.poi_index].  Its [except] block logs and
    goes on. *)
Definition constrained_bestfit_passes {D M : Type}
    (objective : list Q -> D -> M -> Q) (constrained_mu : Q) (data : D)
    (pdf : M) (poi_index : option nat) (init_pars : list Q)
  : result (list Q * nat) :=
  let graph := fun nuis_cat =>
                 objective (constrained_pars constrained_mu nuis_cat) data pdf in
  let best_fit_nuis := nuisance_of poi_index init_pars in
  '(st, passes) ← newton_loop graph (fun _ => Ok tt) max_iterations
                               (best_fit_nuis, false) 0;
  best_fit ← tolist st;
  match poi_index with
  | Some i => Ok (py_insert i constrained_mu best_fit, passes)
  | None => Raise TypeError
  end.

Definition constrained_bestfit {D M : Type}
    (objective : list Q -> D -> M -> Q) (constrained_mu : Q) (data : D)
    (pdf : M) (poi_index : option nat) (init_pars : list Q) : result (list Q) :=
  r ← constrained_bestfit_passes objective constrained_mu data pdf poi_index init_pars;
  Ok r.1.

End Optimizer.

(** ** A concrete instance

    Rationals with a not-a-number element, and a registry in the style of
    the modifier classes of pyhf: [normfactor], [normsys] and
    [staterror] are shared, [shapesys] is not. *)

Definition Qn : Type := option Q.

#[global] Instance Qn_number : Number Qn := {|
  fzero := Some 0%Q;
  fone := Some 1%Q;
  fnan := None;
  fadd := fun x y => match x, y with
                     | Some a, Some b => Some (Qplus a b)
                     | _, _ => None
                     end;
  fmul := fun x y => match x, y with
                     | Some a, Some b => Some (Qmult a b)
                     | _, _ => None
                     end;
  isnan := fun x => match x with Some _ => false | None => true end
|}.

Definition qn (z : Z) : Qn := Some (inject_Z z).

(** Modelled from the spec: the modifier classes ([pyhf/modifiers] is not
    among the embedded files).  Sections 3 and 6 of the spec: a class is
    shared or not, and an instance exposes its parameter count, initial
    values, bounds, whether it is constrained, its auxiliary data and the
    family of its constraint.  A normalisation factor or systematic has
    one parameter, a shape systematic or statistical error one per bin. *)
Definition ex_modifier (name : string) (n : nat) (init : Qn) (constrained : bool)
    (aux : list Qn) (pdf_t : string) : modifier Qn unit :=
  {| type_name := name; n_parameters := n;
     mod_suggested_init := replicate n init;
     mod_suggested_bounds := replicate n (qn 0, qn 10);
     is_constrained := constrained; mod_auxdata := aux; pdf_type := pdf_t;
     uncertainties := None; nominal_counts := None; mod_state := tt |}.

Definition ex_normfactor : modifier_cls Qn unit unit :=
  {| is_shared := true;
     new := fun _ _ => ex_modifier "normfactor" 1 (qn 1) false [] EmptyString |}.

Definition ex_normsys : modifier_cls Qn unit unit :=
  {| is_shared := true;
     new := fun _ _ => ex_modifier "normsys" 1 (qn 0) true [qn 0] "normal" |}.

Definition ex_shapesys : modifier_cls Qn unit unit :=
  {| is_shared := false;
     new := fun nom _ =>
       ex_modifier "shapesys" (length nom) (qn 1) true nom "poisson" |}.

Definition ex_staterror : modifier_cls Qn unit unit :=
  {| is_shared := true;
     new := fun nom _ =>
       ex_modifier "staterror" (length nom) (qn 1) true
                   (replicate (length nom) (qn 1)) "normal" |}.

#[global] Instance ex_modifiers : Modifiers Qn unit unit := {|
  registry := list_to_map [("normfactor", ex_normfactor); ("normsys", ex_normsys);
                           ("shapesys", ex_shapesys); ("staterror", ex_staterror)]%string;
  add_sample := fun m _ _ _ _ => m;
  alphas := fun m pars => pars;
  expected_data_of := fun m pars => pars
|}.

Definition ex_def (name type : string) : modifier_def unit :=
  {| md_name := name; md_type := type; md_data := tt |}.

Definition ex_sample (name : string) (data : list Z) (mods : list (modifier_def unit))
  : sample Qn unit :=
  {| s_name := name; s_data := qn <$> data; s_modifiers := mods;
     modifiers_by_type := ∅ |}.

(** One channel, a signal with a normalisation factor and a background
    with a two-parameter shape systematic. *)
Definition ex_spec : spec Qn unit :=
  [ {| c_name := "singlechannel";
       c_samples :=
         [ ex_sample "signal" [12; 11]%Z [ex_def "mu" "normfactor"];
           ex_sample "background" [50; 52]%Z [ex_def "uncorr_bkguncrt" "shapesys"] ] |} ].

(** Two samples share the normalisation systematic [lumi]. *)
Definition ex_spec_shared : spec Qn unit :=
  [ {| c_name := "singlechannel";
       c_samples :=
         [ ex_sample "signal" [12; 11]%Z
                     [ex_def "mu" "normfactor"; ex_def "lumi" "normsys"];
           ex_sample "background" [50; 52]%Z [ex_def "lumi" "normsys"] ] |} ].

(** The name [syst] is declared as [normsys] and then again as the
    non-shared [shapesys]. *)
Definition ex_spec_reuse : spec Qn unit :=
  [ {| c_name := "singlechannel";
       c_samples :=
         [ ex_sample "signal" [12; 11]%Z
                     [ex_def "mu" "normfactor"; ex_def "syst" "normsys"];
           ex_sample "background" [50; 52]%Z [ex_def "syst" "shapesys"] ] |} ].

(** ** Notions used by the statements *)

(** The sizes that [pdf.py] expects of a modifier instance: as many
    initial values and bounds as parameters, and for a constrained
    modifier as many auxiliary data. *)
Definition well_sized {F mstate} (m : modifier F mstate) : Prop :=
  length (mod_suggested_init m) = n_parameters m /\
  length (mod_suggested_bounds m) = n_parameters m /\
  (is_constrained m = true -> length (mod_auxdata m) = n_parameters m).

(** The contract of the modifier classes: constructors build well-sized
    instances and [add_sample] leaves the sizes alone. *)
Class ModifierContract (F moddata mstate : Type) `{!Modifiers F moddata mstate}
  : Prop := {
  new_well_sized : forall t cls nom d,
    registry !! t = Some cls -> well_sized (new cls nom d);
  add_sample_n_parameters : forall m c s sd d,
    n_parameters (add_sample m c s sd d) = n_parameters m;
  add_sample_is_constrained : forall m c s sd d,
    is_constrained (add_sample m c s sd d) = is_constrained m;
  add_sample_well_sized : forall m c s sd d,
    well_sized m -> well_sized (add_sample m c s sd d)
}.

(** Parameter counts of the instances in the store, in allocation
    order. *)
Definition sizes {F mstate} (c : _ModelConfig F mstate) : list nat :=
  n_parameters <$> heap c.

(** Number of parameters of the constrained instances. *)
Definition constrained_count {F mstate} (c : _ModelConfig F mstate) : nat :=
  sum_list ((fun m => if is_constrained m then n_parameters m else 0%nat) <$> heap c).

(** The bookkeeping invariant of a configuration under construction. *)
Record cfg_inv {F mstate} (c : _ModelConfig F mstate) : Prop := {
  inv_len : length (par_order c) = length (heap c);
  inv_next : next_index c = sum_list (sizes c);
  inv_map : forall name e, par_map c !! name = Some e ->
    par_order c !! modifier_ref e = Some name /\
    slice e = (sum_list (take (modifier_ref e) (sizes c)),
               sum_list (take (S (modifier_ref e)) (sizes c)));
  inv_order : forall name, name ∈ par_order c -> is_Some (par_map c !! name);
  inv_sized : Forall well_sized (heap c);
  inv_aux : length (auxdata c) = constrained_count c
}.

(** Two half-open ranges without a common index. *)
Definition disjoint_slices (a b : nat * nat) : Prop :=
  (a.2 <= b.1 \/ b.2 <= a.1)%nat.

(** The names under which the modifier definitions of a specification are
    registered. *)
Definition declared_names {F moddata} (qualify_names : bool) (sp : spec F moddata)
  : list string :=
  (fun d => md_name (qualified qualify_names d)) <$> all_modifier_defs sp.

(** The configuration of the example specification. *)
Definition ex_config : _ModelConfig Qn unit :=
  Eval vm_compute in
  match from_spec ex_spec "mu" false with
  | Ok (c, _) => c
  | Raise _ => __init__
  end.

(** A configuration in which [syst] is registered as a [normsys]. *)
Definition ex_config_syst : _ModelConfig Qn unit :=
  register_modifier __init__ "syst" (new ex_normsys [] tt).

(** Arrays given by their entries: [tab n f] is [[f 0; ...; f (n - 1)]]. *)
Definition tab {A} (n : nat) (f : nat -> A) : list A := f <$> seq 0 n.

Definition tab3 {A} (sh : nat * nat * nat) (f : nat -> nat -> nat -> A)
  : list (list (list A)) :=
  tab sh.1.1 (fun i => tab sh.1.2 (fun j => tab sh.2 (fun k => f i j k))).

(** Rectangular arrays of a given shape. *)
Definition rect3 {A} (sh : nat * nat * nat) (c : list (list (list A))) : Prop :=
  length c = sh.1.1 /\
  Forall (fun plane => length plane = sh.1.2 /\
                       Forall (fun row : list A => length row = sh.2) plane) c.

(** The entry [c[i, j, k]], [d] outside the array. *)
Definition at3 {A} (d : A) (c : list (list (list A))) (i j k : nat) : A :=
  match c !! i with
  | Some plane =>
      match plane !! j with
      | Some row => default d (row !! k)
      | None => d
      end
  | None => d
  end.

Definition mk_index (o m i j : nat) : op_index :=
  {| ix_opcode := o; ix_mod := m; ix_chan := i; ix_samp := j |}.

(** An entry of the combiners' results that [op_fields] of the given
    shape can take: the index is inside the array and the contribution
    is a row of bins or a single value. *)
Definition valid_result {F} (sh : nat * nat * nat) (ntotalmods : nat)
    (res : op_index * list F) : Prop :=
  (ix_opcode res.1 < 2)%nat /\ (ix_mod res.1 < ntotalmods)%nat /\
  (ix_chan res.1 < sh.1.1)%nat /\ (ix_samp res.1 < sh.1.2)%nat /\
  is_Ok (broadcast_row sh.2 res.2).

(** The (sample slot, bin) positions of a channel, in row-major order. *)
Definition positions (maxsamp maxbins : nat) : list (nat * nat) :=
  j ← seq 0 maxsamp; (fun k => (j, k)) <$> seq 0 maxbins.

Section YieldSpec.
Context {F : Type} `{!Number F}.

(** What the spec says of the modifier fields.  [contribution ri t k] is
    the contribution of bin [k] that the combiners' results [ri] give
    for the modifier, channel and sample slot of the index [t] (the last
    one, when several entries have the index), and the identity of the
    kind (1 for factors, 0 for deltas) where [ri] has none. *)
Definition assign (maxbins : nat) (res : op_index * list F)
    (g : op_index -> nat -> F) : op_index -> nat -> F :=
  fun t k =>
    if decide (t = res.1) then
      match broadcast_row maxbins res.2 with
      | Ok row => default (g t k) (row !! k)
      | Raise _ => g t k
      end
    else g t k.

Definition identity_of (o : nat) : F :=
  match o with
  | O => fone
  | _ => fzero
  end.

Definition contribution (maxbins : nat) (ri : list (op_index * list F))
  : op_index -> nat -> F :=
  foldl (fun g res => assign maxbins res g) (fun t _ => identity_of (ix_opcode t)) ri.

(** Product of the factor contributions and sum of the delta
    contributions of all modifiers at a position of the cube. *)
Definition factor_at (maxbins ntotalmods : nat) (ri : list (op_index * list F))
    (i j k : nat) : F :=
  foldl fmul fone
        ((fun m => contribution maxbins ri (mk_index 0 m i j) k) <$> seq 0 ntotalmods).

Definition delta_at (maxbins ntotalmods : nat) (ri : list (op_index * list F))
    (i j k : nat) : F :=
  foldl fadd fzero
        ((fun m => contribution maxbins ri (mk_index 1 m i j) k) <$> seq 0 ntotalmods).

(** factor × (delta + nominal) at a position. *)
Definition yield_at (c : tensor3 F) (ntotalmods : nat)
    (ri : list (op_index * list F)) (i j k : nat) : F :=
  let maxbins := (shape3 c).2 in
  fmul (factor_at maxbins ntotalmods ri i j k)
       (fadd (delta_at maxbins ntotalmods ri i j k) (at3 fnan c i j k)).

(** The sum over the positions of channel [i] whose yield is a
    number. *)
Definition channel_yield (c : tensor3 F) (ntotalmods : nat)
    (ri : list (op_index * list F)) (i : nat) : F :=
  np_sum (filter (fun x => isnan x = false)
                 ((fun p => yield_at c ntotalmods ri i p.1 p.2)
                    <$> positions (shape3 c).1.2 (shape3 c).2)).

(** The layers [op_fields[o]] whose entries are given by [g]. *)
Definition layers (sh : nat * nat * nat) (ntotalmods : nat)
    (g : op_index -> nat -> F) (o : nat) : list (tensor3 F) :=
  tab ntotalmods (fun m => tab3 sh (fun i j k => g (mk_index o m i j) k)).

End YieldSpec.

(** [np.sum(cube[i][~np.isnan(cube[i])])]: the sum of the nominal
    yields of channel [i]. *)
Definition nominal_sum {F} `{!Number F} (c : tensor3 F) (i : nat) : F :=
  np_sum (not_nan_entries (default [] (c !! i))).

(** The combiners' results at the identity point: every factor
    contribution is 1 and every delta contribution is 0. *)
Definition identity_results {F} `{!Number F} (ri : list (op_index * list F)) : Prop :=
  Forall (fun res : op_index * list F =>
            Forall (fun x => x = identity_of (ix_opcode res.1)) res.2) ri.

(** A backend over the rationals.  The densities and the transcendental
    functions are stand-ins (products and identities); the statements
    below do not depend on what they compute. *)
#[global] Instance ex_backend : Backend Qn := {|
  poisson := zip_with fmul;
  tlog := fun l => l;
  texp := fun l => l;
  tsum := foldl fadd fzero;
  tsqrt := fun l => l;
  tpower := fun l _ => l;
  tsum_axis0 := fun l => default [] (head l);
  tdivide := zip_with fmul;
  pdf_eval := fun _ c => Ok ((fun t : list Qn * list Qn * list Qn =>
                                foldl fadd fzero (zip_with fmul t.1.1 t.1.2)) <$> c)
|}.

(** Modelled from the spec: the combiners ([pyhf/modifiers/combined.py]
    is not among the embedded files).  Section 4.2 of the spec: the
    trivial strategy returns, per modifier name, the modifier's parameter
    values as the contribution to each (channel, sample) slot that
    declares it, with the index of the slot; the interpolated strategy
    has the same result format.  The examples declare no interpolated
    modifier, so [combined_apply] has no entries. *)
Definition ex_trivial_apply (self : Model Qn unit unit) (mtype : string)
    (pars : list Qn) : gmap string (list (op_index * list Qn)) :=
  foldl (fun acc (ic : nat * channel Qn unit) =>
    foldl (fun acc' (js : nat * sample Qn unit) =>
      foldl (fun acc'' (d : modifier_def unit) =>
        if bool_decide (md_type d = mtype) then
          match list_find (fun e : string * (string * nat * nat) => e.1 = md_name d)
                          (allmods self),
                par_map (config self) !! md_name d with
          | Some (_, (_, (_, o, mod_id))), Some e =>
              <[md_name d :=
                  default [] (acc'' !! md_name d)
                  ++ [(mk_index o mod_id ic.1 js.1, py_slice pars (slice e))]]> acc''
          | _, _ => acc''
          end
        else acc'')
        acc' (s_modifiers js.2))
      acc (enumerate (c_samples ic.2)))
    ∅ (enumerate (m_spec self)).

#[global] Instance ex_combiners : Combiners Qn unit unit := {|
  combined_apply := fun _ _ _ => ∅;
  trivial_apply := ex_trivial_apply
|}.

Definition empty_model : Model Qn unit unit :=
  {| m_spec := []; config := __init__; cube := []; hm := ∅;
     finalized_stats := ∅; allmods := [] |}.

(** The model of the example specification. *)
Definition ex_model : Model Qn unit unit :=
  Eval vm_compute in
  match Model_init ex_spec "mu" false with
  | Ok m => m
  | Raise _ => empty_model
  end.

(** A second sample with fewer bins than the first. *)
Definition ex_spec_ragged : spec Qn unit :=
  [ {| c_name := "singlechannel";
       c_samples :=
         [ ex_sample "signal" [1; 2; 3]%Z [ex_def "mu" "normfactor"];
           ex_sample "background" [4; 5]%Z [] ] |} ].

(** A second sample with a single bin. *)
Definition ex_spec_onebin : spec Qn unit :=
  [ {| c_name := "singlechannel";
       c_samples :=
         [ ex_sample "signal" [1; 2; 3]%Z [ex_def "mu" "normfactor"];
           ex_sample "background" [4]%Z [] ] |} ].

Definition ex_model_onebin : Model Qn unit unit :=
  Eval vm_compute in
  match Model_init ex_spec_onebin "mu" false with
  | Ok m => m
  | Raise _ => empty_model
  end.

(** A channel with one sample next to a channel with two. *)
Definition ex_spec_two_channels : spec Qn unit :=
  [ {| c_name := "first";
       c_samples :=
         [ ex_sample "signal" [12; 11]%Z [ex_def "mu" "normfactor"];
           ex_sample "background" [50; 52]%Z [] ] |};
    {| c_name := "second";
       c_samples := [ ex_sample "control" [7; 9]%Z [] ] |} ].

(** The combiners' results for the example model at the parameters
    [2; 1; 1] and at the identity point [1; 1; 1]. *)
Definition ex_results (mu : Z) : list (op_index * list Qn) :=
  [(mk_index 0 0 0 0, [qn mu]); (mk_index 0 1 0 1, [qn 1; qn 1])].


(** The shapes of the results of the graph operations: the gradient has
    one entry and the Hessian one row per differentiated parameter, and
    the inverse has as many rows as the matrix. *)
Class TensorFlowShapes `{!TensorFlow} : Prop := {
  tf_gradients_length : forall f x, length (tf_gradients f x) = length x;
  tf_hessians_length : forall f x, length (tf_hessians f x) = length x;
  tf_linalg_inv_length : forall h h', tf_linalg_inv h = Some h' -> length h' = length h
}.

(** An instance of the graph operations that is exact on quadratic
    objectives: central differences of step 1 for the gradient and the
    Hessian, and the inverse of matrices of one or two rows. *)
Definition bump (x : list Q) (i : nat) (h : Q) : list Q :=
  alter (fun v => Qplus v h) i x.

Definition ex_gradients (f : list Q -> Q) (x : list Q) : list Q :=
  (fun i => Qdiv (Qminus (f (bump x i 1%Q)) (f (bump x i (-1)%Q))) 2%Q)
    <$> seq 0 (length x).

Definition ex_hessians (f : list Q -> Q) (x : list Q) : list (list Q) :=
  (fun i =>
     (fun j =>
        Qdiv (Qplus (Qminus (Qminus (f (bump (bump x i 1%Q) j 1%Q))
                                    (f (bump (bump x i 1%Q) j (-1)%Q)))
                            (f (bump (bump x i (-1)%Q) j 1%Q)))
                    (f (bump (bump x i (-1)%Q) j (-1)%Q)))
             4%Q)
       <$> seq 0 (length x))
    <$> seq 0 (length x).

Definition ex_inv (h : list (list Q)) : option (list (list Q)) :=
  match h with
  | [[a]] => if Qeq_bool a 0%Q then None else Some [[Qinv a]]
  | [[a; b]; [c; d]] =>
      let det := Qminus (Qmult a d) (Qmult b c) in
      if Qeq_bool det 0%Q then None
      else Some [[Qdiv d det; Qdiv (Qopp b) det]; [Qdiv (Qopp c) det; Qdiv a det]]
  | _ => None
  end.

#[global] Instance ex_tf : TensorFlow := {|
  tf_gradients := ex_gradients;
  tf_hessians := ex_hessians;
  tf_linalg_inv := ex_inv
|}.

(** Half the squared distance of the parameters to the data. *)
Definition ex_objective (pars data : list Q) (_ : unit) : Q :=
  Qdiv (foldl Qplus 0%Q (zip_with (fun p t => Qmult (Qminus p t) (Qminus p t)) pars data))
       2%Q.


(** The row [c[i, j, :]], when the indices are inside the array. *)
Definition row_at {A} (c : list (list (list A))) (i j : nat) : option (list A) :=
  match c !! i with
  | Some plane => plane !! j
  | None => None
  end.

(** ** Further notions *)

(** Not-a-number propagates through the arithmetic and is recognised. *)
Class NanLaws (F : Type) `{!Number F} : Prop := {
  fadd_nan_r : forall x : F, fadd x fnan = fnan;
  fmul_nan_r : forall x : F, fmul x fnan = fnan;
  isnan_nan : isnan (fnan : F) = true
}.

(** The names of a configuration under construction: [par_map] holds
    exactly the names of [par_order], and these are the names collected
    so far. *)
Record names_inv {F mstate} (c : _ModelConfig F mstate) (collected : list string)
  : Prop := {
  names_order_map : forall name, name ∈ par_order c <-> is_Some (par_map c !! name);
  names_collected : forall name, name ∈ collected <-> name ∈ par_order c
}.

(** The names of the constrained instances, in allocation order. *)
Definition constrained_names {F mstate} (c : _ModelConfig F mstate) : list string :=
  (filter (fun p : string * modifier F mstate => is_constrained p.2 = true)
          (zip (par_order c) (heap c))).*1.

(** Every slice of [par_map] lies below the next free index. *)
Definition slices_bounded {F mstate} (c : _ModelConfig F mstate) : Prop :=
  forall name e, par_map c !! name = Some e ->
    ((slice e).1 <= (slice e).2 /\ (slice e).2 <= next_index c)%nat.

(** Every class of the registry is shared. *)
Definition all_shared {F moddata mstate} `{!Modifiers F moddata mstate} : Prop :=
  forall t cls, registry !! t = Some cls -> is_shared cls = true.

(** The shared classes of the example registry alone. *)
Definition ex_modifiers_shared : Modifiers Qn unit unit := {|
  registry := list_to_map [("normfactor", ex_normfactor); ("normsys", ex_normsys);
                           ("staterror", ex_staterror)]%string;
  add_sample := fun m _ _ _ _ => m;
  alphas := fun m pars => pars;
  expected_data_of := fun m pars => pars
|}.

(** The state of the loop of [_make_mod_index] after the definitions
    [pre]. *)
Definition mod_loop_inv {moddata : Type} (pre : list (modifier_def moddata))
    (acc : list (string * (string * nat)) * option nat) : Prop :=
  NoDup acc.1.*1 /\
  (forall name, name ∈ acc.1.*1 <-> name ∈ md_name <$> pre) /\
  (forall name t o, (name, (t, o)) ∈ acc.1 ->
     (t ∈ factor_mods -> o = 0%nat) /\ (t ∈ delta_mods -> o = 1%nat) /\
     exists i d, pre !! i = Some d /\ md_name d = name /\ md_type d = t /\
       forall j d', (j < i)%nat -> pre !! j = Some d' -> md_name d' ≠ name).

(** A statistical error declared under a name that does not contain the
    word, and a normalisation factor declared under one that does. *)
Definition ex_spec_stat_name : spec Qn unit :=
  [ {| c_name := "singlechannel";
       c_samples :=
         [ ex_sample "signal" [12; 11]%Z [ex_def "mu" "normfactor"];
           ex_sample "background" [50; 52]%Z [ex_def "mc_stat" "staterror"] ] |} ].

Definition ex_spec_named_staterror : spec Qn unit :=
  [ {| c_name := "singlechannel";
       c_samples :=
         [ ex_sample "signal" [12; 11]%Z
                     [ex_def "mu" "normfactor"; ex_def "staterror_scale" "normfactor"] ] |} ].

Definition ex_model_stat_name : Model Qn unit unit :=
  Eval vm_compute in
  match Model_init ex_spec_stat_name "mu" false with
  | Ok m => m
  | Raise _ => empty_model
  end.

(** A specification without constrained modifiers, and its model. *)
Definition ex_spec_free : spec Qn unit :=
  [ {| c_name := "singlechannel";
       c_samples :=
         [ ex_sample "signal" [12; 11]%Z [ex_def "mu" "normfactor"];
           ex_sample "background" [50; 52]%Z [] ] |} ].

Definition ex_model_free : Model Qn unit unit :=
  Eval vm_compute in
  match Model_init ex_spec_free "mu" false with
  | Ok m => m
  | Raise _ => empty_model
  end.

(** The model of the specification with two channels, the second with
    one sample only. *)
Definition ex_model_two_channels : Model Qn unit unit :=
  Eval vm_compute in
  match Model_init ex_spec_two_channels "mu" false with
  | Ok m => m
  | Raise _ => empty_model
  end.

(** An objective that is constant: its Hessian is singular once the
    regulariser is added to every entry. *)
Definition ex_flat (pars data : list Q) (_ : unit) : Q := 0%Q.

(** The specification as the loops of [from_spec] leave it: every
    modifier definition carries its registered name, and every sample its
    [modifiers_by_type]. *)
Definition by_type_of {moddata} (defs : list (modifier_def moddata))
  : gmap string (list string) :=
  foldl (fun bt d => by_type_append (md_type d) (md_name d) bt) ∅ defs.

Definition rewritten_sample {F moddata} (q : bool) (s : sample F moddata)
  : sample F moddata :=
  {| s_name := s_name s; s_data := s_data s;
     s_modifiers := qualified q <$> s_modifiers s;
     modifiers_by_type := by_type_of (qualified q <$> s_modifiers s) |}.

Definition rewritten {F moddata} (q : bool) (sp : spec F moddata) : spec F moddata :=
  (fun c => {| c_name := c_name c; c_samples := rewritten_sample q <$> c_samples c |})
    <$> sp.

(** Type names without the separator of qualified names. *)
Definition slash : Ascii.ascii := Eval vm_compute in Ascii.ascii_of_nat 47.

Fixpoint no_slash (t : string) : bool :=
  match t with
  | EmptyString => true
  | String a t' => negb (Ascii.eqb a slash) && no_slash t'
  end.

(** What [add_or_get_modifier] relies on when it compares
    [type(modifier).__name__] with the declared type: a class is
    registered under its own name, which has no separator in it, and
    [add_sample] does not change the class of an instance. *)
Class TypeNameContract (F moddata mstate : Type) `{!Modifiers F moddata mstate}
  : Prop := {
  new_type_name : forall t cls nom d,
    registry !! t = Some cls -> type_name (new cls nom d) = t;
  registry_no_slash : forall t cls, registry !! t = Some cls -> no_slash t = true;
  add_sample_type_name : forall m c s sd d,
    type_name (add_sample m c s sd d) = type_name m
}.

(** Every registered name is a qualified name whose type is the class of
    the instance it refers to. *)
Definition qualified_inv {F mstate} (c : _ModelConfig F mstate) : Prop :=
  forall name e, par_map c !! name = Some e ->
    exists m t n, heap c !! modifier_ref e = Some m /\
      name = (t +:+ "/" +:+ n)%string /\ type_name m = t /\ no_slash t = true.

(** The name [syst] is declared as [normsys] and then again as the
    shared [staterror]. *)
Definition ex_spec_clash : spec Qn unit :=
  [ {| c_name := "singlechannel";
       c_samples :=
         [ ex_sample "signal" [12; 11]%Z
                     [ex_def "mu" "normfactor"; ex_def "syst" "normsys"];
           ex_sample "background" [50; 52]%Z [ex_def "syst" "staterror"] ] |} ].

(** [histomap[cn][sn]], and the number of samples of the channels before
    channel [i]. *)
Definition hm_lookup (h : histomap) (cn sn : string) : option (nat * (nat * nat)) :=
  match h !! cn with
  | Some inner => inner !! sn
  | None => None
  end.

Definition samples_before {F moddata} (sp : spec F moddata) (i : nat) : nat :=
  sum_list ((fun c => length (c_samples c)) <$> take i sp).

(** The histogram map while [_make_cube] is at sample slot [kk] of
    channel [k], with the running [histoid]. *)
Definition histomap_inv {F moddata} (sp : spec F moddata) (k kk : nat)
    (histoid : nat) (h : histomap) : Prop :=
  histoid = (samples_before sp k + kk)%nat /\
  (forall cn sn id i j, hm_lookup h cn sn = Some (id, (i, j)) ->
     (i < k \/ (i = k /\ j < kk))%nat /\
     exists ch s, sp !! i = Some ch /\ c_samples ch !! j = Some s /\
       c_name ch = cn /\ s_name s = sn /\ id = (samples_before sp i + j)%nat) /\
  (forall i ch j s, (i < k \/ (i = k /\ j < kk))%nat ->
     sp !! i = Some ch -> c_samples ch !! j = Some s ->
     is_Some (hm_lookup h (c_name ch) (s_name s))).

Section NewtonRun.
Context `{!TensorFlow}.


End NewtonRun.

(** * Properties *)

Lemma for_each_inv {A S : Type} (P : S -> Prop) (body : S -> A -> result S)
    (l : list A) :
  (forall s x s', P s -> x ∈ l -> body s x = Ok s' -> P s') ->
  forall s r, P s -> for_each body l s = Ok r -> P r.
Proof.
  induction l as [|x l IH]; intros Hbody s r Hs Hrun; simpl in Hrun.
  - by inversion Hrun; subst.
  - destruct (body s x) as [s'|e] eqn:Hb; simpl in Hrun; [|done].
    apply (IH (fun s0 y s0' H0 Hy => Hbody s0 y s0' H0 (list_elem_of_further _ _ _ Hy)) s');
      [|done].
    eapply Hbody; [done| |done]. apply list_elem_of_here.
Qed.

Lemma sum_list_app (l k : list nat) : sum_list (l ++ k) = (sum_list l + sum_list k)%nat.
Proof. apply sum_list_with_app. Qed.

Lemma sum_list_take_le (l : list nat) (i j : nat) :
  (i <= j)%nat -> (sum_list (take i l) <= sum_list (take j l))%nat.
Proof.
  intros Hij. replace j with (i + (j - i))%nat by lia.
  rewrite <- take_take_drop, sum_list_app. lia.
Qed.

Lemma fmap_alter_same {A B : Type} (g : A -> B) (f : A -> A) (i : nat) (l : list A) :
  (forall x, g (f x) = g x) -> g <$> alter f i l = g <$> l.
Proof.
  intros Hf. revert i.
  induction l as [|x l IH]; intros [|i]; csimpl; rewrite ?Hf, ?IH; done.
Qed.

Section ModelConfigTheory.
Context {F moddata mstate : Type} `{!Modifiers F moddata mstate}.

Local Abbreviation config := (_ModelConfig F mstate).

Lemma init_inv : cfg_inv (__init__ : config).
Proof.
  split; simpl; try done.
  intros name H. by apply elem_of_nil in H.
Qed.

Lemma register_modifier_inv (self : config) (name : string) (m : modifier F mstate) :
  well_sized m -> cfg_inv self -> cfg_inv (register_modifier self name m).
Proof.
  intros Hm [Hlen Hnext Hmap Hord Hsz Haux].
  split; unfold sizes in *; simpl.
  - rewrite !length_app. simpl. lia.
  - rewrite fmap_app, sum_list_app. simpl. lia.
  - intros name' e. rewrite lookup_insert. case_decide as Hn.
    + intros [= <-]. simpl. subst name'. split.
      * rewrite <- Hlen. apply list_lookup_middle. done.
      * rewrite fmap_app.
        rewrite take_app_length' by (by rewrite length_fmap).
        rewrite take_ge by (rewrite length_app, length_fmap; simpl; lia).
        rewrite sum_list_app. simpl. f_equal; lia.
    + intros He. destruct (Hmap _ _ He) as [Hpo Hsl].
      assert (modifier_ref e < length (heap self))%nat as Hlt.
      { rewrite <- Hlen. by eapply lookup_lt_Some. }
      split.
      * rewrite lookup_app_l; [done|]. by eapply lookup_lt_Some.
      * rewrite Hsl, fmap_app.
        rewrite !take_app_le by (rewrite length_fmap; lia). done.
  - intros name'. rewrite elem_of_app, list_elem_of_singleton.
    intros [Hin| ->].
    + destruct (decide (name = name')) as [->|Hne].
      * rewrite lookup_insert_eq. by eexists.
      * rewrite lookup_insert_ne by done. by apply Hord.
    + rewrite lookup_insert_eq. by eexists.
  - apply Forall_app. split; [done|]. by apply Forall_singleton.
  - unfold constrained_count in *. simpl.
    rewrite fmap_app, sum_list_app. simpl.
    destruct Hm as (_ & _ & Hm).
    destruct (is_constrained m); [|lia].
    rewrite length_app, Hm by done. lia.
Qed.

Lemma sizes_alter (self : config) (f : modifier F mstate -> modifier F mstate) (ref : nat) :
  (forall m, n_parameters (f m) = n_parameters m) ->
  n_parameters <$> alter f ref (heap self) = n_parameters <$> heap self.
Proof.
  apply fmap_alter_same.
Qed.

Lemma heap_add_sample_inv `{!ModifierContract F moddata mstate} (self : config)
    (ref : nat) (cname sname : string) (sdata : list F) (d : modifier_def moddata) :
  cfg_inv self -> cfg_inv (heap_add_sample self ref cname sname sdata d).
Proof.
  intros [Hlen Hnext Hmap Hord Hsz Haux].
  assert (sizes (heap_add_sample self ref cname sname sdata d) = sizes self) as Hs.
  { unfold sizes. simpl. apply sizes_alter. intros m. apply add_sample_n_parameters. }
  split; rewrite ?Hs; simpl; try done.
  - by rewrite length_alter.
  - apply Forall_alter; [done|]. intros m _ Hm. by apply add_sample_well_sized.
  - rewrite Haux. unfold constrained_count. simpl. f_equal.
    symmetry. apply fmap_alter_same. intros m.
    by rewrite add_sample_n_parameters, add_sample_is_constrained.
Qed.

Lemma add_or_get_modifier_inv `{!ModifierContract F moddata mstate} (self self' : config)
    (sdata : list F) (d : modifier_def moddata) (ref : nat) :
  cfg_inv self -> add_or_get_modifier self sdata d = Ok (ref, self') -> cfg_inv self'.
Proof.
  intros Hinv. unfold add_or_get_modifier.
  destruct (registry !! md_type d) as [cls|] eqn:Hreg; [|done].
  destruct (if is_shared cls then par_map self !! md_name d else None) as [e|].
  - destruct (heap self !! modifier_ref e) as [m|]; [|done].
    case_bool_decide; [|done]. by intros [= <- <-].
  - intros [= <- <-]. apply register_modifier_inv; [|done].
    by eapply new_well_sized.
Qed.

Lemma modifier_body_inv `{!ModifierContract F moddata mstate} (q : bool)
    (cname sname : string) (sdata : list F) acc d acc' :
  cfg_inv (bs_instance acc.1.1) ->
  modifier_body q cname sname sdata acc d = Ok acc' ->
  cfg_inv (bs_instance acc'.1.1).
Proof.
  destruct acc as [[st defs] bt]. simpl. intros Hinv. unfold modifier_body.
  destruct (add_or_get_modifier _ _ _) as [[ref inst]|] eqn:Hadd; simpl; [|done].
  intros [= <-]. simpl. apply heap_add_sample_inv.
  by eapply add_or_get_modifier_inv.
Qed.

Lemma sample_body_inv `{!ModifierContract F moddata mstate} (q : bool) (cname : string)
    acc (s : sample F moddata) acc' :
  cfg_inv (bs_instance acc.1) ->
  sample_body q cname acc s = Ok acc' ->
  cfg_inv (bs_instance acc'.1).
Proof.
  destruct acc as [st done0]. simpl. intros Hinv. unfold sample_body.
  destruct (for_each _ _ _) as [[[st5 defs] bt]|] eqn:Hm; simpl; [|done].
  intros [= <-]. simpl.
  apply (for_each_inv (fun a => cfg_inv (bs_instance a.1.1)) _ _
           (fun a d a' Ha _ Hb => modifier_body_inv q cname _ _ a d a' Ha Hb)
           (st, [], ∅) _ Hinv Hm).
Qed.

Lemma channel_body_inv `{!ModifierContract F moddata mstate} (q : bool)
    acc (c : channel F moddata) acc' :
  cfg_inv (bs_instance acc.1) ->
  channel_body q acc c = Ok acc' ->
  cfg_inv (bs_instance acc'.1).
Proof.
  destruct acc as [st done0]. simpl. intros Hinv. unfold channel_body.
  destruct (for_each _ _ _) as [[st2 ss]|] eqn:Hs; simpl; [|done].
  intros [= <-]. simpl.
  apply (for_each_inv (fun a => cfg_inv (bs_instance a.1)) _ _
           (fun a s a' Ha _ Hb => sample_body_inv q _ a s a' Ha Hb)
           (st, []) _ Hinv Hs).
Qed.

Lemma from_spec_loops_inv `{!ModifierContract F moddata mstate} (sp sp' : spec F moddata)
    (poiname : string) (q : bool) (st : build_state) :
  from_spec_loops sp poiname q = Ok (st, sp') -> cfg_inv (bs_instance st).
Proof.
  unfold from_spec_loops. intros Hrun.
  apply (for_each_inv (fun a => cfg_inv (bs_instance a.1)) _ _
           (fun a c a' Ha _ Hb => channel_body_inv q a c a' Ha Hb)
           ({| bs_instance := __init__; bs_poiname := poiname;
               bs_modifiers := [] |}, []) _ init_inv Hrun).
Qed.

(** The loop of [suggested_init] and [suggested_bounds] when the names
    resolve to the modifiers [ms]. *)
Lemma for_each_get_modifier {B : Type} (self : config) (g : modifier F mstate -> list B)
    (names : list string) (ms : list (modifier F mstate)) (acc : list B) :
  Forall2 (fun name m => get_modifier self name = Ok m) names ms ->
  for_each (fun a name => m ← get_modifier self name; Ok (a ++ g m)) names acc
  = Ok (acc ++ concat (g <$> ms)).
Proof.
  intros H. revert acc. induction H as [|name m names ms Hm _ IH]; intros acc; simpl.
  - by rewrite app_nil_r.
  - rewrite Hm. simpl. rewrite IH. by rewrite <- app_assoc.
Qed.

Lemma par_order_resolves (self : config) :
  cfg_inv self -> NoDup (par_order self) ->
  Forall2 (fun name m => get_modifier self name = Ok m) (par_order self) (heap self).
Proof.
  intros [Hlen Hnext Hmap Hord Hsz Haux] Hnd.
  apply Forall2_same_length_lookup_2; [done|].
  intros i name m Hname Hm.
  destruct (Hord name) as [e He]; [by eapply list_elem_of_lookup_2|].
  destruct (Hmap _ _ He) as [Hpo _].
  assert (modifier_ref e = i) as <- by (by eapply NoDup_lookup).
  unfold get_modifier. by rewrite He, Hm.
Qed.

Lemma length_concat_sized {B : Type} (g : modifier F mstate -> list B)
    (ms : list (modifier F mstate)) :
  Forall (fun m => length (g m) = n_parameters m) ms ->
  length (concat (g <$> ms)) = sum_list (n_parameters <$> ms).
Proof.
  induction 1 as [|m ms Hm _ IH]; csimpl; [done|].
  rewrite length_app, Hm, IH. done.
Qed.

Lemma slices_disjoint (self : config) (n1 n2 : string) (e1 e2 : par_entry) :
  cfg_inv self -> n1 ≠ n2 ->
  par_map self !! n1 = Some e1 -> par_map self !! n2 = Some e2 ->
  disjoint_slices (slice e1) (slice e2).
Proof.
  intros [Hlen Hnext Hmap Hord Hsz Haux] Hne H1 H2.
  destruct (Hmap _ _ H1) as [Hp1 ->], (Hmap _ _ H2) as [Hp2 ->].
  unfold disjoint_slices. simpl.
  destruct (decide (modifier_ref e1 = modifier_ref e2)) as [Heq|Hneq].
  { rewrite Heq in Hp1. congruence. }
  destruct (decide (modifier_ref e1 < modifier_ref e2)%nat).
  - left. apply sum_list_take_le. lia.
  - right. apply sum_list_take_le. lia.
Qed.

Lemma cfg_inv_fields (c c' : config) :
  par_order c' = par_order c -> heap c' = heap c -> next_index c' = next_index c ->
  par_map c' = par_map c -> auxdata c' = auxdata c ->
  cfg_inv c -> cfg_inv c'.
Proof.
  intros H1 H2 H3 H4 H5 [Hlen Hnext Hmap Hord Hsz Haux].
  split; unfold sizes, constrained_count in *; rewrite ?H1, ?H2, ?H3, ?H4, ?H5; done.
Qed.

Lemma set_poi_fields (self self' : config) (name : string) :
  set_poi self name = Ok self' ->
  par_order self' = par_order self /\ heap self' = heap self /\
  next_index self' = next_index self /\ par_map self' = par_map self /\
  auxdata self' = auxdata self /\ auxdata_order self' = auxdata_order self.
Proof.
  unfold set_poi. case_bool_decide; [|done].
  destruct (par_slice self name) as [sl|]; simpl; [|done].
  destruct (_ =? _)%nat; [|done]. by intros [= <-].
Qed.

Lemma from_spec_inv `{!ModifierContract F moddata mstate} (sp sp' : spec F moddata)
    (poiname : string) (q : bool) (cfg : config) :
  from_spec sp poiname q = Ok (cfg, sp') -> cfg_inv cfg.
Proof.
  unfold from_spec.
  destruct (from_spec_loops sp poiname q) as [[st sp1]|] eqn:Hl; simpl; [|done].
  destruct (set_poi _ _) as [c|] eqn:Hp; simpl; [|done].
  intros [= <- <-]. apply set_poi_fields in Hp as (H1 & H2 & H3 & H4 & H5 & _).
  eapply cfg_inv_fields; [done..|].
  eapply cfg_inv_fields; [| | | | |by eapply from_spec_loops_inv]; done.
Qed.

Lemma suggested_lengths (self : config) :
  cfg_inv self -> NoDup (par_order self) ->
  exists init bounds,
    suggested_init self = Ok init /\ suggested_bounds self = Ok bounds /\
    length init = next_index self /\ length bounds = next_index self.
Proof.
  intros Hinv Hnd. pose proof (par_order_resolves self Hinv Hnd) as Hres.
  destruct Hinv as [Hlen Hnext Hmap Hord Hsz Haux].
  exists (concat (mod_suggested_init <$> heap self)),
         (concat (mod_suggested_bounds <$> heap self)).
  unfold suggested_init, suggested_bounds.
  rewrite !(for_each_get_modifier self _ _ _ _ Hres). simpl.
  rewrite Hnext. unfold sizes.
  repeat split; apply length_concat_sized;
    (eapply Forall_impl; [exact Hsz|]); intros m (? & ? & ?); done.
Qed.

(** The names that the loops of [from_spec] collect. *)
Lemma modifier_loop_names (q : bool) (cname sname : string) (sdata : list F)
    (l : list (modifier_def moddata)) acc acc' :
  for_each (modifier_body q cname sname sdata) l acc = Ok acc' ->
  bs_modifiers acc'.1.1
  = bs_modifiers acc.1.1 ++ ((fun d => md_name (qualified q d)) <$> l) /\
  (q = false -> bs_poiname acc'.1.1 = bs_poiname acc.1.1).
Proof.
  revert acc. induction l as [|d l IH]; intros [[st defs] bt]; simpl.
  - intros [= <-]. simpl. by rewrite app_nil_r.
  - unfold modifier_body at 1.
    destruct (add_or_get_modifier _ _ _) as [[ref inst]|]; simpl; [|done].
    intros Hrun. apply IH in Hrun as [-> Hp]. simpl in *. split.
    + by rewrite <- app_assoc.
    + intros ->. by rewrite Hp.
Qed.

Lemma sample_loop_names (q : bool) (cname : string) (l : list (sample F moddata))
    acc acc' :
  for_each (sample_body q cname) l acc = Ok acc' ->
  bs_modifiers acc'.1
  = bs_modifiers acc.1 ++ ((fun d => md_name (qualified q d)) <$> (s ← l; s_modifiers s)) /\
  (q = false -> bs_poiname acc'.1 = bs_poiname acc.1).
Proof.
  revert acc. induction l as [|s l IH]; intros [st done0]; simpl.
  - intros [= <-]. simpl. by rewrite app_nil_r.
  - unfold sample_body at 1.
    destruct (for_each _ _ _) as [[[st1 defs] bt]|] eqn:Hm; simpl; [|done].
    apply modifier_loop_names in Hm as [Hm Hp1]. simpl in *.
    intros Hrun. apply IH in Hrun as [-> Hp]. simpl in *. split.
    + rewrite Hm, fmap_app, <- app_assoc. done.
    + intros Hq. by rewrite Hp, Hp1.
Qed.

Lemma from_spec_loops_names (sp sp' : spec F moddata) (poiname : string) (q : bool)
    (st : build_state) :
  from_spec_loops sp poiname q = Ok (st, sp') ->
  bs_modifiers st = declared_names q sp /\ (q = false -> bs_poiname st = poiname).
Proof.
  unfold from_spec_loops, declared_names, all_modifier_defs.
  enough (forall acc acc',
    for_each (channel_body q) sp acc = Ok acc' ->
    bs_modifiers acc'.1
    = bs_modifiers acc.1 ++ ((fun d => md_name (qualified q d)) <$>
                               (c ← sp; s ← c_samples c; s_modifiers s)) /\
    (q = false -> bs_poiname acc'.1 = bs_poiname acc.1)) as H.
  { intros Hrun. by apply H in Hrun. }
  induction sp as [|c sp IH]; intros [st0 done0] acc'; simpl.
  - intros [= <-]. simpl. by rewrite app_nil_r.
  - unfold channel_body at 1.
    destruct (for_each _ _ _) as [[st1 ss]|] eqn:Hs; simpl; [|done].
    apply sample_loop_names in Hs as [Hs Hp1]. simpl in *.
    intros Hrun. apply IH in Hrun as [-> Hp]. simpl in *. split.
    + rewrite Hs, fmap_app, <- app_assoc. done.
    + intros Hq. by rewrite Hp, Hp1.
Qed.

(** C5.  When the loops of [from_spec] have registered every modifier,
    the construction raises [InvalidModel] if the name of the parameter
    of interest (as the loops leave it: rewritten under [qualify_names],
    unchanged otherwise) is not among the declared modifier names, and it
    fails as well, on the assertion of [set_poi], if the name resolves to
    a slice whose width is not 1. *)
Theorem from_spec_poi_failures (sp sp' : spec F moddata) (poiname : string)
    (q : bool) (st : build_state) :
  from_spec_loops sp poiname q = Ok (st, sp') ->
  (q = false -> bs_poiname st = poiname) /\
  (bs_poiname st ∉ declared_names q sp ->
     from_spec sp poiname q = Raise InvalidModel) /\
  (forall e, bs_poiname st ∈ declared_names q sp ->
     par_map (bs_instance st) !! bs_poiname st = Some e ->
     ((slice e).2 - (slice e).1)%nat ≠ 1%nat ->
     from_spec sp poiname q = Raise AssertionError).
Proof.
  intros Hl. destruct (from_spec_loops_names _ _ _ _ _ Hl) as [Hnames Hpoi].
  split; [done|]. unfold from_spec. rewrite Hl. simpl. unfold set_poi. simpl.
  rewrite Hnames. split.
  - intros Hnot. rewrite bool_decide_eq_false_2; [done|].
    by rewrite elem_of_list_to_set.
  - intros e Hin He Hw. rewrite bool_decide_eq_true_2 by (by rewrite elem_of_list_to_set).
    unfold par_slice. simpl. rewrite He. simpl.
    apply Nat.eqb_neq in Hw. by rewrite Hw.
Qed.

(** C6 (amended).  When the class of the declared type is shared and the
    name is registered, [add_or_get_modifier] returns the registered
    instance and leaves the configuration as it is (no slice is
    allocated) if the instance has the declared type, and raises
    [InvalidNameReuse] otherwise.  When the class of the declared type is
    not shared, a fresh instance with a slice of its own is registered,
    whatever is registered under the name. *)
Theorem add_or_get_modifier_redeclared (self : config) (sdata : list F)
    (d : modifier_def moddata) (cls : modifier_cls F moddata mstate) :
  registry !! md_type d = Some cls ->
  (is_shared cls = true ->
   forall e m, par_map self !! md_name d = Some e ->
     heap self !! modifier_ref e = Some m ->
     add_or_get_modifier self sdata d =
       if bool_decide (type_name m = md_type d)
       then Ok (modifier_ref e, self) else Raise InvalidNameReuse) /\
  (is_shared cls = false ->
   add_or_get_modifier self sdata d =
     Ok (length (heap self),
         register_modifier self (md_name d) (new cls sdata (md_data d)))).
Proof.
  intros Hreg. unfold add_or_get_modifier. rewrite Hreg. split.
  - intros -> e m He Hm. by rewrite He, Hm.
  - by intros ->.
Qed.

(** C7 (amended).  After [from_spec] the next free index is the sum of
    the parameter counts of all modifier instances created; every entry
    of [par_map] holds the slice of the allocation it refers to, which
    starts where the allocations before it end and is as wide as its
    instance has parameters; slices under different names are disjoint;
    and when no name was allocated twice, [suggested_init] and
    [suggested_bounds] have as many entries as there are parameters. *)
Theorem from_spec_parameter_layout `{!ModifierContract F moddata mstate}
    (sp sp' : spec F moddata) (poiname : string) (q : bool) (cfg : config) :
  from_spec sp poiname q = Ok (cfg, sp') ->
  next_index cfg = sum_list (sizes cfg) /\
  length (par_order cfg) = length (heap cfg) /\
  (forall name e, par_map cfg !! name = Some e ->
     par_order cfg !! modifier_ref e = Some name /\
     slice e = (sum_list (take (modifier_ref e) (sizes cfg)),
                sum_list (take (S (modifier_ref e)) (sizes cfg)))) /\
  (forall n1 n2 e1 e2, n1 ≠ n2 ->
     par_map cfg !! n1 = Some e1 -> par_map cfg !! n2 = Some e2 ->
     disjoint_slices (slice e1) (slice e2)) /\
  (NoDup (par_order cfg) ->
   exists init bounds,
     suggested_init cfg = Ok init /\ suggested_bounds cfg = Ok bounds /\
     length init = next_index cfg /\ length bounds = next_index cfg).
Proof.
  intros Hrun. pose proof (from_spec_inv _ _ _ _ _ Hrun) as Hinv.
  split; [apply Hinv|]. split; [apply Hinv|]. split; [apply Hinv|].
  split.
  - intros n1 n2 e1 e2. by apply slices_disjoint.
  - by apply suggested_lengths.
Qed.
End ModelConfigTheory.

#[global] Instance ex_contract : ModifierContract Qn unit unit.
Proof.
  split; try done.
  intros t cls nom d Hreg. unfold registry in Hreg. simpl in Hreg.
  repeat (apply lookup_insert_Some in Hreg as [[_ <-]|[_ Hreg]];
          [repeat split; simpl; rewrite ?length_replicate; done|]).
  by rewrite lookup_empty in Hreg.
Qed.

Lemma from_spec_poi_failures_witness :
  from_spec ex_spec "nope" false = Raise InvalidModel /\
  from_spec ex_spec "uncorr_bkguncrt" false = Raise AssertionError.
Proof.
  split.
  - destruct (from_spec_loops ex_spec "nope" false) as [[st sp']|] eqn:Hl;
      [|by vm_compute in Hl].
    destruct (from_spec_poi_failures ex_spec sp' "nope" false st Hl) as (Hp & Hno & _).
    apply Hno. rewrite Hp by done. apply (bool_decide_unpack _). by vm_compute.
  - destruct (from_spec_loops ex_spec "uncorr_bkguncrt" false) as [[st sp']|] eqn:Hl;
      [|by vm_compute in Hl].
    destruct (from_spec_poi_failures ex_spec sp' "uncorr_bkguncrt" false st Hl)
      as (Hp & _ & Hw).
    vm_compute in Hl. injection Hl as <- <-.
    apply (Hw {| slice := (1, 3)%nat; modifier_ref := 1 |}).
    + apply (bool_decide_unpack _). by vm_compute.
    + by vm_compute.
    + simpl. lia.
Defined.

Lemma add_or_get_modifier_redeclared_witness :
  add_or_get_modifier ex_config_syst [qn 50; qn 52] (ex_def "syst" "normsys")
  = Ok (0%nat, ex_config_syst) /\
  add_or_get_modifier ex_config_syst [qn 50; qn 52] (ex_def "syst" "normfactor")
  = Raise InvalidNameReuse.
Proof.
  split.
  - destruct (add_or_get_modifier_redeclared ex_config_syst [qn 50; qn 52]
                (ex_def "syst" "normsys") ex_normsys) as [Hs _]; [by vm_compute|].
    by rewrite (Hs eq_refl {| slice := (0, 1)%nat; modifier_ref := 0 |}
                   (new ex_normsys [] tt)) by (by vm_compute).
  - destruct (add_or_get_modifier_redeclared ex_config_syst [qn 50; qn 52]
                (ex_def "syst" "normfactor") ex_normfactor) as [Hs _]; [by vm_compute|].
    by rewrite (Hs eq_refl {| slice := (0, 1)%nat; modifier_ref := 0 |}
                   (new ex_normsys [] tt)) by (by vm_compute).
Defined.

(** C6, as it is stated, fails: [syst] is registered as a [normsys] and
    declared again with the non-shared type [shapesys]; no
    [InvalidNameReuse] is raised, a second instance with the slice
    [1, 3) is registered under the name. *)
Lemma redeclared_other_type_counterexample :
  exists e m,
    par_map ex_config_syst !! "syst" = Some e /\
    heap ex_config_syst !! modifier_ref e = Some m /\
    type_name m ≠ md_type (ex_def "syst" "shapesys") /\
    exists self',
      add_or_get_modifier ex_config_syst [qn 50; qn 52] (ex_def "syst" "shapesys")
      = Ok (1%nat, self') /\
      (slice <$> par_map self' !! "syst") = Some (1, 3)%nat /\
      next_index self' = 3%nat.
Proof.
  exists {| slice := (0, 1)%nat; modifier_ref := 0 |}, (new ex_normsys [] tt).
  split; [by vm_compute|]. split; [done|]. split; [done|].
  eexists. split; [reflexivity|]. split; by vm_compute.
Qed.

Lemma from_spec_parameter_layout_witness :
  next_index ex_config = 3%nat /\
  exists init bounds,
    suggested_init ex_config = Ok init /\ suggested_bounds ex_config = Ok bounds /\
    length init = next_index ex_config /\ length bounds = next_index ex_config.
Proof.
  assert (exists sp', from_spec ex_spec "mu" false = Ok (ex_config, sp')) as [sp' H].
  { eexists. by vm_compute. }
  destruct (from_spec_parameter_layout ex_spec sp' "mu" false ex_config H)
    as (Hn & _ & _ & _ & Hs).
  split; [by vm_compute|]. apply Hs. apply (bool_decide_unpack _). by vm_compute.
Defined.

(** C7, as it is stated, fails: the name [syst] is allocated for a
    [normsys] and again for a [shapesys]; the construction succeeds with
    four parameters, and [suggested_init] has five entries. *)
Lemma suggested_init_length_counterexample :
  exists cfg sp' init,
    from_spec ex_spec_reuse "mu" false = Ok (cfg, sp') /\
    next_index cfg = 4%nat /\
    sum_list (sizes cfg) = 4%nat /\
    suggested_init cfg = Ok init /\
    length init = 5%nat.
Proof.
  do 3 eexists. split; [by vm_compute|]. by vm_compute.
Qed.

(** ** Arrays as tables of their entries *)

Lemma tab_length {A} (n : nat) (f : nat -> A) : length (tab n f) = n.
Proof. unfold tab. by rewrite length_fmap, length_seq. Qed.

Lemma tab_lookup {A} (n : nat) (f : nat -> A) (i : nat) :
  (i < n)%nat -> tab n f !! i = Some (f i).
Proof.
  intros H. unfold tab. by rewrite list_lookup_fmap, lookup_seq_lt.
Qed.

Lemma tab_ext {A} (n : nat) (f g : nat -> A) :
  (forall i, (i < n)%nat -> f i = g i) -> tab n f = tab n g.
Proof.
  intros H. unfold tab. apply list_fmap_ext. intros i x Hx.
  apply lookup_seq in Hx as [-> ?]. by apply H.
Qed.

Lemma tab_of_list {A} (d : A) (l : list A) :
  l = tab (length l) (fun i => default d (l !! i)).
Proof.
  apply list_eq. intros i. destruct (decide (i < length l)%nat) as [Hi|Hi].
  - rewrite tab_lookup by done.
    destruct (lookup_lt_is_Some_2 l i Hi) as [x ->]. done.
  - rewrite !lookup_ge_None_2; [done| |lia]. rewrite tab_length. lia.
Qed.

Lemma tab_replicate {A} (n : nat) (x : A) : replicate n x = tab n (fun _ => x).
Proof.
  apply list_eq. intros i. destruct (decide (i < n)%nat) as [Hi|Hi].
  - rewrite tab_lookup by done. by apply lookup_replicate_2.
  - rewrite !lookup_ge_None_2; [done| |]; rewrite ?tab_length, ?length_replicate; lia.
Qed.

Lemma tab_zip_with {A} (h : A -> A -> A) (n : nat) (f g : nat -> A) :
  zip_with h (tab n f) (tab n g) = tab n (fun i => h (f i) (g i)).
Proof.
  unfold tab. rewrite zip_with_fmap_l, zip_with_fmap_r. apply zip_with_diag.
Qed.

Lemma tab_insert {A} (n : nat) (f : nat -> A) (i : nat) (x : A) :
  <[i := x]> (tab n f) = tab n (fun j => if decide (j = i) then x else f j).
Proof.
  apply list_eq. intros j. destruct (decide (j < n)%nat) as [Hj|Hj].
  - rewrite tab_lookup by done. destruct (decide (j = i)) as [->|Hne].
    + rewrite list_lookup_insert_eq; [done|]. by rewrite tab_length.
    + rewrite list_lookup_insert_ne by done. by apply tab_lookup.
  - rewrite !lookup_ge_None_2; [done| |]; rewrite ?length_insert, !tab_length; lia.
Qed.

Lemma tab_set_at {A} (n : nat) (f : nat -> A) (i : nat) (x : A) :
  (i < n)%nat ->
  set_at i x (tab n f) = Ok (tab n (fun j => if decide (j = i) then x else f j)).
Proof.
  intros Hi. unfold set_at. rewrite tab_length.
  destruct (Nat.ltb_spec i n); [|lia]. by rewrite tab_insert.
Qed.

Lemma tab_get_at {A} (n : nat) (f : nat -> A) (i : nat) :
  (i < n)%nat -> get_at i (tab n f) = Ok (f i).
Proof. intros Hi. unfold get_at. by rewrite tab_lookup. Qed.

Lemma tab3_zip3_with {A} (h : A -> A -> A) (sh : nat * nat * nat)
    (f g : nat -> nat -> nat -> A) :
  zip3_with h (tab3 sh f) (tab3 sh g) = tab3 sh (fun i j k => h (f i j k) (g i j k)).
Proof.
  unfold zip3_with, tab3. rewrite tab_zip_with. apply tab_ext. intros i _.
  rewrite tab_zip_with. apply tab_ext. intros j _. apply tab_zip_with.
Qed.

Lemma tab3_full3 {A} (sh : nat * nat * nat) (x : A) :
  full3 sh x = tab3 sh (fun _ _ _ => x).
Proof. unfold full3, tab3. by rewrite !tab_replicate. Qed.

Lemma tab3_ext {A} (sh : nat * nat * nat) (f g : nat -> nat -> nat -> A) :
  (forall i j k, (i < sh.1.1)%nat -> (j < sh.1.2)%nat -> (k < sh.2)%nat ->
                 f i j k = g i j k) ->
  tab3 sh f = tab3 sh g.
Proof.
  intros H. unfold tab3. apply tab_ext. intros i Hi. apply tab_ext. intros j Hj.
  apply tab_ext. intros k Hk. by apply H.
Qed.

Lemma tab3_of_rect {A} (d : A) (sh : nat * nat * nat) (c : list (list (list A))) :
  rect3 sh c -> c = tab3 sh (at3 d c).
Proof.
  intros [Hlen Hall]. unfold tab3.
  rewrite (tab_of_list [] c) at 1. rewrite Hlen. apply tab_ext. intros i Hi.
  destruct (lookup_lt_is_Some_2 c i) as [plane Hp]; [lia|].
  rewrite Hp. simpl.
  destruct (Forall_lookup_1 _ _ _ _ Hall Hp) as [Hpl Hrows].
  rewrite (tab_of_list [] plane) at 1. rewrite Hpl. apply tab_ext. intros j Hj.
  destruct (lookup_lt_is_Some_2 plane j) as [row Hr]; [lia|].
  rewrite Hr. simpl.
  pose proof (Forall_lookup_1 _ _ _ _ Hrows Hr) as Hrl. simpl in Hrl.
  rewrite (tab_of_list d row) at 1. rewrite Hrl. apply tab_ext. intros k Hk.
  unfold at3. by rewrite Hp, Hr.
Qed.

Lemma tab3_rect {A} (sh : nat * nat * nat) (f : nat -> nat -> nat -> A) :
  rect3 sh (tab3 sh f).
Proof.
  split; [apply tab_length|]. unfold tab3, tab.
  apply Forall_fmap, Forall_forall. intros i _. simpl.
  split; [by rewrite length_fmap, length_seq|].
  apply Forall_fmap, Forall_forall. intros j _. simpl.
  by rewrite length_fmap, length_seq.
Qed.

Lemma broadcast_row_length {A} (n : nat) (r row : list A) :
  broadcast_row n r = Ok row -> length row = n.
Proof.
  unfold broadcast_row. destruct (Nat.eqb_spec (length r) n).
  - by intros [= <-].
  - destruct r as [|x [|??]]; try done. intros [= <-]. apply length_replicate.
Qed.

Lemma tab3_set_row {A} (n m b : nat) (f : nat -> nat -> nat -> A) (i j : nat)
    (r row : list A) :
  (i < n)%nat -> (j < m)%nat -> broadcast_row b r = Ok row ->
  set_row i j r (tab3 (n, m, b) f)
  = Ok (tab3 (n, m, b) (fun i' j' k =>
          if decide (i' = i /\ j' = j) then default (f i' j' k) (row !! k)
          else f i' j' k)).
Proof.
  intros Hi Hj Hrow. unfold set_row, tab3. simpl.
  rewrite tab_get_at by done. simpl.
  rewrite tab_get_at by done. simpl.
  rewrite tab_length, Hrow. simpl.
  rewrite tab_set_at by done. simpl.
  rewrite tab_set_at by done. f_equal.
  apply tab_ext. intros i' Hi'. destruct (decide (i' = i)) as [->|Hne].
  - apply tab_ext. intros j' Hj'. destruct (decide (j' = j)) as [->|Hne].
    + rewrite (tab_of_list (f i j 0%nat) row) at 1.
      rewrite (broadcast_row_length _ _ _ Hrow).
      apply tab_ext. intros k Hk. rewrite decide_True by done.
      destruct (row !! k) eqn:Hr; [done|].
      apply lookup_ge_None_1 in Hr.
      rewrite (broadcast_row_length _ _ _ Hrow) in Hr. lia.
    + apply tab_ext. intros k Hk. rewrite decide_False; [done|]. by intros [_ ?].
  - apply tab_ext. intros j' Hj'. apply tab_ext. intros k Hk.
    rewrite decide_False; [done|]. by intros [? _].
Qed.

Lemma set_row_rect {A} (sh : nat * nat * nat) (i j : nat) (r : list A)
    (c c' : list (list (list A))) :
  rect3 sh c -> set_row i j r c = Ok c' -> rect3 sh c'.
Proof.
  intros [Hlen Hall]. unfold set_row, get_at, set_at.
  destruct (c !! i) as [plane|] eqn:Hp; simpl; [|done].
  destruct (plane !! j) as [old|] eqn:Ho; simpl; [|done].
  destruct (broadcast_row (length old) r) as [row|] eqn:Hrow; simpl; [|done].
  destruct (j <? length plane)%nat; simpl; [|done].
  destruct (i <? length c)%nat; simpl; [|done].
  intros [= <-].
  destruct (Forall_lookup_1 _ _ _ _ Hall Hp) as [Hpl Hrows].
  pose proof (Forall_lookup_1 _ _ _ _ Hrows Ho) as Hold. simpl in Hold.
  split; [by rewrite length_insert|].
  apply Forall_insert; [done|]. split; [by rewrite length_insert|].
  apply Forall_insert; [done|].
  by rewrite (broadcast_row_length _ _ _ Hrow).
Qed.

Lemma rect3_shape3 {A} (sh : nat * nat * nat) (c : list (list (list A))) :
  rect3 sh c -> rect3 (shape3 c) c.
Proof.
  intros [Hlen Hall]. split; [done|].
  destruct c as [|plane c]; [constructor|].
  unfold shape3. simpl.
  pose proof (Forall_inv Hall) as [Hpl Hrows].
  eapply Forall_impl; [exact Hall|]. intros p [Hp Hr]. split; [congruence|].
  destruct plane as [|row plane].
  - simpl in *. destruct p; [constructor|]. simpl in Hp. congruence.
  - simpl. pose proof (Forall_inv Hrows) as Hrow. simpl in Hrow.
    eapply Forall_impl; [exact Hr|]. intros r' Hr'. simpl in *. congruence.
Qed.

Lemma set_row_spec {A} (i j : nat) (r : list A) (c c' : list (list (list A))) :
  set_row i j r c = Ok c' ->
  exists old row,
    row_at c i j = Some old /\ broadcast_row (length old) r = Ok row /\
    row_at c' i j = Some row /\
    forall i' j', (i' ≠ i \/ j' ≠ j) -> row_at c' i' j' = row_at c i' j'.
Proof.
  unfold set_row, get_at, set_at, row_at.
  destruct (c !! i) as [plane|] eqn:Hp; simpl; [|done].
  destruct (plane !! j) as [old|] eqn:Ho; simpl; [|done].
  destruct (broadcast_row (length old) r) as [row|] eqn:Hrow; simpl; [|done].
  destruct (Nat.ltb_spec j (length plane)); simpl; [|done].
  destruct (Nat.ltb_spec i (length c)); simpl; [|done].
  intros [= <-]. exists old, row. split; [done|]. split; [done|]. split.
  - rewrite list_lookup_insert_eq by done. by rewrite list_lookup_insert_eq.
  - intros i' j' Hne. destruct (decide (i' = i)) as [->|Hi].
    + rewrite list_lookup_insert_eq by done. rewrite Hp.
      destruct Hne as [?|Hj]; [done|]. by rewrite list_lookup_insert_ne.
    + by rewrite list_lookup_insert_ne.
Qed.

Lemma enumerate_lookup {A} (l : list A) (i : nat) (x : A) :
  l !! i = Some x -> enumerate l !! i = Some (i, x).
Proof.
  intros Hx. unfold enumerate. rewrite lookup_zip_with, Hx.
  rewrite lookup_seq_lt by (by eapply lookup_lt_Some). done.
Qed.

Section ModelTheory.
Context {F moddata mstate : Type}.
Context `{!Modifiers F moddata mstate} `{!Number F} `{!Backend F}.
Context `{!Combiners F moddata mstate}.

Local Abbreviation model := (Model F moddata mstate).

Lemma layers_set_op_field (n m b ntot : nat) (g : op_index -> nat -> F)
    (res : op_index * list F) :
  valid_result (n, m, b) ntot res ->
  set_op_field res.1 res.2 (layers (n, m, b) ntot g 0, layers (n, m, b) ntot g 1)
  = Ok (layers (n, m, b) ntot (assign b res g) 0,
        layers (n, m, b) ntot (assign b res g) 1).
Proof.
  destruct res as [[o mi i j] r]. intros (Ho & Hm & Hi & Hj & [row Hrow]). simpl in *.
  unfold set_op_field, layers. simpl.
  assert (forall o' : nat, o' ≠ o ->
            tab ntot (fun m' => tab3 (n, m, b) (fun i' j' k => g (mk_index o' m' i' j') k))
            = tab ntot (fun m' => tab3 (n, m, b)
                (fun i' j' k => assign b (mk_index o mi i j, r) g (mk_index o' m' i' j') k)))
    as Hother.
  { intros o' Ho'. apply tab_ext. intros m' _. apply tab3_ext. intros i' j' k _ _ _.
    unfold assign. simpl. rewrite decide_False; [done|]. intros [= ? _ _ _]. done. }
  assert (tab ntot (fun j0 =>
            if decide (j0 = mi)
            then tab3 (n, m, b) (fun i' j' k =>
                   if decide (i' = i /\ j' = j)
                   then default (g (mk_index o mi i' j') k) (row !! k)
                   else g (mk_index o mi i' j') k)
            else tab3 (n, m, b) (fun i' j' k => g (mk_index o j0 i' j') k))
          = tab ntot (fun m' => tab3 (n, m, b)
                (fun i' j' k => assign b (mk_index o mi i j, r) g (mk_index o m' i' j') k)))
    as Hsame.
  { apply tab_ext. intros m' _. destruct (decide (m' = mi)) as [->|Hne].
    - apply tab3_ext. intros i' j' k _ _ _. unfold assign. simpl. rewrite Hrow.
      destruct (decide (i' = i /\ j' = j)) as [[-> ->]|Hne].
      + by rewrite decide_True.
      + rewrite decide_False; [done|]. intros [= -> ->]. by apply Hne.
    - apply tab3_ext. intros i' j' k _ _ _. unfold assign. simpl.
      rewrite decide_False; [done|]. intros [= ? _ _]. done. }
  destruct o as [|[|o]]; [| |lia].
  - rewrite tab_get_at by done. simpl.
    rewrite (tab3_set_row _ _ _ _ _ _ _ row) by done. simpl.
    rewrite tab_set_at by done. simpl.
    f_equal. apply (f_equal2 pair); [exact Hsame|exact (Hother 1%nat ltac:(done))].
  - rewrite tab_get_at by done. simpl.
    rewrite (tab3_set_row _ _ _ _ _ _ _ row) by done. simpl.
    rewrite tab_set_at by done. simpl.
    f_equal. apply (f_equal2 pair); [exact (Hother 0%nat ltac:(done))|exact Hsame].
Qed.

Lemma layers_for_each (sh : nat * nat * nat) (ntot : nat)
    (ri : list (op_index * list F)) (g : op_index -> nat -> F) :
  Forall (valid_result sh ntot) ri ->
  for_each (fun ops (res : op_index * list F) => set_op_field res.1 res.2 ops) ri
           (layers sh ntot g 0, layers sh ntot g 1)
  = Ok (layers sh ntot (foldl (fun g res => assign sh.2 res g) g ri) 0,
        layers sh ntot (foldl (fun g res => assign sh.2 res g) g ri) 1).
Proof.
  destruct sh as [[n m] b]. intros Hv. revert g.
  induction Hv as [|res ri Hres _ IH]; intros g; simpl; [done|].
  rewrite layers_set_op_field by done. simpl. apply IH.
Qed.

Lemma fold_layers (h : F -> F -> F) (sh : nat * nat * nat)
    (g : nat -> nat -> nat -> nat -> F) (l : list nat) (a : nat -> nat -> nat -> F) :
  foldl (zip3_with h) (tab3 sh a) ((fun m => tab3 sh (g m)) <$> l)
  = tab3 sh (fun i j k => foldl h (a i j k) ((fun m => g m i j k) <$> l)).
Proof.
  revert a. induction l as [|m l IH]; intros a; simpl; [done|].
  rewrite tab3_zip3_with. apply IH.
Qed.

Lemma all_modifications_fields (self : model) (pars : list F) (ntot : nat)
    (ri : list (op_index * list F)) :
  _make_result_index self pars = Ok (ntot, ri) ->
  Forall (valid_result (shape3 (cube self)) ntot) ri ->
  _all_modifications self pars
  = Ok (tab3 (shape3 (cube self)) (factor_at (shape3 (cube self)).2 ntot ri),
        tab3 (shape3 (cube self)) (delta_at (shape3 (cube self)).2 ntot ri)).
Proof.
  intros Hri Hv. unfold _all_modifications. rewrite Hri. simpl.
  set (sh := shape3 (cube self)) in *.
  set (g0 := fun (t : op_index) (_ : nat) => identity_of (ix_opcode t)).
  assert (replicate ntot (full3 sh fone) = layers sh ntot g0 0) as ->.
  { unfold layers. by rewrite tab_replicate, tab3_full3. }
  assert (replicate ntot (full3 sh fzero) = layers sh ntot g0 1) as ->.
  { unfold layers. by rewrite tab_replicate, tab3_full3. }
  rewrite layers_for_each by done. simpl.
  unfold product_axis0, sum_axis0, layers, tab.
  rewrite !tab3_full3.
  rewrite (fold_layers fmul sh (fun m i j k => _ (mk_index 0 m i j) k)).
  rewrite (fold_layers fadd sh (fun m i j k => _ (mk_index 1 m i j) k)).
  done.
Qed.

Lemma concat_tab_positions {A} (m b : nat) (y : nat -> nat -> A) :
  concat (tab m (fun j => tab b (fun k => y j k)))
  = (fun p => y p.1 p.2) <$> positions m b.
Proof.
  unfold tab, positions. induction (seq 0 m) as [|j l IH]; csimpl; [done|].
  rewrite IH, fmap_app. f_equal. rewrite <- list_fmap_compose. done.
Qed.

Lemma for_each_channels {A B C} (n : nat) (f : nat -> C) (g : C -> B) (l : list A)
    (s : nat) (acc : list B) :
  (s + length l <= n)%nat ->
  for_each (fun expected (ic : nat * A) =>
              ci ← get_at ic.1 (tab n f); Ok (expected ++ [g ci]))
           (zip (seq s (length l)) l) acc
  = Ok (acc ++ ((fun i => g (f i)) <$> seq s (length l))).
Proof.
  revert s acc. induction l as [|x l IH]; intros s acc Hn; simpl in *.
  - by rewrite app_nil_r.
  - rewrite tab_get_at by lia. simpl. rewrite IH by lia.
    by rewrite <- app_assoc.
Qed.

(** The entries of [expected_actualdata] for well-formed results of the
    combiners. *)
Lemma expected_actualdata_entries (self : model) (pars : list F) (ntot : nat)
    (ri : list (op_index * list F)) :
  rect3 (shape3 (cube self)) (cube self) ->
  length (cube self) = length (m_spec self) ->
  _make_result_index self pars = Ok (ntot, ri) ->
  Forall (valid_result (shape3 (cube self)) ntot) ri ->
  expected_actualdata self pars
  = Ok (channel_yield (cube self) ntot ri <$> seq 0 (length (m_spec self))).
Proof.
  intros Hrect Hlen Hri Hv. unfold expected_actualdata.
  rewrite (all_modifications_fields _ _ _ _ Hri Hv).
  unfold channel_yield, yield_at.
  assert (length (m_spec self) = (shape3 (cube self)).1.1) as Hn by done.
  remember (shape3 (cube self)) as sh eqn:Hsh. destruct sh as [[n m] b].
  simpl in *.
  pose proof (tab3_of_rect fnan _ _ Hrect) as Hc.
  assert (zip3_with fmul (tab3 (n, m, b) (factor_at b ntot ri))
            (zip3_with fadd (tab3 (n, m, b) (delta_at b ntot ri)) (cube self))
          = tab3 (n, m, b) (fun i j k =>
              fmul (factor_at b ntot ri i j k)
                   (fadd (delta_at b ntot ri i j k) (at3 fnan (cube self) i j k))))
    as ->.
  { rewrite <- !tab3_zip3_with. by rewrite <- Hc. }
  unfold enumerate.
  unfold tab3 at 1. simpl.
  rewrite (for_each_channels n _ (fun ci => np_sum (not_nan_entries ci))) by lia.
  simpl. f_equal. apply list_fmap_ext. intros _ i _.
  unfold not_nan_entries. by rewrite concat_tab_positions.
Qed.

(** The cube of [_make_cube] is a rectangular array with one plane per
    channel. *)
Lemma _make_cube_rect (sp : spec F moddata) (c : tensor3 F) (h : histomap) :
  _make_cube sp = Ok (c, h) ->
  exists maxsamp maxbins,
    py_max ((fun c => length (c_samples c)) <$> sp) = Ok maxsamp /\
    py_max (c ← sp; (fun s => length (s_data s)) <$> c_samples c) = Ok maxbins /\
    rect3 (length sp, maxsamp, maxbins) c.
Proof.
  unfold _make_cube.
  destruct (py_max ((fun c0 : channel F moddata => length (c_samples c0)) <$> sp))
    as [maxsamp|]; simpl; [|done].
  destruct (py_max _) as [maxbins|]; simpl; [|done].
  destruct (for_each _ _ _) as [[[c1 hid] h1]|] eqn:Hloop; simpl; [|done].
  intros [= <- <-]. exists maxsamp, maxbins. split; [done|]. split; [done|].
  set (sh := (length sp, maxsamp, maxbins)).
  apply (for_each_inv (fun acc : tensor3 F * nat * histomap => rect3 sh acc.1.1) _ _)
    in Hloop; [done| |].
  - intros [[c0 hid0] h0] [i ch] acc' Hacc _. unfold cube_channel_body. simpl in *.
    apply (for_each_inv (fun acc : tensor3 F * nat * histomap => rect3 sh acc.1.1));
      [|done].
    intros [[c2 hid2] h2] [j s] acc'' Hacc2 _. simpl in *.
    destruct (set_row i j (s_data s) c2) as [c3|] eqn:Hset; simpl; [|done].
    intros [= <-]. simpl. by eapply set_row_rect.
  - simpl. rewrite tab3_full3. apply tab3_rect.
Qed.

(** The inner loop of [_make_cube] from slot [j0] on: every sample of the
    list gets its row, and no other row changes. *)
Lemma cube_samples_loop (i : nat) (cname : string) (l : list (sample F moddata))
    (j0 : nat) (acc acc' : tensor3 F * nat * histomap) :
  for_each (cube_sample_body i cname) (zip (seq j0 (length l)) l) acc = Ok acc' ->
  (forall j s, l !! j = Some s ->
     exists old row,
       row_at acc.1.1 i (j0 + j) = Some old /\
       broadcast_row (length old) (s_data s) = Ok row /\
       row_at acc'.1.1 i (j0 + j) = Some row) /\
  (forall i' j', (i' ≠ i \/ j' < j0 \/ j0 + length l <= j')%nat ->
     row_at acc'.1.1 i' j' = row_at acc.1.1 i' j').
Proof.
  revert j0 acc. induction l as [|s l IH]; intros j0 [[c0 hid] hmap]; simpl.
  - intros [= <-]. split; [by intros ? ? ?|done].
  - destruct (set_row i j0 (s_data s) c0) as [c1|] eqn:Hset; simpl; [|done].
    intros Hrest. apply IH in Hrest as [Hrows Hother]. simpl in *.
    apply set_row_spec in Hset as (old & row & Hold & Hrow & Hnew & Hsame).
    split.
    + intros [|j] s' Hs'; simpl in Hs'.
      * injection Hs' as <-. exists old, row. rewrite Nat.add_0_r.
        split; [done|]. split; [done|]. rewrite Hother by lia. done.
      * destruct (Hrows j s' Hs') as (old' & row' & Hold' & Hrow' & Hnew').
        exists old', row'. replace (j0 + S j)%nat with (S j0 + j)%nat by lia.
        split; [|done]. rewrite <- Hsame by lia. done.
    + intros i' j' Hcond. rewrite Hother by lia. apply Hsame. lia.
Qed.

(** The outer loop of [_make_cube] from channel [i0] on. *)
Lemma cube_channels_loop (l : list (channel F moddata)) (i0 : nat)
    (acc acc' : tensor3 F * nat * histomap) :
  for_each cube_channel_body (zip (seq i0 (length l)) l) acc = Ok acc' ->
  (forall i ch j s, l !! i = Some ch -> c_samples ch !! j = Some s ->
     exists old row,
       row_at acc.1.1 (i0 + i) j = Some old /\
       broadcast_row (length old) (s_data s) = Ok row /\
       row_at acc'.1.1 (i0 + i) j = Some row) /\
  (forall i' j',
     (i' < i0 \/ i0 + length l <= i' \/
      exists ch, l !! (i' - i0) = Some ch /\ length (c_samples ch) <= j')%nat ->
     row_at acc'.1.1 i' j' = row_at acc.1.1 i' j').
Proof.
  revert i0 acc. induction l as [|ch l IH]; intros i0 acc; simpl.
  - intros [= <-]. split; [by intros ? ? ? ? ?|done].
  - destruct (cube_channel_body acc (i0, ch)) as [acc1|] eqn:Hin; simpl; [|done].
    intros Hrest. apply IH in Hrest as [Hrows Hother].
    unfold cube_channel_body, enumerate in Hin. simpl in Hin.
    apply cube_samples_loop in Hin as [Hrows1 Hother1].
    split.
    + intros [|i] ch' j s Hch Hs; simpl in Hch.
      * injection Hch as <-. rewrite Nat.add_0_r.
        destruct (Hrows1 j s Hs) as (old & row & Hold & Hrow & Hnew).
        exists old, row. split; [done|]. split; [done|].
        rewrite Hother by lia. done.
      * destruct (Hrows i ch' j s Hch Hs) as (old & row & Hold & Hrow & Hnew).
        exists old, row. replace (i0 + S i)%nat with (S i0 + i)%nat by lia.
        split; [|done]. rewrite <- Hother1 by lia. done.
    + intros i' j' Hcond.
      destruct (decide (i' = i0)) as [->|Hne].
      * rewrite Hother by lia. apply Hother1.
        destruct Hcond as [?|[?|(ch' & Hch' & Hlen)]]; [lia..|].
        rewrite Nat.sub_diag in Hch'. simpl in Hch'. injection Hch' as <-. lia.
      * rewrite Hother.
        -- apply Hother1. by left.
        -- destruct Hcond as [?|[?|(ch' & Hch' & Hlen)]]; [lia..|].
           destruct (decide (i' < i0)%nat); [lia|].
           right. right. exists ch'. split; [|done].
           replace (i' - i0)%nat with (S (i' - S i0)) in Hch' by lia. done.
Qed.

Lemma full3_row_at {A} (n m b : nat) (x : A) (i j : nat) :
  (i < n)%nat -> (j < m)%nat ->
  row_at (full3 (n, m, b) x) i j = Some (replicate b x).
Proof.
  intros Hi Hj. unfold row_at, full3. simpl.
  rewrite lookup_replicate_2 by done. by rewrite lookup_replicate_2.
Qed.

Lemma py_max_ge (l : list nat) (m x : nat) :
  py_max l = Ok m -> x ∈ l -> (x <= m)%nat.
Proof.
  destruct l as [|y l]; [done|]. intros [= <-].
  assert (forall acc, acc <= foldl Nat.max acc l)%nat as Hacc.
  { induction l as [|z l IH]; intros acc; simpl; [lia|].
    etrans; [|apply IH]. lia. }
  assert (forall acc, x ∈ l -> x <= foldl Nat.max acc l)%nat as Hel.
  { clear Hacc. induction l as [|z l IH]; intros acc Hx; [by apply elem_of_nil in Hx|].
    simpl. apply elem_of_cons in Hx as [->|Hx]; [|by apply IH].
    assert (forall acc', acc' <= foldl Nat.max acc' l)%nat as Hacc'.
    { clear. induction l as [|w l IH]; intros acc'; simpl; [lia|].
      etrans; [|apply IH]. lia. }
    etrans; [|apply Hacc']. lia. }
  intros Hx. apply elem_of_cons in Hx as [->|Hx]; [apply Hacc|by apply Hel].
Qed.

(** What [_make_cube] builds when it returns: an array of shape
    (channels, maximum samples, maximum bins); the row of a declared
    sample holds its data when the sample has the maximum number of bins,
    and its single value in every bin when it has one bin, and these are
    the only two cases; the rows of the slots past the samples of a
    channel hold the not-a-number of the initial array. *)
Lemma _make_cube_rows (sp : spec F moddata) (c : tensor3 F) (h : histomap) :
  _make_cube sp = Ok (c, h) ->
  exists maxsamp maxbins,
    py_max ((fun c => length (c_samples c)) <$> sp) = Ok maxsamp /\
    py_max (c ← sp; (fun s => length (s_data s)) <$> c_samples c) = Ok maxbins /\
    rect3 (length sp, maxsamp, maxbins) c /\
    forall i ch, sp !! i = Some ch ->
      (forall j s, c_samples ch !! j = Some s ->
         (length (s_data s) = maxbins /\ row_at c i j = Some (s_data s)) \/
         (exists x, s_data s = [x] /\ row_at c i j = Some (replicate maxbins x))) /\
      (forall j, (length (c_samples ch) <= j < maxsamp)%nat ->
         row_at c i j = Some (replicate maxbins (fmul fone fnan))).
Proof.
  intros Hmk. destruct (_make_cube_rect _ _ _ Hmk) as (maxsamp & maxbins & Hs & Hb & Hrect).
  exists maxsamp, maxbins. split; [done|]. split; [done|]. split; [done|].
  unfold _make_cube in Hmk. rewrite Hs in Hmk. simpl in Hmk.
  rewrite Hb in Hmk. simpl in Hmk.
  destruct (for_each _ _ _) as [[[c1 hid] h1]|] eqn:Hloop; simpl in Hmk; [|done].
  injection Hmk as <- <-.
  apply (cube_channels_loop sp 0) in Hloop as [Hrows Hother]. simpl in *.
  intros i ch Hch.
  assert (i < length sp)%nat as Hi by (by eapply lookup_lt_Some).
  assert (length (c_samples ch) <= maxsamp)%nat as Hm.
  { eapply py_max_ge; [exact Hs|]. apply list_elem_of_fmap. exists ch.
    split; [done|]. by eapply list_elem_of_lookup_2. }
  split.
  - intros j s Hsj.
    assert (j < maxsamp)%nat as Hj.
    { apply lookup_lt_Some in Hsj. lia. }
    destruct (Hrows i ch j s Hch Hsj) as (old & row & Hold & Hrow & Hnew).
    rewrite full3_row_at in Hold by done. injection Hold as <-.
    rewrite length_replicate in Hrow. unfold broadcast_row in Hrow.
    destruct (Nat.eqb_spec (length (s_data s)) maxbins) as [Heq|Hne].
    + left. injection Hrow as <-. done.
    + right. destruct (s_data s) as [|x [|??]]; try done.
      injection Hrow as <-. by exists x.
  - intros j Hj. rewrite Hother.
    + apply full3_row_at; lia.
    + right. right. exists ch. rewrite Nat.sub_0_r. split; [done|lia].
Qed.

Lemma _make_cube_shape (self : model) :
  _make_cube (m_spec self) = Ok (cube self, hm self) ->
  rect3 (shape3 (cube self)) (cube self) /\ length (cube self) = length (m_spec self).
Proof.
  intros H. apply _make_cube_rect in H as (ms & mb & _ & _ & Hr).
  split; [by eapply rect3_shape3|]. by destruct Hr.
Qed.

(** C1.  For a model whose cube is the one its constructor makes and a
    parameter vector for which the combiners return entries that fit
    [op_fields], [expected_actualdata] returns one entry per channel,
    and the entry of channel [i] is the sum, over the (sample slot, bin)
    positions at which it is a number, of
    factor_field × (delta_field + cube), where factor_field is the
    product over all modifiers of their factor contributions and
    delta_field the sum over all modifiers of their delta contributions
    (1 and 0 where the results have no entry). *)
Theorem expected_actualdata_per_channel (self : model) (pars : list F) (ntot : nat)
    (ri : list (op_index * list F)) :
  _make_cube (m_spec self) = Ok (cube self, hm self) ->
  _make_result_index self pars = Ok (ntot, ri) ->
  Forall (valid_result (shape3 (cube self)) ntot) ri ->
  exists expected,
    expected_actualdata self pars = Ok expected /\
    length expected = length (m_spec self) /\
    forall i, (i < length (m_spec self))%nat ->
      expected !! i = Some (channel_yield (cube self) ntot ri i).
Proof.
  intros Hc Hri Hv. destruct (_make_cube_shape _ Hc) as [Hrect Hlen].
  eexists. split; [by apply expected_actualdata_entries|].
  split; [by rewrite length_fmap, length_seq|].
  intros i Hi. by rewrite list_lookup_fmap, lookup_seq_lt.
Qed.

Lemma contribution_identity (b : nat) (ri : list (op_index * list F))
    (t : op_index) (k : nat) :
  identity_results ri -> contribution b ri t k = identity_of (ix_opcode t).
Proof.
  unfold contribution.
  set (g0 := fun (t : op_index) (_ : nat) => identity_of (ix_opcode t)).
  assert (forall t k, g0 t k = identity_of (ix_opcode t)) as Hg0 by done.
  clearbody g0. intros Hid. revert g0 Hg0.
  induction Hid as [|res ri Hres _ IH]; intros g0 Hg0; simpl; [done|].
  apply IH. intros t' k'. unfold assign.
  destruct (decide (t' = res.1)) as [->|]; [|done].
  destruct (broadcast_row b res.2) as [row|] eqn:Hrow; [|done].
  destruct (row !! k') as [x|] eqn:Hx; simpl; [|done].
  unfold broadcast_row in Hrow. destruct (length res.2 =? b)%nat.
  - injection Hrow as <-. by eapply Forall_lookup_1 in Hres.
  - destruct res.2 as [|y [|??]]; try done. injection Hrow as <-.
    apply lookup_replicate in Hx as [-> _]. by apply Forall_inv in Hres.
Qed.

Lemma foldl_constant {A} (h : A -> A -> A) (e : A) (l : list nat) :
  h e e = e -> foldl h e ((fun _ => e) <$> l) = e.
Proof. intros He. induction l as [|x l IH]; simpl; [done|]. by rewrite He. Qed.

(** C9.  When every factor contribution of the combiners' results is 1
    and every delta contribution is 0, [expected_actualdata] returns for
    each channel the sum of the nominal yields of the cube. *)
Theorem expected_actualdata_identity `{!NumberLaws F} (self : model)
    (pars : list F) (ntot : nat) (ri : list (op_index * list F)) :
  _make_cube (m_spec self) = Ok (cube self, hm self) ->
  _make_result_index self pars = Ok (ntot, ri) ->
  Forall (valid_result (shape3 (cube self)) ntot) ri ->
  identity_results ri ->
  expected_actualdata self pars
  = Ok (nominal_sum (cube self) <$> seq 0 (length (m_spec self))).
Proof.
  intros Hc Hri Hv Hid. destruct (_make_cube_shape _ Hc) as [Hrect Hlen].
  rewrite (expected_actualdata_entries _ _ _ _ Hrect Hlen Hri Hv). f_equal.
  apply list_fmap_ext. intros i0 i Hi. apply lookup_seq in Hi as [-> Hi]. simpl.
  unfold channel_yield, nominal_sum, not_nan_entries. f_equal. f_equal.
  pose proof (f_equal (fun c => default [] (c !! i0)) (tab3_of_rect fnan _ _ Hrect))
    as Hp.
  cbv beta in Hp. unfold tab3 in Hp.
  rewrite tab_lookup in Hp by (unfold shape3; simpl; lia).
  etrans; [|apply (f_equal (@concat F)); symmetry; exact Hp].
  simpl. rewrite concat_tab_positions.
  apply list_fmap_ext. intros _ [j k] _. simpl.
  unfold yield_at, factor_at, delta_at.
  rewrite (list_fmap_ext (fun m => contribution _ ri (mk_index 0 m i0 j) k)
                         (fun _ => fone) (seq 0 ntot))
    by (intros; by apply contribution_identity).
  rewrite (list_fmap_ext (fun m => contribution _ ri (mk_index 1 m i0 j) k)
                         (fun _ => fzero) (seq 0 ntot))
    by (intros; by apply contribution_identity).
  rewrite !foldl_constant by (apply fmul_1_l || apply fadd_0_l).
  by rewrite fadd_0_l, fmul_1_l.
Qed.

Lemma Model_init_parts (sp : spec F moddata) (poiname : string) (q : bool)
    (self : model) :
  Model_init sp poiname q = Ok self ->
  from_spec sp poiname q = Ok (config self, m_spec self) /\
  _make_cube (m_spec self) = Ok (cube self, hm self) /\
  _make_mod_index (m_spec self) = Ok (allmods self).
Proof.
  unfold Model_init.
  destruct (from_spec sp poiname q) as [[cfg sp']|]; simpl; [|done].
  destruct (_make_cube sp') as [[c h]|] eqn:Hc; simpl; [|done].
  destruct (for_each _ _ _) as [stats|]; simpl; [|done].
  destruct (_make_mod_index sp') as [am|] eqn:Hm; simpl; [|done].
  by intros [= <-].
Qed.

Lemma py_slice_to_nat {A} (l : list A) (n : nat) :
  py_slice_to l (Z.of_nat n) = take n l.
Proof.
  unfold py_slice_to. destruct (Z.ltb_spec (Z.of_nat n) 0); [lia|].
  by rewrite Nat2Z.id.
Qed.

Lemma py_slice_from_nat {A} (l : list A) (n : nat) :
  py_slice_from l (Z.of_nat n) = drop n l.
Proof.
  unfold py_slice_from. destruct (Z.ltb_spec (Z.of_nat n) 0); [lia|].
  by rewrite Nat2Z.id.
Qed.

(** C2 (amended).  For a model built by [Model_init] and a data vector
    that is at least as long as the auxiliary data of the configuration,
    [logpdf] splits the data by position at [len(data) - len(auxdata)]:
    the trailing segment has as many entries as the constrained
    modifiers have parameters, the leading segment is what comes before
    it, and it has one entry per channel when the data vector has one
    entry per channel and one per auxiliary datum.  The value is the
    one-element tensor of the summed log of the Poisson density of the
    leading segment given [expected_actualdata] plus [constraint_logpdf]
    of the trailing segment. *)
Theorem logpdf_layout `{!NumberLaws F} `{!ModifierContract F moddata mstate}
    (sp : spec F moddata) (poiname : string) (q : bool) (self : model)
    (pars data : list F) :
  Model_init sp poiname q = Ok self ->
  (length (auxdata (config self)) <= length data)%nat ->
  let cut := (length data - length (auxdata (config self)))%nat in
  let actual := take cut data in
  let aux := drop cut data in
  logpdf_split self data = (actual, aux) /\
  length aux = constrained_count (config self) /\
  (length data = (length (m_spec self) + length (auxdata (config self)))%nat ->
   length actual = length (m_spec self)) /\
  logpdf self pars data =
    (lambdas ← expected_actualdata self pars;
     c ← constraint_logpdf self aux pars;
     Ok [fadd (tsum (tlog (poisson actual lambdas))) c]).
Proof.
  intros Hinit Hlen cut actual aux.
  destruct (Model_init_parts _ _ _ _ Hinit) as (Hspec & _ & _).
  pose proof (from_spec_inv _ _ _ _ _ Hspec) as Hinv.
  assert (logpdf_split self data = (actual, aux)) as Hsplit.
  { unfold logpdf_split.
    replace (Z.of_nat (length data) - Z.of_nat (length (auxdata (config self))))%Z
      with (Z.of_nat cut) by (unfold cut; lia).
    by rewrite py_slice_to_nat, py_slice_from_nat. }
  split; [done|]. split; [|split].
  - unfold aux, cut. rewrite length_drop, <- (inv_aux _ Hinv). lia.
  - intros Hd. unfold actual, cut. rewrite length_take. lia.
  - unfold logpdf. rewrite Hsplit.
    destruct (expected_actualdata self pars) as [lambdas|]; simpl; [|done].
    destruct (constraint_logpdf self aux pars) as [c|]; simpl; [|done].
    by rewrite fmul_1_r.
Qed.
End ModelTheory.

#[global] Instance ex_number_laws : NumberLaws Qn.
Proof.
  split; intros [[n d]|]; try done; simpl; f_equal; unfold Qmult, Qplus; simpl.
  - by destruct n.
  - by rewrite Z.mul_1_r, Pos.mul_1_r.
  - by rewrite Z.mul_1_r.
Qed.

Lemma expected_actualdata_per_channel_witness :
  exists expected,
    expected_actualdata ex_model [qn 2; qn 1; qn 1] = Ok expected /\
    length expected = 1%nat /\
    forall i, (i < 1)%nat ->
      expected !! i = Some (channel_yield (cube ex_model) 2 (ex_results 2) i).
Proof.
  apply (expected_actualdata_per_channel ex_model [qn 2; qn 1; qn 1] 2 (ex_results 2)).
  - vm_compute. reflexivity.
  - vm_compute. reflexivity.
  - change (shape3 (cube ex_model)) with (1, 2, 2)%nat.
    repeat constructor; simpl; try lia; by eexists.
Defined.

Lemma expected_actualdata_identity_witness :
  expected_actualdata ex_model [qn 1; qn 1; qn 1] = Ok [qn 125].
Proof.
  rewrite (expected_actualdata_identity ex_model [qn 1; qn 1; qn 1] 2 (ex_results 1)).
  - vm_compute. reflexivity.
  - vm_compute. reflexivity.
  - vm_compute. reflexivity.
  - change (shape3 (cube ex_model)) with (1, 2, 2)%nat.
    repeat constructor; simpl; try lia; by eexists.
  - repeat constructor.
Defined.

(** C8.  When [_make_cube] returns, the row of every declared sample
    holds either its data, and then the sample has the maximum number of
    bins, or its single value repeated over all bins: no row is ever the
    data of a shorter sample followed by not-a-number padding.  At
    specifications whose second sample has fewer bins than the first:
    with two bins against three, the assignment of the row raises and no
    cube is built; with one bin against three, the value is repeated, the
    cube has no padding, and the channel sums to 18, not to
    1 + 2 + 3 + 4. *)
Theorem make_cube_fewer_bins :
  (forall (F moddata : Type) (N : Number F) (sp : spec F moddata) c h maxbins,
     _make_cube sp = Ok (c, h) ->
     py_max (c ← sp; (fun s => length (s_data s)) <$> c_samples c) = Ok maxbins ->
     forall i ch j s, sp !! i = Some ch -> c_samples ch !! j = Some s ->
       (length (s_data s) = maxbins /\ row_at c i j = Some (s_data s)) \/
       (exists x, s_data s = [x] /\ row_at c i j = Some (replicate maxbins x))) /\
  _make_cube ex_spec_ragged = Raise ValueError /\
  (exists h, _make_cube ex_spec_onebin
             = Ok ([[[qn 1; qn 2; qn 3]; [qn 4; qn 4; qn 4]]], h)) /\
  expected_actualdata ex_model_onebin [qn 1] = Ok [qn 18].
Proof.
  split.
  { intros F moddata N sp c h maxbins Hmk Hb i ch j s Hch Hs.
    destruct (_make_cube_rows sp c h Hmk) as (ms & mb & _ & Hb' & _ & Hrows).
    rewrite Hb in Hb'. injection Hb' as <-.
    by apply (Hrows i ch Hch). }
  split; [vm_compute; reflexivity|]. split; [|vm_compute; reflexivity].
  eexists. vm_compute. reflexivity.
Qed.

Lemma make_cube_fewer_bins_witness :
  exists c h,
    _make_cube ex_spec_two_channels = Ok (c, h) /\
    row_at c 1 0 = Some [qn 7; qn 9] /\
    row_at c 1 1 = Some [fnan; fnan].
Proof.
  destruct (_make_cube ex_spec_two_channels) as [[c h]|] eqn:E;
    [|vm_compute in E; discriminate].
  exists c, h. split; [done|].
  destruct make_cube_fewer_bins as [Hrows _].
  destruct (Hrows Qn unit _ ex_spec_two_channels c h 2%nat E eq_refl 1%nat
              {| c_name := "second";
                 c_samples := [ex_sample "control" [7; 9]%Z []] |}
              0%nat (ex_sample "control" [7; 9]%Z []) eq_refl eq_refl)
    as [[_ Hrow]|(x & Hx & _)]; [|done].
  split; [exact Hrow|]. vm_compute in E. injection E as <- _. reflexivity.
Defined.

Lemma logpdf_layout_witness :
  logpdf_split ex_model [qn 51; qn 50; qn 52] = ([qn 51], [qn 50; qn 52]) /\
  logpdf ex_model [qn 2; qn 1; qn 1] [qn 51; qn 50; qn 52] = Ok [qn 7650].
Proof.
  destruct (logpdf_layout ex_spec "mu" false ex_model [qn 2; qn 1; qn 1]
              [qn 51; qn 50; qn 52]) as (Hs & _ & _ & Hl);
    [by vm_compute|vm_compute; lia|].
  split; [exact Hs|]. rewrite Hl. by vm_compute.
Defined.

(** C2, as it is stated, fails at the data of the repository's tests: a
    model with one channel of two bins and the data [[51, 48]] followed
    by the auxiliary data of the configuration.  The leading segment is
    [[51, 48]]: two entries for one channel. *)
Lemma logpdf_split_counterexample :
  length (m_spec ex_model) = 1%nat /\
  auxdata (config ex_model) = [qn 50; qn 52] /\
  logpdf_split ex_model ([qn 51; qn 48] ++ auxdata (config ex_model))
  = ([qn 51; qn 48], [qn 50; qn 52]) /\
  length (logpdf_split ex_model ([qn 51; qn 48] ++ auxdata (config ex_model))).1
  ≠ length (m_spec ex_model).
Proof.
  split; [by vm_compute|]. split; [by vm_compute|]. split; [by vm_compute|].
  by vm_compute.
Qed.

(** ** The Newton loop *)







Lemma nuisance_filter {A} (t s : nat) (l : list A) :
  (filter (fun ip : nat * A => not_poi (Some t) ip.1 = true)
          (zip (seq s (length l)) l)).*2
  = if decide (t < s)%nat then l else delete (t - s)%nat l.
Proof.
  revert s. induction l as [|x l IH]; intros s; simpl.
  - by destruct (decide _).
  - destruct (decide (s = t)) as [->|Hne].
    + rewrite filter_cons_False by (simpl; rewrite Nat.eqb_refl; done).
      rewrite IH. rewrite decide_True by lia. rewrite decide_False by lia.
      by rewrite Nat.sub_diag.
    + rewrite filter_cons_True
        by (simpl; destruct (Nat.eqb_spec s t); [lia|done]).
      csimpl. rewrite IH. destruct (decide (t < s)%nat).
      * by rewrite decide_True by lia.
      * rewrite decide_False by lia.
        replace (t - s)%nat with (S (t - S s)) by lia. done.
Qed.

Lemma nuisance_of_delete {A} (poi : nat) (l : list A) :
  nuisance_of (Some poi) l = delete poi l.
Proof.
  unfold nuisance_of, enumerate. rewrite nuisance_filter.
  rewrite decide_False by lia. by rewrite Nat.sub_0_r.
Qed.

Lemma py_insert_lookup {A} (i : nat) (x : A) (l : list A) :
  (i <= length l)%nat -> py_insert i x l !! i = Some x.
Proof.
  intros Hi. unfold py_insert. apply list_lookup_middle.
  by rewrite length_take_le.
Qed.



Section OptimizerTheory.
Context `{!TensorFlow}.










Lemma update_length `{!TensorFlowShapes} (graph : list Q -> Q) (x up : list Q) :
  update graph x = Some up -> length up = length x.
Proof.
  unfold update. destruct (tf_linalg_inv _) as [invhess|] eqn:Hinv; simpl; [|done].
  intros [= <-]. unfold matvec. rewrite length_fmap.
  rewrite (tf_linalg_inv_length _ _ Hinv). unfold hessian, add_scalar.
  by rewrite length_fmap, tf_hessians_length.
Qed.




(** C10.  The vector that [constrained_bestfit] gives to the objective
    is the fixed value followed by the whole vector of nuisance
    parameters, whatever [poi_index] is: the fit is the loop on the
    objective of that vector, and [poi_index] is used only to choose
    the nuisance parameters of [init_pars] and to place the fixed value
    in the list that is returned. *)
Theorem constrained_pars_poi_first {D M : Type}
    (objective : list Q -> D -> M -> Q) (mu : Q) (data : D) (pdf : M)
    (poi : nat) (init_pars : list Q) :
  (forall nuis_cat, constrained_pars mu nuis_cat = mu :: nuis_cat) /\
  constrained_bestfit_passes objective mu data pdf (Some poi) init_pars =
    ('(st, passes) ← newton_loop (fun nuis_cat => objective (mu :: nuis_cat) data pdf)
                                  (fun _ => Ok tt) max_iterations
                                  (delete poi init_pars, false) 0;
     best_fit ← tolist st;
     Ok (take poi best_fit ++ mu :: drop poi best_fit, passes)) /\
  (forall best_fit, (poi <= length best_fit)%nat ->
     (take poi best_fit ++ mu :: drop poi best_fit) !! poi = Some mu).
Proof.
  split; [done|]. split.
  - unfold constrained_bestfit_passes. by rewrite nuisance_of_delete.
  - intros best_fit Hle. by apply py_insert_lookup.
Qed.
End OptimizerTheory.

#[global] Instance ex_tf_shapes : TensorFlowShapes.
Proof.
  split.
  - intros f x. simpl. unfold ex_gradients. by rewrite length_fmap, length_seq.
  - intros f x. simpl. unfold ex_hessians. by rewrite length_fmap, length_seq.
  - intros h h'. simpl. unfold ex_inv.
    destruct h as [|[|a [|b [|??]]] [|[|c [|d [|??]]] [|??]]]; try done.
    + destruct (Qeq_bool a 0); [done|]. by intros [= <-].
    + destruct (Qeq_bool _ 0); [done|]. by intros [= <-].
Qed.




Lemma constrained_pars_poi_first_witness :
  constrained_pars 1%Q [3; 4]%Q = [1; 3; 4]%Q /\
  (take 1 [3; 4]%Q ++ 1%Q :: drop 1 [3; 4]%Q) !! 1%nat = Some 1%Q.
Proof.
  destruct (constrained_pars_poi_first ex_objective 1%Q [1; 5; 0]%Q tt 1 [3; 1; 4]%Q)
    as (Hp & _ & Hi).
  split; [apply Hp|]. apply Hi. simpl. lia.
Defined.

(** ** Further properties of the model *)

Lemma for_each_append_length {A B C} (h : A -> result C) (g : C -> B) (l : list A)
    (acc r : list B) :
  for_each (fun expected x => ci ← h x; Ok (expected ++ [g ci])) l acc = Ok r ->
  length r = (length acc + length l)%nat.
Proof.
  revert acc. induction l as [|x l IH]; intros acc; simpl.
  - intros [= <-]. lia.
  - destruct (h x) as [ci|]; simpl; [|done]. intros Hr. apply IH in Hr.
    rewrite length_app in Hr. simpl in Hr. lia.
Qed.

Section ModelExtras.
Context {F moddata mstate : Type}.
Context `{!Modifiers F moddata mstate} `{!Number F} `{!Backend F}.
Context `{!Combiners F moddata mstate}.

Local Abbreviation model := (Model F moddata mstate).

Lemma expected_actualdata_length (self : model) (pars l : list F) :
  expected_actualdata self pars = Ok l -> length l = length (m_spec self).
Proof.
  unfold expected_actualdata.
  destruct (_all_modifications self pars) as [[ff df]|]; simpl; [|done].
  intros Hl. apply for_each_append_length in Hl.
  unfold enumerate in Hl. rewrite length_zip_with_r_eq in Hl; [done|].
  by rewrite length_seq.
Qed.

(** X1.  Whenever [expected_data] returns: without the auxiliary data it
    has one entry per channel; with them it is the entries of
    [expected_actualdata], one per channel, followed by what
    [expected_auxdata] returns; and for a configuration without
    constrained modifiers both calls give the same. *)
Theorem expected_data_layout (self : model) (pars : list F) :
  (forall l, expected_data self pars false = Ok l ->
     length l = length (m_spec self)) /\
  (forall l, expected_data self pars true = Ok l ->
     exists actual aux,
       expected_actualdata self pars = Ok actual /\
       expected_auxdata self pars = Ok aux /\
       length actual = length (m_spec self) /\
       l = actual ++ default [] aux) /\
  (auxdata_order (config self) = [] ->
   expected_data self pars true = expected_data self pars false).
Proof.
  unfold expected_data. split; [|split].
  - intros l. destruct (expected_actualdata self pars) as [a|] eqn:Ha; simpl; [|done].
    intros [= <-]. by eapply expected_actualdata_length.
  - intros l. destruct (expected_actualdata self pars) as [a|] eqn:Ha; simpl; [|done].
    destruct (expected_auxdata self pars) as [aux|] eqn:Hx; simpl; [|done].
    intros [= <-]. exists a, aux. repeat split; try done.
    by eapply expected_actualdata_length.
  - intros Hno. destruct (expected_actualdata self pars) as [a|]; simpl; [|done].
    unfold expected_auxdata. rewrite Hno. simpl. by rewrite app_nil_r.
Qed.

(** X2.  [_make_cube] raises [ValueError] for a specification without
    samples: for no channel at all the maximum of the sample counts is
    taken of nothing, and for channels that are all empty the maximum of
    the bin counts is. *)
Theorem _make_cube_no_samples (sp : spec F moddata) :
  Forall (fun c => c_samples c = []) sp -> _make_cube sp = Raise ValueError.
Proof.
  intros Hall. unfold _make_cube.
  destruct sp as [|c sp]; [done|].
  assert ((c :: sp) ≫= (fun c0 : channel F moddata =>
             (fun s : sample F moddata => length (s_data s)) <$> c_samples c0) = [])
    as Hnil.
  { induction Hall as [|c' sp' Hc _ IH]; [done|]. csimpl. by rewrite Hc, IH. }
  rewrite Hnil. done.
Qed.
End ModelExtras.

Lemma expected_data_layout_witness :
  expected_data ex_model [qn 2; qn 1; qn 1] false = Ok [qn 148] /\
  expected_data ex_model [qn 2; qn 1; qn 1] true = Ok [qn 148; qn 1; qn 1].
Proof.
  destruct (expected_data_layout ex_model [qn 2; qn 1; qn 1]) as (Hf & Ht & _).
  split; [vm_compute; reflexivity|].
  destruct (expected_data ex_model [qn 2; qn 1; qn 1] true) as [l|] eqn:E;
    [|vm_compute in E; discriminate].
  destruct (Ht l eq_refl) as (actual & aux & Ha & Hx & _ & ->).
  vm_compute in Ha. injection Ha as <-.
  vm_compute in Hx. injection Hx as <-. reflexivity.
Defined.

Lemma _make_cube_no_samples_witness :
  _make_cube ([ {| c_name := "empty"; c_samples := [] |} ] : spec Qn unit)
  = Raise ValueError.
Proof.
  apply _make_cube_no_samples. by repeat constructor.
Defined.

(** ** Further properties of the configuration *)

Section ModelConfigExtras.
Context {F moddata mstate : Type} `{!Modifiers F moddata mstate}.

Local Abbreviation config := (_ModelConfig F mstate).

(** A property of the build state that every pass through the innermost
    loop keeps holds when the loops of [from_spec] are done. *)
Lemma from_spec_loops_ind (P : build_state -> Prop) (sp sp' : spec F moddata)
    (poiname : string) (q : bool) (st : build_state) :
  (forall cname sname sdata st0 defs bt d st1 defs1 bt1,
     P st0 ->
     modifier_body q cname sname sdata (st0, defs, bt) d = Ok (st1, defs1, bt1) ->
     P st1) ->
  P {| bs_instance := __init__; bs_poiname := poiname; bs_modifiers := [] |} ->
  from_spec_loops sp poiname q = Ok (st, sp') -> P st.
Proof.
  intros Hbody Hinit Hrun. unfold from_spec_loops in Hrun.
  apply (for_each_inv (fun a : build_state * spec F moddata => P a.1) _ _)
    in Hrun; [done| |done].
  intros [st0 done0] c [st1 done1] Hst _. unfold channel_body. simpl in *.
  destruct (for_each (sample_body q (c_name c)) (c_samples c) (st0, []))
    as [[st2 ss]|] eqn:Hs; simpl; [|done].
  intros [= <- <-].
  apply (for_each_inv (fun a : build_state * list (sample F moddata) => P a.1) _ _)
    in Hs; [done| |done].
  intros [st3 done3] s [st4 done4] Hst3 _. unfold sample_body. simpl in *.
  destruct (for_each (modifier_body q (c_name c) (s_name s) (s_data s))
              (s_modifiers s) (st3, [], ∅)) as [[[st5 defs] bt]|] eqn:Hm;
    simpl; [|done].
  intros [= <- <-].
  apply (for_each_inv
           (fun a : build_state * list (modifier_def moddata)
                    * gmap string (list string) => P a.1.1) _ _)
    in Hm; [done| |done].
  intros [[st6 defs6] bt6] d [[st7 defs7] bt7] Hst6 _ Hb. simpl in *.
  by eapply Hbody.
Qed.

Lemma modifier_body_names (q : bool) (cname sname : string) (sdata : list F)
    st0 defs bt d st1 defs1 bt1 :
  names_inv (bs_instance st0) (bs_modifiers st0) ->
  modifier_body q cname sname sdata (st0, defs, bt) d = Ok (st1, defs1, bt1) ->
  names_inv (bs_instance st1) (bs_modifiers st1).
Proof.
  intros [Hom Hcol]. unfold modifier_body.
  destruct (add_or_get_modifier _ _ _) as [[ref inst]|] eqn:Hadd; simpl; [|done].
  intros [= <- _ _]. simpl.
  unfold add_or_get_modifier in Hadd.
  destruct (registry !! md_type (qualified q d)) as [cls|]; [|done].
  destruct (if is_shared cls then par_map (bs_instance st0) !! md_name (qualified q d)
            else None) as [e|] eqn:He.
  - destruct (heap (bs_instance st0) !! modifier_ref e); [|done].
    case_bool_decide; [|done]. injection Hadd as <- <-.
    assert (is_Some (par_map (bs_instance st0) !! md_name (qualified q d))) as Hin.
    { destruct (is_shared cls); [by eexists|done]. }
    split; simpl; [done|].
    intros name. rewrite elem_of_app, list_elem_of_singleton, Hcol.
    split; [|by left]. intros [?| ->]; [done|]. by apply Hom.
  - injection Hadd as <- <-. split; simpl.
    + intros name. rewrite elem_of_app, list_elem_of_singleton, Hom.
      rewrite lookup_insert. case_decide as Hn.
      * subst. split; [by eexists|by right].
      * split; [intros [?|?]; [done|congruence]|by left].
    + intros name. rewrite !elem_of_app, !list_elem_of_singleton, Hcol. done.
Qed.

Lemma from_spec_loops_names_inv (sp sp' : spec F moddata) (poiname : string)
    (q : bool) (st : build_state) :
  from_spec_loops sp poiname q = Ok (st, sp') ->
  names_inv (bs_instance st) (bs_modifiers st).
Proof.
  apply (from_spec_loops_ind (fun st => names_inv (bs_instance st) (bs_modifiers st))).
  - intros. by eapply modifier_body_names.
  - split; simpl; [|done]. intros name. rewrite lookup_empty.
    split; [by intros ?%elem_of_nil|by intros [? ?]].
Qed.

Lemma modifier_loop_registered (q : bool) (cname sname : string) (sdata : list F)
    (l : list (modifier_def moddata)) acc acc' :
  for_each (modifier_body q cname sname sdata) l acc = Ok acc' ->
  Forall (fun d => is_Some (registry !! md_type d)) l.
Proof.
  revert acc. induction l as [|d l IH]; intros acc; simpl; [by constructor|].
  destruct (modifier_body q cname sname sdata acc d) as [acc1|] eqn:Hb; simpl; [|done].
  intros Hrest. constructor; [|by eapply IH].
  destruct acc as [[st defs] bt]. unfold modifier_body in Hb.
  destruct (add_or_get_modifier _ _ _) as [[ref inst]|] eqn:Hadd; simpl in Hb; [|done].
  unfold add_or_get_modifier in Hadd.
  assert (md_type (qualified q d) = md_type d) as Ht by (by destruct q).
  rewrite Ht in Hadd. by destruct (registry !! md_type d).
Qed.

Lemma sample_loop_registered (q : bool) (cname : string) (l : list (sample F moddata))
    acc acc' :
  for_each (sample_body q cname) l acc = Ok acc' ->
  Forall (fun d => is_Some (registry !! md_type d)) (s ← l; s_modifiers s).
Proof.
  revert acc. induction l as [|s l IH]; intros acc; simpl; [by constructor|].
  destruct (sample_body q cname acc s) as [acc1|] eqn:Hb; simpl; [|done].
  intros Hrest. apply Forall_app. split; [|by eapply IH].
  destruct acc as [st done0]. unfold sample_body in Hb.
  destruct (for_each (modifier_body q cname (s_name s) (s_data s))
              (s_modifiers s) (st, [], ∅)) as [acc2|] eqn:Hm; simpl in Hb; [|done].
  by eapply modifier_loop_registered.
Qed.

Lemma channel_loop_registered (q : bool) (l : list (channel F moddata)) acc acc' :
  for_each (channel_body q) l acc = Ok acc' ->
  Forall (fun d => is_Some (registry !! md_type d)) (all_modifier_defs l).
Proof.
  unfold all_modifier_defs.
  revert acc. induction l as [|c l IH]; intros acc; simpl; [by constructor|].
  destruct (channel_body q acc c) as [acc1|] eqn:Hb; simpl; [|done].
  intros Hrest. apply Forall_app. split; [|by eapply IH].
  destruct acc as [st0 done0]. unfold channel_body in Hb.
  destruct (for_each (sample_body q (c_name c)) (c_samples c) (st0, []))
    as [acc2|] eqn:Hs; simpl in Hb; [|done].
  by eapply sample_loop_registered.
Qed.

Lemma from_spec_loops_registered (sp sp' : spec F moddata) (poiname : string)
    (q : bool) (st : build_state) :
  from_spec_loops sp poiname q = Ok (st, sp') ->
  Forall (fun d => is_Some (registry !! md_type d)) (all_modifier_defs sp).
Proof. unfold from_spec_loops. apply channel_loop_registered. Qed.

(** X3.  When [from_spec] returns, every modifier definition of the
    specification has a registered type, the names in [par_map] are
    exactly the declared names (qualified when asked for), which are the
    names in [modifiers] and those of [par_order], and [par_slice] finds
    every one of them. *)
Theorem from_spec_names (sp sp' : spec F moddata) (poiname : string) (q : bool)
    (cfg : config) :
  from_spec sp poiname q = Ok (cfg, sp') ->
  Forall (fun d => is_Some (registry !! md_type d)) (all_modifier_defs sp) /\
  modifiers cfg = list_to_set (declared_names q sp) /\
  dom (par_map cfg) = modifiers cfg /\
  (forall name, name ∈ par_order cfg <-> name ∈ modifiers cfg) /\
  (forall name, name ∈ declared_names q sp -> is_Ok (par_slice cfg name)).
Proof.
  unfold from_spec.
  destruct (from_spec_loops sp poiname q) as [[st sp1]|] eqn:Hl; simpl; [|done].
  destruct (set_poi _ _) as [c|] eqn:Hp; simpl; [|done].
  intros [= <- <-].
  pose proof (from_spec_loops_registered _ _ _ _ _ Hl) as Hreg.
  destruct (from_spec_loops_names _ _ _ _ _ Hl) as [Hnames _].
  destruct (from_spec_loops_names_inv _ _ _ _ _ Hl) as [Hom Hcol].
  assert (modifiers c = list_to_set (bs_modifiers st)) as Hmods.
  { unfold set_poi in Hp. case_bool_decide; [|done].
    destruct (par_slice _ _); simpl in Hp; [|done].
    destruct (_ =? _)%nat; [|done]. by injection Hp as <-. }
  apply set_poi_fields in Hp as (Hpo & _ & _ & Hpm & _). simpl in *.
  rewrite Hmods, Hpm, Hpo, <- Hnames.
  split; [done|]. split; [done|]. split; [|split].
  - apply set_eq. intros name.
    rewrite elem_of_dom, elem_of_list_to_set, Hcol. symmetry. apply Hom.
  - intros name. by rewrite elem_of_list_to_set, Hcol.
  - intros name Hin. apply Hcol, Hom in Hin as [e He].
    unfold par_slice. rewrite Hpm, He. by eexists.
Qed.
End ModelConfigExtras.

Lemma from_spec_names_witness :
  modifiers ex_config = list_to_set ["mu"; "uncorr_bkguncrt"]%string /\
  is_Ok (par_slice ex_config "uncorr_bkguncrt").
Proof.
  assert (exists sp', from_spec ex_spec "mu" false = Ok (ex_config, sp')) as [sp' H].
  { eexists. vm_compute. reflexivity. }
  destruct (from_spec_names ex_spec sp' "mu" false ex_config H) as (_ & Hm & _ & _ & Hs).
  split; [exact Hm|]. apply Hs. apply (bool_decide_unpack _). vm_compute. exact I.
Defined.

Lemma concat_slice {B} (ls : list (list B)) (k : nat) (x : list B) :
  ls !! k = Some x ->
  take (length x) (drop (sum_list (take k (length <$> ls))) (concat ls)) = x.
Proof.
  revert k. induction ls as [|y ls IH]; intros [|k] Hk; simpl in *; try done.
  - injection Hk as ->. rewrite drop_0. by rewrite take_app_length.
  - rewrite drop_app_add. by apply IH.
Qed.

Lemma constrained_filter_alter {F mstate} (po : list string)
    (h : list (modifier F mstate)) (f : modifier F mstate -> modifier F mstate)
    (i : nat) :
  (forall m, is_constrained (f m) = is_constrained m) ->
  (filter (fun p : string * modifier F mstate => is_constrained p.2 = true)
          (zip po (alter f i h))).*1
  = (filter (fun p : string * modifier F mstate => is_constrained p.2 = true)
            (zip po h)).*1.
Proof.
  intros Hf. revert h i. induction po as [|n po IH]; intros [|m h] [|i]; simpl; try done.
  - rewrite !filter_cons. simpl. rewrite Hf. by destruct (decide _).
  - rewrite !filter_cons. simpl. change (list_alter f i h) with (alter f i h).
    destruct (decide _); csimpl; by rewrite IH.
Qed.

Section ModelConfigExtras2.
Context {F moddata mstate : Type} `{!Modifiers F moddata mstate}.

Local Abbreviation config := (_ModelConfig F mstate).

Lemma add_or_get_modifier_cases (self self' : config) (sdata : list F)
    (d : modifier_def moddata) (ref : nat) :
  add_or_get_modifier self sdata d = Ok (ref, self') ->
  (self' = self /\ is_Some (par_map self !! md_name d)) \/
  (exists cls, registry !! md_type d = Some cls /\
     self' = register_modifier self (md_name d) (new cls sdata (md_data d)) /\
     (is_shared cls = true -> par_map self !! md_name d = None)).
Proof.
  unfold add_or_get_modifier.
  destruct (registry !! md_type d) as [cls|] eqn:Hreg; [|done].
  destruct (is_shared cls) eqn:Hsh.
  - destruct (par_map self !! md_name d) as [e|] eqn:He.
    + destruct (heap self !! modifier_ref e); [|done].
      case_bool_decide; [|done]. intros [= <- <-]. left. split; [done|by eexists].
    + intros [= <- <-]. right. exists cls. by rewrite Hsh.
  - intros [= <- <-]. right. exists cls. by rewrite Hsh.
Qed.

Lemma from_spec_loops_bounded (sp sp' : spec F moddata) (poiname : string) (q : bool)
    (st : build_state) :
  from_spec_loops sp poiname q = Ok (st, sp') -> slices_bounded (bs_instance st).
Proof.
  apply (from_spec_loops_ind (fun st => slices_bounded (bs_instance st))).
  - intros cname sname sdata st0 defs bt d st1 defs1 bt1 Hb. unfold modifier_body.
    destruct (add_or_get_modifier _ _ _) as [[ref inst]|] eqn:Hadd; simpl; [|done].
    intros [= <- _ _]. simpl.
    apply add_or_get_modifier_cases in Hadd as [[-> _]|(cls & _ & -> & _)]; [done|].
    intros name e. unfold heap_add_sample, register_modifier. simpl.
    rewrite lookup_insert. case_decide.
    + intros [= <-]. simpl. lia.
    + intros He. apply Hb in He. lia.
  - intros name e. simpl. by rewrite lookup_empty.
Qed.

(** X4.  When [from_spec] returns, [poi_index] is set: it is the start
    of the slice of the parameter of interest, whose width is 1, and it
    lies inside the parameter vector.  Without [qualify_names] the name
    of the parameter of interest is the one given. *)
Theorem from_spec_poi_index (sp sp' : spec F moddata) (poiname : string) (q : bool)
    (cfg : config) :
  from_spec sp poiname q = Ok (cfg, sp') ->
  exists name e i,
    (q = false -> name = poiname) /\
    name ∈ modifiers cfg /\
    par_map cfg !! name = Some e /\
    slice e = (i, S i) /\
    poi_index cfg = Some i /\
    (i < next_index cfg)%nat.
Proof.
  unfold from_spec.
  destruct (from_spec_loops sp poiname q) as [[st sp1]|] eqn:Hl; simpl; [|done].
  destruct (set_poi _ _) as [c|] eqn:Hp; simpl; [|done].
  intros [= <- <-].
  pose proof (from_spec_loops_bounded _ _ _ _ _ Hl) as Hb.
  destruct (from_spec_loops_names _ _ _ _ _ Hl) as [_ Hpoi].
  unfold set_poi, par_slice in Hp. simpl in Hp.
  case_bool_decide as Hin; [|done].
  destruct (par_map (bs_instance st) !! bs_poiname st) as [e|] eqn:He;
    simpl in Hp; [|done].
  destruct (Nat.eqb_spec ((slice e).2 - (slice e).1) 1) as [Hw|]; [|done].
  injection Hp as <-. simpl.
  destruct (Hb _ _ He) as [H1 H2].
  exists (bs_poiname st), e, (slice e).1.
  split; [done|]. split; [done|]. split; [done|].
  split; [|split; [done|lia]].
  destruct (slice e) as [a b]. simpl in *. f_equal. lia.
Qed.

Lemma from_spec_loops_nodup (sp sp' : spec F moddata) (poiname : string) (q : bool)
    (st : build_state) :
  all_shared -> from_spec_loops sp poiname q = Ok (st, sp') ->
  NoDup (par_order (bs_instance st)).
Proof.
  intros Hshared Hl.
  enough (NoDup (par_order (bs_instance st)) /\
          names_inv (bs_instance st) (bs_modifiers st)) as [? _] by done.
  revert Hl.
  apply (from_spec_loops_ind
           (fun st => NoDup (par_order (bs_instance st)) /\
                      names_inv (bs_instance st) (bs_modifiers st))).
  - intros cname sname sdata st0 defs bt d st1 defs1 bt1 [Hnd Hn] Hbody.
    split; [|by eapply modifier_body_names].
    unfold modifier_body in Hbody.
    destruct (add_or_get_modifier _ _ _) as [[ref inst]|] eqn:Hadd;
      simpl in Hbody; [|done].
    injection Hbody as <- _ _. simpl.
    apply add_or_get_modifier_cases in Hadd as [[-> _]|(cls & Hreg & -> & Hnone)];
      [done|].
    simpl. apply NoDup_app. split; [done|]. split; [|apply NoDup_singleton].
    intros name Hin ->%list_elem_of_singleton.
    apply (names_order_map _ _ Hn) in Hin as [e He].
    rewrite Hnone in He; [done|]. by eapply Hshared.
  - split; [apply NoDup_nil_2|]. split; simpl; [|done]. intros name.
    rewrite lookup_empty. split; [by intros ?%elem_of_nil|by intros [? ?]].
Qed.

(** X5.  When every class of the registry is shared, [from_spec]
    allocates every name once: [par_order] has no duplicate, and
    [suggested_init] and [suggested_bounds] have exactly one entry per
    parameter. *)
Theorem from_spec_all_shared `{!ModifierContract F moddata mstate}
    (sp sp' : spec F moddata) (poiname : string) (q : bool) (cfg : config) :
  all_shared -> from_spec sp poiname q = Ok (cfg, sp') ->
  NoDup (par_order cfg) /\
  exists init bounds,
    suggested_init cfg = Ok init /\ suggested_bounds cfg = Ok bounds /\
    length init = next_index cfg /\ length bounds = next_index cfg.
Proof.
  intros Hshared Hrun. pose proof (from_spec_inv _ _ _ _ _ Hrun) as Hinv.
  assert (NoDup (par_order cfg)) as Hnd.
  { unfold from_spec in Hrun.
    destruct (from_spec_loops sp poiname q) as [[st sp1]|] eqn:Hl; simpl in Hrun; [|done].
    destruct (set_poi _ _) as [c|] eqn:Hp; simpl in Hrun; [|done].
    injection Hrun as <- <-.
    apply set_poi_fields in Hp as (-> & _). simpl.
    by eapply from_spec_loops_nodup. }
  split; [done|]. by apply suggested_lengths.
Qed.

(** X6.  When no name was allocated twice, the slice of every name cuts
    out of [suggested_init] and of [suggested_bounds] the initial values
    and bounds of the modifier registered under the name. *)
Theorem suggested_init_slices `{!ModifierContract F moddata mstate}
    (sp sp' : spec F moddata) (poiname : string) (q : bool) (cfg : config)
    (name : string) (e : par_entry) (m : modifier F mstate) :
  from_spec sp poiname q = Ok (cfg, sp') ->
  NoDup (par_order cfg) ->
  par_map cfg !! name = Some e ->
  get_modifier cfg name = Ok m ->
  exists init bounds,
    suggested_init cfg = Ok init /\ suggested_bounds cfg = Ok bounds /\
    py_slice init (slice e) = mod_suggested_init m /\
    py_slice bounds (slice e) = mod_suggested_bounds m.
Proof.
  intros Hrun Hnd He Hm. pose proof (from_spec_inv _ _ _ _ _ Hrun) as Hinv.
  pose proof (par_order_resolves cfg Hinv Hnd) as Hres.
  destruct Hinv as [Hlen Hnext Hmap Hord Hsz Haux].
  exists (concat (mod_suggested_init <$> heap cfg)),
         (concat (mod_suggested_bounds <$> heap cfg)).
  unfold suggested_init, suggested_bounds.
  rewrite !(for_each_get_modifier cfg _ _ _ _ Hres). simpl.
  split; [done|]. split; [done|].
  destruct (Hmap _ _ He) as [_ Hsl].
  unfold get_modifier in Hm. rewrite He in Hm.
  destruct (heap cfg !! modifier_ref e) as [m'|] eqn:Hh; [|done].
  injection Hm as ->.
  destruct (Forall_lookup_1 _ _ _ _ Hsz Hh) as (Hi & Hb & _).
  assert (sum_list (take (S (modifier_ref e)) (sizes cfg))
          - sum_list (take (modifier_ref e) (sizes cfg)) = n_parameters m)%nat as Hw.
  { unfold sizes. rewrite (take_S_r _ _ (n_parameters m)).
    - rewrite sum_list_app. simpl. lia.
    - by rewrite list_lookup_fmap, Hh. }
  unfold py_slice. rewrite Hsl. simpl. rewrite Hw. split.
  - rewrite <- Hi at 1.
    replace (sizes cfg) with (length <$> (mod_suggested_init <$> heap cfg)).
    + apply concat_slice. by rewrite list_lookup_fmap, Hh.
    + unfold sizes. rewrite <- list_fmap_compose. apply list_fmap_ext.
      intros i x Hx. simpl. by destruct (Forall_lookup_1 _ _ _ _ Hsz Hx) as (? & _).
  - rewrite <- Hb at 1.
    replace (sizes cfg) with (length <$> (mod_suggested_bounds <$> heap cfg)).
    + apply concat_slice. by rewrite list_lookup_fmap, Hh.
    + unfold sizes. rewrite <- list_fmap_compose. apply list_fmap_ext.
      intros i x Hx. simpl. by destruct (Forall_lookup_1 _ _ _ _ Hsz Hx) as (? & ? & _).
Qed.

Lemma from_spec_loops_auxdata_order `{!ModifierContract F moddata mstate}
    (sp sp' : spec F moddata) (poiname : string) (q : bool) (st : build_state) :
  from_spec_loops sp poiname q = Ok (st, sp') ->
  auxdata_order (bs_instance st) = constrained_names (bs_instance st) /\
  length (par_order (bs_instance st)) = length (heap (bs_instance st)).
Proof.
  apply (from_spec_loops_ind
           (fun st => auxdata_order (bs_instance st) = constrained_names (bs_instance st) /\
                      length (par_order (bs_instance st))
                      = length (heap (bs_instance st)))).
  - intros cname sname sdata st0 defs bt d st1 defs1 bt1 [Hao Hlen] Hbody.
    unfold modifier_body in Hbody.
    destruct (add_or_get_modifier _ _ _) as [[ref inst]|] eqn:Hadd;
      simpl in Hbody; [|done].
    injection Hbody as <- _ _. simpl.
    assert (auxdata_order inst = constrained_names inst /\
            length (par_order inst) = length (heap inst)) as [Hao' Hlen'].
    { apply add_or_get_modifier_cases in Hadd as [[-> _]|(cls & _ & -> & _)]; [done|].
      unfold constrained_names. simpl. rewrite !length_app, Hlen. split; [|done].
      rewrite zip_with_app by done. rewrite filter_app, fmap_app. simpl.
      fold (constrained_names (bs_instance st0)). rewrite <- Hao.
      rewrite filter_cons, filter_nil. simpl.
      destruct (is_constrained (new cls sdata (md_data (qualified q d)))) eqn:Hc.
      - by rewrite decide_True.
      - rewrite decide_False by done. by rewrite app_nil_r. }
    unfold constrained_names. simpl. rewrite length_alter. split; [|done].
    rewrite constrained_filter_alter; [done|].
    intros m. apply add_sample_is_constrained.
  - done.
Qed.

Lemma auxdata_order_of_from_spec `{!ModifierContract F moddata mstate}
    (sp sp' : spec F moddata) (poiname : string) (q : bool) (cfg : config) :
  from_spec sp poiname q = Ok (cfg, sp') ->
  auxdata_order cfg = constrained_names cfg.
Proof.
  unfold from_spec.
  destruct (from_spec_loops sp poiname q) as [[st sp1]|] eqn:Hl; simpl; [|done].
  destruct (set_poi _ _) as [c|] eqn:Hp; simpl; [|done].
  intros [= <- <-].
  apply set_poi_fields in Hp as (Hpo & Hh & _ & _ & _ & Hao). simpl in *.
  unfold constrained_names. rewrite Hao, Hpo, Hh.
  by apply from_spec_loops_auxdata_order in Hl as [-> _].
Qed.

(** X7.  When [from_spec] returns, [auxdata_order] lists the names under
    which constrained modifier instances were allocated, in allocation
    order, and nothing else: a name is in it exactly when the instance
    allocated under it at some position of [par_order] is constrained. *)
Theorem from_spec_auxdata_order `{!ModifierContract F moddata mstate}
    (sp sp' : spec F moddata) (poiname : string) (q : bool) (cfg : config) :
  from_spec sp poiname q = Ok (cfg, sp') ->
  auxdata_order cfg = constrained_names cfg /\
  forall name, name ∈ auxdata_order cfg <->
    exists i m, par_order cfg !! i = Some name /\ heap cfg !! i = Some m /\
                is_constrained m = true.
Proof.
  intros Hrun. pose proof (auxdata_order_of_from_spec _ _ _ _ _ Hrun) as Hao.
  split; [done|]. intros name. rewrite Hao. unfold constrained_names.
  rewrite list_elem_of_fmap. split.
  - intros ([n m] & -> & Hin). apply list_elem_of_filter in Hin as [Hc Hin].
    apply list_elem_of_lookup in Hin as [i Hi].
    apply lookup_zip_with_Some in Hi as (a & b & [= <- <-] & Ha & Hb).
    by exists i, m.
  - intros (i & m & Hn & Hm & Hc). exists (name, m). split; [done|].
    apply list_elem_of_filter. split; [done|].
    apply (list_elem_of_lookup_2 _ i). apply lookup_zip_with_Some. by exists name, m.
Qed.
End ModelConfigExtras2.

Lemma from_spec_poi_index_witness :
  poi_index ex_config = Some 0%nat /\ (0 < next_index ex_config)%nat.
Proof.
  assert (exists sp', from_spec ex_spec "mu" false = Ok (ex_config, sp')) as [sp' H].
  { eexists. vm_compute. reflexivity. }
  destruct (from_spec_poi_index ex_spec sp' "mu" false ex_config H)
    as (name & e & i & _ & _ & _ & _ & Hp & Hi).
  assert (i = 0%nat) as -> by (vm_compute in Hp; congruence).
  split; [exact Hp|exact Hi].
Defined.

Lemma suggested_init_slices_witness :
  exists init,
    suggested_init ex_config = Ok init /\
    py_slice init (1, 3)%nat = [qn 1; qn 1].
Proof.
  assert (exists sp', from_spec ex_spec "mu" false = Ok (ex_config, sp')) as [sp' H].
  { eexists. vm_compute. reflexivity. }
  destruct (suggested_init_slices ex_spec sp' "mu" false ex_config "uncorr_bkguncrt"
              {| slice := (1, 3)%nat; modifier_ref := 1 |}
              (new ex_shapesys [qn 50; qn 52] tt) H)
    as (init & bounds & Hi & _ & Hs & _).
  - apply (bool_decide_unpack _). vm_compute. exact I.
  - vm_compute. reflexivity.
  - vm_compute. reflexivity.
  - exists init. split; [exact Hi|exact Hs].
Defined.

Lemma from_spec_auxdata_order_witness :
  auxdata_order ex_config = ["uncorr_bkguncrt"]%string.
Proof.
  assert (exists sp', from_spec ex_spec "mu" false = Ok (ex_config, sp')) as [sp' H].
  { eexists. vm_compute. reflexivity. }
  rewrite (proj1 (from_spec_auxdata_order ex_spec sp' "mu" false ex_config H)).
  vm_compute. reflexivity.
Defined.

Lemma ex_contract_shared : @ModifierContract Qn unit unit ex_modifiers_shared.
Proof.
  split; try done.
  intros t cls nom d Hreg. unfold registry in Hreg. simpl in Hreg.
  repeat (apply lookup_insert_Some in Hreg as [[_ <-]|[_ Hreg]];
          [repeat split; simpl; rewrite ?length_replicate; done|]).
  by rewrite lookup_empty in Hreg.
Qed.

Lemma from_spec_all_shared_witness :
  exists cfg sp',
    @from_spec Qn unit unit ex_modifiers_shared ex_spec_shared "mu" false = Ok (cfg, sp') /\
    NoDup (par_order cfg).
Proof.
  destruct (@from_spec Qn unit unit ex_modifiers_shared ex_spec_shared "mu" false)
    as [[cfg sp']|] eqn:Hrun; [|by vm_compute in Hrun].
  exists cfg, sp'. split; [reflexivity|].
  refine (proj1 (@from_spec_all_shared Qn unit unit ex_modifiers_shared
                   ex_contract_shared ex_spec_shared sp' "mu" false cfg _ Hrun)).
  intros t cls Hreg. unfold registry in Hreg. simpl in Hreg.
  repeat (apply lookup_insert_Some in Hreg as [[_ <-]|[_ Hreg]]; [reflexivity|]).
  by rewrite lookup_empty in Hreg.
Defined.

Lemma for_each_prefix_inv {A S : Type} (P : list A -> S -> Prop)
    (body : S -> A -> result S) (l : list A) :
  (forall pre x s s', P pre s -> body s x = Ok s' -> P (pre ++ [x]) s') ->
  forall pre s r, P pre s -> for_each body l s = Ok r -> P (pre ++ l) r.
Proof.
  intros Hbody. induction l as [|x l IH]; intros pre s r Hs Hrun; simpl in Hrun.
  - injection Hrun as <-. by rewrite app_nil_r.
  - destruct (body s x) as [s'|e] eqn:Hb; simpl in Hrun; [|done].
    rewrite (assoc_L (++) pre [x] l : pre ++ x :: l = (pre ++ [x]) ++ l).
    eapply IH; [|done]. by eapply Hbody.
Qed.

Lemma enumerate_lookup_inv {A} (l : list A) (k i : nat) (x : A) :
  enumerate l !! k = Some (i, x) -> i = k /\ l !! k = Some x.
Proof.
  unfold enumerate. intros H. apply lookup_zip_with_Some in H as (a & b & [= -> ->] & Ha & Hb).
  apply lookup_seq in Ha as [-> _]. done.
Qed.

Section ModIndexExtras.
Context {F moddata mstate : Type}.
Context `{!Modifiers F moddata mstate} `{!Number F} `{!Backend F}.
Context `{!Combiners F moddata mstate}.

Local Abbreviation mod_body :=
  (fun (acc : list (string * (string * nat)) * option nat) (m : modifier_def moddata) =>
     let '(am, opcode_id) := acc in
     let opcode_id :=
       if bool_decide (md_type m ∈ factor_mods) then Some 0%nat
       else if bool_decide (md_type m ∈ delta_mods) then Some 1%nat
       else opcode_id in
     match opcode_id with
     | Some o => Ok (setdefault (md_name m) (md_type m, o) am, opcode_id)
     | None => Raise UnboundLocalError
     end).

Lemma mod_loop_bound (defs : list (modifier_def moddata))
    (am : list (string * (string * nat))) (o : nat) :
  is_Ok (for_each mod_body defs (am, Some o)).
Proof.
  revert am o. induction defs as [|m defs IH]; intros am o; simpl; [by eexists|].
  repeat case_bool_decide; simpl; apply IH.
Qed.

(** X8.  [_make_mod_index] raises only when the first modifier
    definition of the specification has a type that is in neither list:
    [opcode_id] is then read before it was ever assigned.  A definition
    of such a type further on does not raise; it takes the code that its
    predecessor left in the variable. *)
Theorem _make_mod_index_returns (sp : spec F moddata) :
  match all_modifier_defs sp with
  | [] => _make_mod_index sp = Ok []
  | m :: _ =>
      if bool_decide (md_type m ∈ factor_mods ++ delta_mods)
      then is_Ok (_make_mod_index sp)
      else _make_mod_index sp = Raise UnboundLocalError
  end.
Proof.
  unfold _make_mod_index. destruct (all_modifier_defs sp) as [|m defs]; [done|].
  simpl for_each.
  assert (forall o, is_Ok
    ('(am, _) ← for_each mod_body defs (setdefault (md_name m) (md_type m, o) [], Some o);
     Ok ((fun '(mod_id, (mname, (mtype, o))) => (mname, (mtype, o, mod_id)))
           <$> enumerate am))) as Hok.
  { intros o. destruct (mod_loop_bound defs (setdefault (md_name m) (md_type m, o) []) o)
      as [[am oc] ->]. by eexists. }
  case_bool_decide as Hin.
  - apply elem_of_app in Hin as [Hin|Hin].
    + rewrite (bool_decide_eq_true_2 _ Hin). apply Hok.
    + rewrite (bool_decide_eq_true_2 _ Hin). case_bool_decide; apply Hok.
  - rewrite elem_of_app in Hin.
    rewrite !bool_decide_eq_false_2 by tauto. done.
Qed.

Lemma mod_body_inv (pre : list (modifier_def moddata)) (m : modifier_def moddata)
    (acc acc' : list (string * (string * nat)) * option nat) :
  mod_loop_inv pre acc -> mod_body acc m = Ok acc' -> mod_loop_inv (pre ++ [m]) acc'.
Proof.
  destruct acc as [am oc]. intros (Hnd & Hnames & Hent) Hb.
  assert (exists o, acc' = (setdefault (md_name m) (md_type m, o) am, Some o) /\
            (md_type m ∈ factor_mods -> o = 0%nat) /\
            (md_type m ∈ delta_mods -> o = 1%nat)) as (o & -> & Hf & Hd).
  { simpl in Hb. case_bool_decide as H1.
    - injection Hb as <-. exists 0%nat. split; [done|]. split; [done|].
      intros Hd%list_elem_of_singleton. rewrite Hd in H1. exfalso. revert H1.
      apply (bool_decide_unpack _). vm_compute. exact I.
    - case_bool_decide as H2.
      + injection Hb as <-. by exists 1%nat.
      + destruct oc as [o|]; [|done]. injection Hb as <-. by exists o. }
  unfold mod_loop_inv, setdefault. simpl.
  destruct (bool_decide (md_name m ∈ am.*1)) eqn:Hin; simpl;
    [apply bool_decide_eq_true in Hin|apply bool_decide_eq_false in Hin].
  - split; [done|]. split.
    + intros name. rewrite fmap_app, elem_of_app, <- Hnames. simpl.
      rewrite list_elem_of_singleton. split; [tauto|]. by intros [?| ->].
    + intros name t o' He. destruct (Hent _ _ _ He) as (H1 & H2 & i & d & Hi & Hn & Ht & Hfirst).
      split; [done|]. split; [done|]. exists i, d.
      assert (i < length pre)%nat as Hlt by (by eapply lookup_lt_Some).
      split; [by rewrite lookup_app_l|]. split; [done|]. split; [done|].
      intros j d' Hj. rewrite lookup_app_l by lia. by apply Hfirst.
  - assert (md_name m ∉ md_name <$> pre) as Hnew by (by rewrite <- Hnames).
    split.
    + rewrite fmap_app. apply NoDup_app. split; [done|]. split; [|apply NoDup_singleton].
      simpl. by intros name Hn ->%list_elem_of_singleton.
    + split.
      * intros name. rewrite !fmap_app, !elem_of_app, <- Hnames. done.
      * intros name t o' [He|He]%elem_of_app.
        -- destruct (Hent _ _ _ He) as (H1 & H2 & i & d & Hi & Hn & Ht & Hfirst).
           split; [done|]. split; [done|]. exists i, d.
           assert (i < length pre)%nat as Hlt by (by eapply lookup_lt_Some).
           split; [by rewrite lookup_app_l|]. split; [done|]. split; [done|].
           intros j d' Hj. rewrite lookup_app_l by lia. by apply Hfirst.
        -- apply list_elem_of_singleton in He. injection He as -> -> ->.
           split; [done|]. split; [done|]. exists (length pre), m.
           split; [by apply list_lookup_middle|]. split; [done|]. split; [done|].
           intros j d' Hj. rewrite lookup_app_l by lia. intros Hd' Heq.
           apply Hnew. rewrite <- Heq. apply list_elem_of_fmap. exists d'.
           split; [done|]. by eapply list_elem_of_lookup_2.
Qed.

Lemma mod_index_loop (sp : spec F moddata) (am : mod_index) :
  _make_mod_index sp = Ok am ->
  exists am0 oc,
    mod_loop_inv (all_modifier_defs sp) (am0, oc) /\
    am = (fun '(mod_id, (mname, (mtype, o))) => (mname, (mtype, o, mod_id)))
           <$> enumerate am0 /\
    am.*1 = am0.*1.
Proof.
  unfold _make_mod_index.
  destruct (for_each _ _ _) as [[am0 oc]|] eqn:Hloop; simpl; [|done].
  intros [= <-]. exists am0, oc.
  apply (for_each_prefix_inv mod_loop_inv _ _ mod_body_inv []) in Hloop.
  2:{ split; [apply NoDup_nil_2|]. split; [done|]. by intros ??? ?%elem_of_nil. }
  split; [exact Hloop|]. split; [done|].
  apply list_eq. intros k. rewrite !list_lookup_fmap.
  destruct (am0 !! k) as [[n [t o]]|] eqn:Hk.
  - by rewrite (enumerate_lookup _ _ _ Hk).
  - destruct (enumerate am0 !! k) as [[i x]|] eqn:He; [|done].
    apply enumerate_lookup_inv in He as [_ He]. congruence.
Qed.

(** The names of the index, and the definition behind every entry. *)
Lemma mod_index_names (sp : spec F moddata) (am : mod_index) :
  _make_mod_index sp = Ok am ->
  NoDup am.*1 /\
  (forall name, name ∈ am.*1 <-> name ∈ md_name <$> all_modifier_defs sp) /\
  (forall k name t o id, am !! k = Some (name, (t, o, id)) ->
     exists i d, all_modifier_defs sp !! i = Some d /\ md_type d = t).
Proof.
  intros Hidx. destruct (mod_index_loop _ _ Hidx) as (am0 & oc & Hinv & -> & Hfst).
  destruct Hinv as (Hnd & Hnames & Hent). simpl in *.
  rewrite Hfst. split; [done|]. split; [done|].
  intros k name t o id Hk.
  apply (list_lookup_fmap_Some_1 _ (enumerate am0)) in Hk as ([i [n [t' o']]] & Hk & He).
  injection Hk as -> -> -> ->.
  apply enumerate_lookup_inv in He as [_ He].
  destruct (Hent n t' o') as (_ & _ & i0 & d & Hd & _ & Ht & _);
    [by eapply list_elem_of_lookup_2|].
  by exists i0, d.
Qed.

(** X9.  The index that [_make_mod_index] returns has one entry per
    declared modifier name.  The entry at position [k] has [mod_id] [k];
    its type is the type of the first definition of the name in the
    order of the loops, and its code is 0 when that type is a factor
    type and 1 when it is a delta type. *)
Theorem _make_mod_index_entries (sp : spec F moddata) (am : mod_index) :
  _make_mod_index sp = Ok am ->
  NoDup am.*1 /\
  (forall name, name ∈ am.*1 <-> name ∈ md_name <$> all_modifier_defs sp) /\
  (forall k name t o id, am !! k = Some (name, (t, o, id)) ->
     id = k /\
     (t ∈ factor_mods -> o = 0%nat) /\ (t ∈ delta_mods -> o = 1%nat) /\
     exists i d, all_modifier_defs sp !! i = Some d /\ md_name d = name /\
       md_type d = t /\
       forall j d', (j < i)%nat -> all_modifier_defs sp !! j = Some d' ->
         md_name d' ≠ name).
Proof.
  intros Hidx. destruct (mod_index_loop _ _ Hidx) as (am0 & oc & Hinv & -> & Hfst).
  destruct Hinv as (Hnd & Hnames & Hent). simpl in *.
  rewrite Hfst. split; [done|]. split; [done|].
  intros k name t o id Hk.
  apply (list_lookup_fmap_Some_1 _ (enumerate am0)) in Hk as ([i [n [t' o']]] & Hk & He).
  injection Hk as -> -> -> ->.
  apply enumerate_lookup_inv in He as [-> He]. split; [done|].
  apply (Hent n t' o'). by eapply list_elem_of_lookup_2.
Qed.
End ModIndexExtras.

Lemma _make_mod_index_entries_witness :
  exists am, _make_mod_index ex_spec_shared = Ok am /\ NoDup am.*1.
Proof.
  destruct (_make_mod_index ex_spec_shared) as [am|] eqn:H; [|by vm_compute in H].
  exists am. split; [reflexivity|].
  exact (proj1 (_make_mod_index_entries ex_spec_shared am H)).
Defined.

Lemma for_each_not_ok {A S : Type} (body : S -> A -> result S) (l : list A) (x : A)
    (s : S) :
  x ∈ l -> (forall s0, ~ is_Ok (body s0 x)) -> ~ is_Ok (for_each body l s).
Proof.
  intros Hx Hbody. revert s. induction l as [|y l IH]; intros s; simpl.
  - by apply elem_of_nil in Hx.
  - destruct (body s y) as [s'|e] eqn:Hb; simpl; [|by intros [? ?]].
    apply elem_of_cons in Hx as [->|Hx]; [|by apply IH].
    exfalso. apply (Hbody s). rewrite Hb. by eexists.
Qed.

Lemma for_each_raises {A S : Type} (body : S -> A -> result S) (l : list A) (x : A)
    (E : exn) (s : S) :
  x ∈ l -> (forall s0, ~ is_Ok (body s0 x)) ->
  (forall s0 y e, y ∈ l -> body s0 y = Raise e -> e = E) ->
  for_each body l s = Raise E.
Proof.
  intros Hx Hbody HE. revert s. induction l as [|y l IH]; intros s; simpl.
  - by apply elem_of_nil in Hx.
  - destruct (body s y) as [s'|e] eqn:Hb; simpl.
    + apply elem_of_cons in Hx as [->|Hx].
      * exfalso. apply (Hbody s). rewrite Hb. by eexists.
      * apply IH; [done|]. intros s0 z e Hz. apply HE. by apply list_elem_of_further.
    + f_equal. eapply HE; [|exact Hb]. apply list_elem_of_here.
Qed.

Lemma constrained_names_nil {F mstate} (c : _ModelConfig F mstate) :
  Forall (fun m => is_constrained m = false) (heap c) -> constrained_names c = [].
Proof.
  unfold constrained_names. generalize (par_order c).
  induction (heap c) as [|m h IH]; intros [|n po] Hall; simpl; try done.
  apply Forall_cons in Hall as [Hm Hall]. rewrite filter_cons. simpl.
  rewrite decide_False by (by rewrite Hm). by apply IH.
Qed.

Lemma constrained_count_zero {F mstate} (c : _ModelConfig F mstate) :
  Forall (fun m => is_constrained m = false) (heap c) -> constrained_count c = 0%nat.
Proof.
  unfold constrained_count. induction 1 as [|m h Hm _ IH]; csimpl; [done|].
  rewrite Hm. simpl. exact IH.
Qed.

Section ModelExtras2.
Context {F moddata mstate : Type}.
Context `{!Modifiers F moddata mstate} `{!Number F} `{!Backend F}.
Context `{!Combiners F moddata mstate}.

Local Abbreviation model := (Model F moddata mstate).

Local Abbreviation stats_body cfg :=
  (fun (acc : gmap string (list F)) (kv : string * par_entry) =>
     match String.index 0 "staterror" kv.1 with
     | Some _ =>
         m ← get_modifier cfg kv.1;
         fs ← finalize_stats m;
         Ok (<[kv.1 := fs]> acc)
     | None => Ok acc
     end).

Lemma Model_init_stats (sp : spec F moddata) (poiname : string) (q : bool)
    (self : model) :
  Model_init sp poiname q = Ok self ->
  for_each (stats_body (config self)) (map_to_list (par_map (config self))) ∅
  = Ok (finalized_stats self).
Proof.
  unfold Model_init.
  destruct (from_spec sp poiname q) as [[cfg sp']|]; simpl; [|done].
  destruct (_make_cube sp') as [[c h]|] eqn:Hc; simpl; [|done].
  destruct (for_each _ _ _) as [stats|] eqn:Hs; simpl; [|done].
  destruct (_make_mod_index sp') as [am|] eqn:Hm; simpl; [|done].
  by intros [= <-].
Qed.

Lemma stats_loop_keys (cfg : _ModelConfig F mstate) (l : list (string * par_entry))
    (stats : gmap string (list F)) :
  for_each (stats_body cfg) l ∅ = Ok stats ->
  forall k,
    (forall fs, stats !! k = Some fs ->
       is_Some (String.index 0 "staterror" k) /\
       exists m, get_modifier cfg k = Ok m /\ finalize_stats m = Ok fs) /\
    (k ∈ l.*1 -> is_Some (String.index 0 "staterror" k) -> is_Some (stats !! k)).
Proof.
  intros Hrun.
  refine (for_each_prefix_inv
           (fun pre acc => forall k,
              (forall fs, acc !! k = Some fs ->
                 is_Some (String.index 0 "staterror" k) /\
                 exists m, get_modifier cfg k = Ok m /\ finalize_stats m = Ok fs) /\
              (k ∈ pre.*1 -> is_Some (String.index 0 "staterror" k) ->
               is_Some (acc !! k)))
           (stats_body cfg) l _ [] ∅ stats _ Hrun).
  - intros pre [k0 e0] acc acc' Hacc Hb k. simpl in Hb.
    rewrite fmap_app, elem_of_app. simpl. rewrite list_elem_of_singleton.
    destruct (String.index 0 "staterror" k0) as [n|] eqn:Hidx.
    + destruct (get_modifier cfg k0) as [m|] eqn:Hm; simpl in Hb; [|done].
      destruct (finalize_stats m) as [fs0|] eqn:Hfs; simpl in Hb; [|done].
      injection Hb as <-. destruct (decide (k = k0)) as [->|Hne].
      * rewrite lookup_insert_eq. split; [|by eexists].
        intros fs [= <-]. split; [by eexists|]. by exists m.
      * rewrite lookup_insert_ne by done. destruct (Hacc k) as [H1 H2].
        split; [done|]. intros [Hin|Heq]; [by apply H2|done].
    + injection Hb as <-. destruct (Hacc k) as [H1 H2]. split; [done|].
      intros [Hin| ->]; [by apply H2|]. rewrite Hidx. by intros [? ?].
  - intros k. split; [by intros fs; rewrite lookup_empty|].
    by intros ?%elem_of_nil.
Qed.

Lemma finalized_stats_keys (sp : spec F moddata) (poiname : string) (q : bool)
    (self : model) (k : string) :
  Model_init sp poiname q = Ok self ->
  (forall fs, finalized_stats self !! k = Some fs ->
     is_Some (String.index 0 "staterror" k) /\
     exists m, get_modifier (config self) k = Ok m /\ finalize_stats m = Ok fs) /\
  (is_Some (par_map (config self) !! k) -> is_Some (String.index 0 "staterror" k) ->
   is_Some (finalized_stats self !! k)).
Proof.
  intros Hinit. apply Model_init_stats in Hinit.
  destruct (stats_loop_keys _ _ _ Hinit k) as [H1 H2]. split; [done|].
  intros [e He]. apply H2. apply list_elem_of_fmap. exists (k, e).
  split; [done|]. by apply elem_of_map_to_list.
Qed.

(** X10.  In a model built by [Model_init], [finalized_stats] has a
    value under exactly the names of [par_map] that contain the word
    [staterror], whatever the class of the modifier registered under
    the name; the value is [finalize_stats] of that modifier. *)
Theorem Model_init_finalized_stats (sp : spec F moddata) (poiname : string) (q : bool)
    (self : model) :
  Model_init sp poiname q = Ok self ->
  forall k,
    (is_Some (finalized_stats self !! k) <->
     is_Some (par_map (config self) !! k) /\ is_Some (String.index 0 "staterror" k)) /\
    (forall fs, finalized_stats self !! k = Some fs ->
       exists m, get_modifier (config self) k = Ok m /\ finalize_stats m = Ok fs).
Proof.
  intros Hinit k. destruct (finalized_stats_keys _ _ _ _ k Hinit) as [H1 H2].
  split; [split|].
  - intros [fs Hfs]. destruct (H1 _ Hfs) as (Hidx & m & Hm & _). split; [|done].
    unfold get_modifier in Hm. by destruct (par_map (config self) !! k).
  - intros [Hk Hidx]. by apply H2.
  - intros fs Hfs. by destruct (H1 _ Hfs) as (_ & Hm).
Qed.

(** X11.  In a model built by [Model_init], when a constrained modifier
    of class [staterror] with a normal constraint is registered under a
    name that does not contain the word [staterror], no call of
    [constraint_logpdf], [logpdf] or [pdf] returns: [finalized_stats]
    has no entry under the name. *)
Theorem constraint_logpdf_staterror_name (sp : spec F moddata) (poiname : string)
    (q : bool) (self : model) (cname : string) (m : modifier F mstate) :
  Model_init sp poiname q = Ok self ->
  cname ∈ auxdata_order (config self) ->
  get_modifier (config self) cname = Ok m ->
  pdf_type m = "normal"%string ->
  type_name m = "staterror"%string ->
  String.index 0 "staterror" cname = None ->
  forall aux pars data,
    ~ is_Ok (constraint_logpdf self aux pars) /\
    ~ is_Ok (logpdf self pars data) /\
    ~ is_Ok (pdf self pars data).
Proof.
  intros Hinit Hin Hm Hpdf Htype Hidx.
  assert (finalized_stats self !! cname = None) as Hnone.
  { destruct (finalized_stats self !! cname) as [fs|] eqn:Hfs; [|done].
    destruct (finalized_stats_keys _ _ _ _ cname Hinit) as [H1 _].
    destruct (H1 _ Hfs) as [[n Hn] _]. congruence. }
  assert (forall aux pars, ~ is_Ok (constraint_logpdf self aux pars)) as Hc.
  { intros aux pars [r Hr]. unfold constraint_logpdf in Hr.
    destruct (for_each _ _ _) as [[[si bt] kw]|] eqn:Hloop; simpl in Hr; [|done].
    eapply (for_each_not_ok _ _ cname); [exact Hin| |by eexists].
    intros [[si0 bt0] kw0] [r0 Hr0]. rewrite Hm in Hr0. simpl in Hr0.
    destruct (par_slice (config self) cname) as [sl|]; simpl in Hr0; [|done].
    rewrite Hpdf, Htype in Hr0.
    rewrite bool_decide_eq_true_2 in Hr0 by done.
    rewrite bool_decide_eq_false_2 in Hr0
      by (apply (bool_decide_unpack _); vm_compute; exact I).
    rewrite bool_decide_eq_true_2 in Hr0
      by (apply (bool_decide_unpack _); vm_compute; exact I).
    by rewrite Hnone in Hr0. }
  assert (forall pars data, ~ is_Ok (logpdf self pars data)) as Hl.
  { intros pars data [r Hr]. unfold logpdf in Hr.
    destruct (logpdf_split self data) as [actual aux].
    destruct (expected_actualdata self pars) as [lam|]; simpl in Hr; [|done].
    destruct (constraint_logpdf self aux pars) as [c|] eqn:Hcl; simpl in Hr; [|done].
    apply (Hc aux pars). rewrite Hcl. by eexists. }
  intros aux pars data. split; [apply Hc|]. split; [apply Hl|].
  intros [r Hr]. unfold pdf in Hr.
  destruct (logpdf self pars data) as [l|] eqn:Hlp; simpl in Hr; [|done].
  apply (Hl pars data). rewrite Hlp. by eexists.
Qed.

(** X12.  [Model_init] raises [AttributeError] when the configuration
    and the cube are built and some name that contains the word
    [staterror] is registered to a modifier without [uncertainties] or
    without [nominal_counts]: [finalize_stats] is called by name, not by
    class. *)
Theorem Model_init_staterror_name `{!ModifierContract F moddata mstate}
    (sp sp' : spec F moddata) (poiname : string) (q : bool) (cfg : _ModelConfig F mstate)
    (c : tensor3 F) (h : histomap) (k : string) (m : modifier F mstate) :
  from_spec sp poiname q = Ok (cfg, sp') ->
  _make_cube sp' = Ok (c, h) ->
  get_modifier cfg k = Ok m ->
  is_Some (String.index 0 "staterror" k) ->
  uncertainties m = None \/ nominal_counts m = None ->
  Model_init sp poiname q = Raise AttributeError.
Proof.
  intros Hspec Hcube Hm [n Hidx] Hattr.
  pose proof (from_spec_inv _ _ _ _ _ Hspec) as Hinv.
  assert (exists e, par_map cfg !! k = Some e) as [e He].
  { unfold get_modifier in Hm. destruct (par_map cfg !! k) as [e|]; [by exists e|done]. }
  unfold Model_init. rewrite Hspec. simpl. rewrite Hcube. simpl.
  rewrite (for_each_raises (stats_body cfg) _ (k, e) AttributeError); [done| | |].
  - by apply elem_of_map_to_list.
  - intros acc [r Hr]. simpl in Hr. rewrite Hidx, Hm in Hr. simpl in Hr.
    unfold finalize_stats in Hr.
    destruct Hattr as [Hu|Hn]; [by rewrite Hu in Hr|].
    rewrite Hn in Hr. by destruct (uncertainties m).
  - intros acc [k1 e1] ex Hin Hb. apply elem_of_map_to_list in Hin. simpl in Hb.
    destruct (String.index 0 "staterror" k1); [|done].
    unfold get_modifier in Hb. rewrite Hin in Hb.
    destruct (inv_map _ Hinv _ _ Hin) as [Hord _].
    apply lookup_lt_Some in Hord. rewrite (inv_len _ Hinv) in Hord.
    apply lookup_lt_is_Some_2 in Hord as [m1 Hm1]. rewrite Hm1 in Hb. simpl in Hb.
    unfold finalize_stats in Hb.
    destruct (uncertainties m1), (nominal_counts m1); simpl in Hb; congruence.
Qed.

(** X13.  A model built by [Model_init] whose modifiers are all
    unconstrained has no auxiliary data: [expected_auxdata] returns
    [None], [constraint_logpdf] returns 0 whatever it is given, and
    [logpdf] takes the whole of [data] as the observations. *)
Theorem logpdf_unconstrained `{!ModifierContract F moddata mstate}
    (sp : spec F moddata) (poiname : string) (q : bool) (self : model) :
  Model_init sp poiname q = Ok self ->
  Forall (fun m => is_constrained m = false) (heap (config self)) ->
  auxdata (config self) = [] /\
  auxdata_order (config self) = [] /\
  forall pars data aux,
    expected_auxdata self pars = Ok None /\
    constraint_logpdf self aux pars = Ok fzero /\
    logpdf self pars data =
      (lambdas ← expected_actualdata self pars;
       Ok [fmul (fadd (tsum (tlog (poisson data lambdas))) fzero) fone]).
Proof.
  intros Hinit Hall.
  destruct (Model_init_parts _ _ _ _ Hinit) as (Hspec & _ & _).
  pose proof (from_spec_inv _ _ _ _ _ Hspec) as Hinv.
  assert (auxdata (config self) = []) as Haux.
  { apply length_zero_iff_nil. rewrite (inv_aux _ Hinv).
    by apply constrained_count_zero. }
  assert (auxdata_order (config self) = []) as Hao.
  { rewrite (auxdata_order_of_from_spec _ _ _ _ _ Hspec).
    by apply constrained_names_nil. }
  split; [done|]. split; [done|]. intros pars data aux.
  split; [unfold expected_auxdata; by rewrite Hao|].
  assert (forall a, constraint_logpdf self a pars = Ok fzero) as Hc.
  { intros a. unfold constraint_logpdf. by rewrite Hao. }
  split; [apply Hc|].
  unfold logpdf, logpdf_split. rewrite Haux. simpl length.
  replace (Z.of_nat (length data) - Z.of_nat 0)%Z with (Z.of_nat (length data)) by lia.
  rewrite py_slice_to_nat, py_slice_from_nat, firstn_all.
  destruct (expected_actualdata self pars) as [lam|]; simpl; [|done].
  by rewrite Hc.
Qed.
End ModelExtras2.

Lemma Model_init_finalized_stats_witness :
  finalized_stats ex_model_stat_name !! "mc_stat"%string = None.
Proof.
  assert (Model_init ex_spec_stat_name "mu" false = Ok ex_model_stat_name) as H
    by (vm_compute; reflexivity).
  destruct (Model_init_finalized_stats _ _ _ _ H "mc_stat"%string) as [Hk _].
  destruct (finalized_stats ex_model_stat_name !! "mc_stat"%string) eqn:Hfs; [|reflexivity].
  exfalso. destruct Hk as [Hk _].
  destruct (Hk (ex_intro _ _ eq_refl)) as [_ [n Hn]]. vm_compute in Hn. discriminate Hn.
Defined.

Lemma constraint_logpdf_staterror_name_witness :
  ~ is_Ok (logpdf ex_model_stat_name [qn 1; qn 1; qn 1] [qn 62; qn 63; qn 1; qn 1]).
Proof.
  assert (Model_init ex_spec_stat_name "mu" false = Ok ex_model_stat_name) as H
    by (vm_compute; reflexivity).
  refine (proj1 (proj2 (constraint_logpdf_staterror_name ex_spec_stat_name "mu" false
            ex_model_stat_name "mc_stat" (new ex_staterror [qn 50; qn 52] tt)
            H _ _ _ _ _ [] [qn 1; qn 1; qn 1] [qn 62; qn 63; qn 1; qn 1]))).
  - apply (bool_decide_unpack _). vm_compute. exact I.
  - vm_compute. reflexivity.
  - reflexivity.
  - reflexivity.
  - vm_compute. reflexivity.
Defined.

Lemma Model_init_staterror_name_witness :
  Model_init ex_spec_named_staterror "mu" false = Raise AttributeError.
Proof.
  destruct (from_spec ex_spec_named_staterror "mu" false) as [[cfg sp']|] eqn:Hs;
    [|by vm_compute in Hs].
  destruct (_make_cube sp') as [[c h]|] eqn:Hc;
    [|vm_compute in Hs; injection Hs as <- <-; by vm_compute in Hc].
  apply (Model_init_staterror_name ex_spec_named_staterror sp' "mu" false cfg c h
           "staterror_scale" (new ex_normfactor [qn 12; qn 11] tt) Hs Hc).
  - vm_compute in Hs. injection Hs as <- <-. vm_compute. reflexivity.
  - vm_compute. by eexists.
  - by left.
Defined.

Lemma logpdf_unconstrained_witness :
  auxdata (config ex_model_free) = [] /\
  constraint_logpdf ex_model_free [] [qn 1] = Ok fzero.
Proof.
  assert (Model_init ex_spec_free "mu" false = Ok ex_model_free) as H
    by (vm_compute; reflexivity).
  destruct (logpdf_unconstrained ex_spec_free "mu" false ex_model_free H)
    as (Ha & _ & Hall).
  - vm_compute. repeat constructor.
  - split; [exact Ha|]. exact (proj1 (proj2 (Hall [qn 1] [] []))).
Defined.

Lemma filter_none {A} (P : A -> Prop) `{!forall x, Decision (P x)} (l : list A) :
  Forall (fun x => ~ P x) l -> filter P l = [].
Proof. induction 1; [done|]. by rewrite filter_cons_False. Qed.

Lemma positions_split (n m b : nat) :
  (n <= m)%nat ->
  positions m b = positions n b ++ (j ← seq n (m - n); (fun k => (j, k)) <$> seq 0 b).
Proof.
  intros Hle. unfold positions. replace m with (n + (m - n))%nat at 1 by lia.
  by rewrite seq_app, bind_app.
Qed.

#[global] Instance Qn_nan_laws : NanLaws Qn.
Proof. split; [by intros [x|]|by intros [x|]|done]. Qed.

Section PaddingExtras.
Context {F moddata mstate : Type}.
Context `{!Modifiers F moddata mstate} `{!Number F} `{!Backend F}.
Context `{!Combiners F moddata mstate} `{!NanLaws F}.

Local Abbreviation model := (Model F moddata mstate).

Lemma yield_at_padded (c : tensor3 F) (ntot : nat) (ri : list (op_index * list F))
    (i j k b : nat) :
  row_at c i j = Some (replicate b (fmul fone fnan)) ->
  isnan (yield_at c ntot ri i j k) = true.
Proof.
  intros Hrow. unfold yield_at.
  assert (at3 fnan c i j k = fnan) as ->.
  { unfold at3, row_at, tensor3 in *.
    destruct (c !! i) as [plane|]; [|discriminate Hrow].
    rewrite Hrow.
    destruct (replicate b (fmul fone fnan) !! k) as [x|] eqn:Hx; [|reflexivity].
    apply lookup_replicate in Hx as [-> _]. simpl. apply fmul_nan_r. }
  rewrite fadd_nan_r, fmul_nan_r. apply isnan_nan.
Qed.

(** X14.  The slots of the cube past the samples of a channel never
    contribute: for a model whose cube is the one [_make_cube] builds,
    the entry of [expected_actualdata] for a channel is the sum over the
    bins of the samples the channel declares, whatever the combiners
    return for the slots of padding. *)
Theorem expected_actualdata_padding (self : model) (pars : list F) (ntot : nat)
    (ri : list (op_index * list F)) :
  _make_cube (m_spec self) = Ok (cube self, hm self) ->
  _make_result_index self pars = Ok (ntot, ri) ->
  Forall (valid_result (shape3 (cube self)) ntot) ri ->
  exists expected,
    expected_actualdata self pars = Ok expected /\
    forall i ch, m_spec self !! i = Some ch ->
      expected !! i =
        Some (np_sum (filter (fun x => isnan x = false)
                ((fun p => yield_at (cube self) ntot ri i p.1 p.2)
                   <$> positions (length (c_samples ch)) (shape3 (cube self)).2))).
Proof.
  intros Hc Hri Hv. destruct (_make_cube_shape _ Hc) as [Hrect Hlen].
  eexists. split; [by apply expected_actualdata_entries|].
  intros i ch Hch.
  assert (i < length (m_spec self))%nat as Hi by (by eapply lookup_lt_Some).
  rewrite list_lookup_fmap, lookup_seq_lt by done. simpl. f_equal.
  unfold channel_yield. f_equal.
  destruct (_make_cube_rows _ _ _ Hc) as (maxsamp & maxbins & Hs & _ & Hr & Hrows).
  destruct (Hrows i ch Hch) as [_ Hpad].
  assert ((shape3 (cube self)).1.2 = maxsamp) as ->.
  { destruct Hr as [Hl Hall]. unfold shape3. simpl in *.
    destruct (cube self) as [|plane c']; [simpl in Hl; lia|]. simpl.
    by apply Forall_inv in Hall as [? _]. }
  assert (length (c_samples ch) <= maxsamp)%nat as Hle.
  { eapply py_max_ge; [exact Hs|]. apply list_elem_of_fmap. exists ch.
    split; [done|]. by eapply list_elem_of_lookup_2. }
  rewrite (positions_split _ _ _ Hle), fmap_app, filter_app.
  rewrite (filter_none _ (_ <$> (_ ≫= _))); [by rewrite app_nil_r|].
  apply Forall_fmap, Forall_forall. intros [j k] Hjk. simpl.
  apply list_elem_of_bind in Hjk as (j' & Hjk & Hj').
  apply list_elem_of_fmap in Hjk as (k' & [= -> ->] & _).
  apply elem_of_seq in Hj'.
  rewrite (yield_at_padded _ _ _ _ _ _ maxbins); [done|].
  apply Hpad. lia.
Qed.
End PaddingExtras.

Lemma expected_actualdata_padding_witness :
  exists expected,
    expected_actualdata ex_model_two_channels [qn 2] = Ok expected /\
    expected !! 1%nat = Some (qn 16).
Proof.
  destruct (expected_actualdata_padding ex_model_two_channels [qn 2] 1
              [(mk_index 0 0 0 0, [qn 2])]) as (expected & Hex & Hall).
  - vm_compute. reflexivity.
  - vm_compute. reflexivity.
  - change (shape3 (cube ex_model_two_channels)) with (2, 2, 2)%nat.
    repeat constructor; simpl; try lia; by eexists.
  - exists expected. split; [exact Hex|].
    rewrite (Hall 1%nat {| c_name := "second";
                           c_samples := [ex_sample "control" [7; 9]%Z []] |}).
    + vm_compute. reflexivity.
    + vm_compute. reflexivity.
Defined.

Section OptimizerExtras.
Context `{!TensorFlow}.

Lemma np_max_raises (l : list Q) (e : exn) : np_max l = Raise e -> e = ValueError.
Proof. destruct l; simpl; congruence. Qed.

Lemma newton_loop_unconstrained (graph : list Q -> Q) (n : nat) (st : list Q * bool)
    (p : nat) :
  match newton_loop graph (fun _ => Raise TypeError) n st p with
  | Ok (st', arr', _) => (n = 0%nat /\ (st', arr') = st) \/ arr' = true
  | Raise e => e = TypeError \/ e = ValueError
  end.
Proof.
  revert st p. induction n as [|n IH]; intros st p; simpl.
  - destruct st. by left.
  - unfold newton_iteration. destruct (update graph st.1) as [up|]; simpl; [|by left].
    destruct (np_max up) as [m|e] eqn:Hm; simpl.
    + destruct (Qlt_le_dec (Qabs m) tolerance); [by right|].
      specialize (IH (zip_with Qminus st.1 up, true) (S p)).
      destruct (newton_loop _ _ _ _ _) as [[[st' arr'] p']|]; [|done].
      destruct IH as [[_ [= _ <-]]|]; by right.
    + right. by eapply np_max_raises.
Qed.

(** X15.  [unconstrained_bestfit] never fails at [best_fit.tolist()]:
    every pass either replaces the estimate by an array or raises.  When
    it raises, it is with [TypeError], from the handler of a pass whose
    update cannot be computed, or with [ValueError], from the maximum
    of an empty update. *)
Theorem unconstrained_bestfit_raises {D M : Type}
    (objective : list Q -> D -> M -> Q) (data : D) (pdf : M) (init_pars : list Q)
    (e : exn) :
  unconstrained_bestfit objective data pdf init_pars = Raise e ->
  e = TypeError \/ e = ValueError.
Proof.
  unfold unconstrained_bestfit, unconstrained_bestfit_passes.
  cbv zeta.
  pose proof (newton_loop_unconstrained (fun pars => objective pars data pdf)
                max_iterations (init_pars, false) 0) as Hloop.
  destruct (newton_loop _ _ _ _ _) as [[[st arr] p]|e']; simpl.
  - destruct Hloop as [[Hn _]| ->]; [discriminate Hn|]. simpl. done.
  - by intros [= <-].
Qed.

Lemma newton_loop_length `{!TensorFlowShapes} (graph : list Q -> Q)
    (on_invalid : list Q -> result unit) (n : nat) (st : list Q * bool) (p : nat)
    (x' : list Q) (arr' : bool) (p' : nat) :
  newton_loop graph on_invalid n st p = Ok (x', arr', p') ->
  length x' = length st.1.
Proof.
  revert st p. induction n as [|n IH]; intros st p; simpl.
  - by intros [= -> _].
  - unfold newton_iteration. destruct (update graph st.1) as [up|] eqn:Hup; simpl.
    + destruct (np_max up) as [m|]; simpl; [|done].
      assert (length (zip_with Qminus st.1 up) = length st.1) as Hz.
      { rewrite length_zip_with_l_eq; [done|]. symmetry. by eapply update_length. }
      destruct (Qlt_le_dec (Qabs m) tolerance).
      * by intros [= <- _ _].
      * intros Hrest. apply IH in Hrest. simpl in Hrest. congruence.
    + destruct (on_invalid st.1); simpl; [|done].
      intros Hrest. by apply IH in Hrest.
Qed.

(** X16.  When the graph operations return arrays of the expected
    shapes, a result of [unconstrained_bestfit] has one entry per
    initial parameter, and there is no result for an empty
    [init_pars]. *)
Theorem unconstrained_bestfit_length `{!TensorFlowShapes} {D M : Type}
    (objective : list Q -> D -> M -> Q) (data : D) (pdf : M)
    (init_pars res : list Q) :
  unconstrained_bestfit objective data pdf init_pars = Ok res ->
  length res = length init_pars /\ init_pars <> [].
Proof.
  unfold unconstrained_bestfit, unconstrained_bestfit_passes. cbv zeta.
  destruct (newton_loop _ _ _ _ _) as [[[st arr] p]|] eqn:Hloop; simpl; [|done].
  unfold tolist. simpl. destruct arr; simpl; [|done]. intros [= <-].
  split; [by apply newton_loop_length in Hloop|].
  intros ->. change max_iterations with (S 999) in Hloop. simpl in Hloop.
  unfold newton_iteration in Hloop. simpl in Hloop.
  destruct (update _ []) as [up|] eqn:Hup; simpl in Hloop; [|done].
  apply update_length in Hup. destruct up; [done|]. simpl in Hup. lia.
Qed.

Lemma newton_loop_stuck (graph : list Q -> Q) (n : nat) (x : list Q) (arr : bool)
    (p : nat) :
  update graph x = None ->
  newton_loop graph (fun _ => Ok tt) n (x, arr) p = Ok (x, arr, (p + n)%nat).
Proof.
  intros Hup. revert p. induction n as [|n IH]; intros p; simpl.
  - by rewrite Nat.add_0_r.
  - unfold newton_iteration. simpl. rewrite Hup. simpl. rewrite IH.
    do 2 f_equal. lia.
Qed.

(** X17.  When the update cannot be computed at the initial nuisance
    parameters, the handler of [constrained_bestfit] logs and the loop
    goes through all its passes without changing the estimate; the
    estimate is still the Python list it started as, and
    [best_fit_nuis.tolist()] raises [AttributeError]. *)
Theorem constrained_bestfit_singular_start {D M : Type}
    (objective : list Q -> D -> M -> Q) (mu : Q) (data : D) (pdf : M)
    (poi : option nat) (init_pars : list Q) :
  let graph := fun nuis_cat => objective (constrained_pars mu nuis_cat) data pdf in
  update graph (nuisance_of poi init_pars) = None ->
  newton_loop graph (fun _ => Ok tt) max_iterations (nuisance_of poi init_pars, false) 0
  = Ok (nuisance_of poi init_pars, false, max_iterations) /\
  constrained_bestfit objective mu data pdf poi init_pars = Raise AttributeError.
Proof.
  intros graph Hup.
  pose proof (newton_loop_stuck graph max_iterations _ false 0 Hup) as Hloop.
  split; [exact Hloop|].
  unfold constrained_bestfit, constrained_bestfit_passes. cbv zeta.
  fold graph. rewrite Hloop. reflexivity.
Qed.
End OptimizerExtras.

(** X18.  The comprehension that takes the nuisance parameters out of
    [init_pars] and the [insert] that puts the fixed value back are
    inverse to each other up to the value at [poi_index]: inserting into
    the nuisance parameters gives [init_pars] with the entry at
    [poi_index] replaced.  For a [poi_index] past the end nothing is
    taken out, and the value is appended. *)
Theorem py_insert_nuisance_of {A} (poi : nat) (mu : A) (init_pars : list A) :
  ((poi < length init_pars)%nat ->
   py_insert poi mu (nuisance_of (Some poi) init_pars) = <[poi := mu]> init_pars) /\
  ((length init_pars <= poi)%nat ->
   py_insert poi mu (nuisance_of (Some poi) init_pars) = init_pars ++ [mu]).
Proof.
  rewrite nuisance_of_delete. unfold py_insert. split; intros Hpoi.
  - rewrite delete_take_drop, insert_take_drop by done.
    assert (length (take poi init_pars) = poi) as Hlen by (rewrite length_take; lia).
    rewrite <- Hlen at 1. rewrite take_app_length.
    rewrite <- Hlen at 2. by rewrite drop_app_length.
  - assert (delete poi init_pars = init_pars) as ->.
    { rewrite delete_take_drop, (take_ge init_pars), (drop_ge init_pars) by lia.
      apply app_nil_r. }
    rewrite take_ge, drop_ge by lia. done.
Qed.

Lemma unconstrained_bestfit_raises_witness :
  unconstrained_bestfit ex_flat [5; 0]%Q tt [0; 0]%Q = Raise TypeError /\
  (TypeError = TypeError \/ TypeError = ValueError).
Proof.
  assert (unconstrained_bestfit ex_flat [5; 0]%Q tt [0; 0]%Q = Raise TypeError) as H
    by (vm_compute; reflexivity).
  split; [exact H|].
  exact (unconstrained_bestfit_raises ex_flat [5; 0]%Q tt [0; 0]%Q TypeError H).
Defined.

Lemma unconstrained_bestfit_length_witness :
  exists res, unconstrained_bestfit ex_objective [5; 0]%Q tt [0; 0]%Q = Ok res /\
              length res = 2%nat.
Proof.
  destruct (unconstrained_bestfit ex_objective [5; 0]%Q tt [0; 0]%Q) as [res|] eqn:H;
    [|vm_compute in H; discriminate].
  exists res. split; [reflexivity|].
  exact (proj1 (unconstrained_bestfit_length ex_objective [5; 0]%Q tt [0; 0]%Q res H)).
Defined.

Lemma constrained_bestfit_singular_start_witness :
  constrained_bestfit ex_flat 1%Q [5; 0]%Q tt (Some 0%nat) [1; 0; 0]%Q
  = Raise AttributeError.
Proof.
  refine (proj2 (constrained_bestfit_singular_start ex_flat 1%Q [5; 0]%Q tt (Some 0%nat)
                   [1; 0; 0]%Q _)).
  vm_compute. reflexivity.
Defined.

Lemma py_insert_nuisance_of_witness :
  py_insert 1 7%Z (nuisance_of (Some 1%nat) [3; 1; 4]%Z) = [3; 7; 4]%Z /\
  py_insert 5 7%Z (nuisance_of (Some 5%nat) [3; 1; 4]%Z) = [3; 1; 4; 7]%Z.
Proof.
  destruct (py_insert_nuisance_of 1 7%Z [3; 1; 4]%Z) as [H1 _].
  destruct (py_insert_nuisance_of 5 7%Z [3; 1; 4]%Z) as [_ H2].
  split; [apply H1; simpl; lia|apply H2; simpl; lia].
Defined.

Lemma for_each_fmap {A B S : Type} (body : S -> B -> result S) (g : A -> B)
    (l : list A) (s : S) :
  for_each body (g <$> l) s = for_each (fun s0 x => body s0 (g x)) l s.
Proof.
  revert s. induction l as [|x l IH]; intros s; simpl; [done|].
  destruct (body s (g x)); simpl; [apply IH|done].
Qed.

Lemma for_each_ext {A S : Type} (body body' : S -> A -> result S) (l : list A) (s : S) :
  (forall s0 x, body s0 x = body' s0 x) -> for_each body l s = for_each body' l s.
Proof.
  intros Hext. revert s. induction l as [|x l IH]; intros s; simpl; [done|].
  rewrite Hext. destruct (body' s x); simpl; [apply IH|done].
Qed.

Lemma enumerate_fmap {A B} (g : A -> B) (l : list A) :
  enumerate (g <$> l) = (fun ix : nat * A => (ix.1, g ix.2)) <$> enumerate l.
Proof.
  unfold enumerate. rewrite length_fmap. generalize 0%nat.
  induction l as [|x l IH]; intros s; csimpl; [done|]. by rewrite IH.
Qed.

Lemma by_type_lookup {moddata} (defs : list (modifier_def moddata))
    (bt : gmap string (list string)) (t : string) :
  default [] (foldl (fun bt d => by_type_append (md_type d) (md_name d) bt) bt defs !! t)
  = default [] (bt !! t) ++ (md_name <$> filter (fun d => md_type d = t) defs).
Proof.
  revert bt. induction defs as [|d defs IH]; intros bt; simpl.
  - by rewrite app_nil_r.
  - rewrite IH. unfold by_type_append. rewrite filter_cons.
    destruct (decide (md_type d = t)) as [<-|Hne].
    + rewrite lookup_insert_eq. simpl. by rewrite <- app_assoc.
    + by rewrite lookup_insert_ne.
Qed.

Section SpecRewriting.
Context {F moddata mstate : Type}.
Context `{!Modifiers F moddata mstate} `{!Number F} `{!Backend F}.
Context `{!Combiners F moddata mstate}.

Local Abbreviation model := (Model F moddata mstate).

Lemma modifier_loop_rewrites (q : bool) (cname sname : string) (sdata : list F)
    (l : list (modifier_def moddata)) st defs bt st' defs' bt' :
  for_each (modifier_body q cname sname sdata) l (st, defs, bt) = Ok (st', defs', bt') ->
  defs' = defs ++ (qualified q <$> l) /\
  bt' = foldl (fun bt d => by_type_append (md_type d) (md_name d) bt) bt
              (qualified q <$> l).
Proof.
  revert st defs bt. induction l as [|d l IH]; intros st defs bt; simpl.
  - intros [= _ <- <-]. by rewrite app_nil_r.
  - unfold modifier_body at 1.
    destruct (add_or_get_modifier _ _ _) as [[ref inst]|]; simpl; [|done].
    intros Hrun. apply IH in Hrun as [-> ->]. by rewrite <- app_assoc.
Qed.

Lemma sample_loop_rewrites (q : bool) (cname : string) (l : list (sample F moddata))
    st done0 st' done' :
  for_each (sample_body q cname) l (st, done0) = Ok (st', done') ->
  done' = done0 ++ (rewritten_sample q <$> l).
Proof.
  revert st done0. induction l as [|s l IH]; intros st done0; simpl.
  - intros [= _ <-]. by rewrite app_nil_r.
  - unfold sample_body at 1.
    destruct (for_each _ _ _) as [[[st1 defs] bt]|] eqn:Hm; simpl; [|done].
    apply modifier_loop_rewrites in Hm as [-> ->].
    intros Hrun. apply IH in Hrun as ->. by rewrite <- app_assoc.
Qed.

Lemma channel_loop_rewrites (q : bool) (l : spec F moddata) st done0 st' done' :
  for_each (channel_body q) l (st, done0) = Ok (st', done') ->
  done' = done0 ++ rewritten q l.
Proof.
  revert st done0. induction l as [|c l IH]; intros st done0; simpl.
  - intros [= _ <-]. by rewrite app_nil_r.
  - unfold channel_body at 1.
    destruct (for_each _ _ _) as [[st1 ss]|] eqn:Hs; simpl; [|done].
    apply sample_loop_rewrites in Hs as ->.
    intros Hrun. apply IH in Hrun as ->. by rewrite <- app_assoc.
Qed.

Lemma from_spec_rewritten (sp sp' : spec F moddata) (poiname : string) (q : bool)
    (cfg : _ModelConfig F mstate) :
  from_spec sp poiname q = Ok (cfg, sp') -> sp' = rewritten q sp.
Proof.
  unfold from_spec, from_spec_loops.
  destruct (for_each _ _ _) as [[st sp1]|] eqn:Hl; simpl; [|done].
  destruct (set_poi _ _) as [c|]; simpl; [|done].
  intros [= _ <-]. by apply channel_loop_rewrites in Hl.
Qed.

Lemma all_modifier_defs_rewritten (q : bool) (sp : spec F moddata) :
  all_modifier_defs (rewritten q sp) = qualified q <$> all_modifier_defs sp.
Proof.
  unfold all_modifier_defs, rewritten.
  induction sp as [|c sp IH]; csimpl; [done|]. rewrite IH, fmap_app. f_equal.
  induction (c_samples c) as [|s l IHs]; csimpl; [done|]. by rewrite IHs, fmap_app.
Qed.

Lemma _make_cube_rewritten (q : bool) (sp : spec F moddata) :
  _make_cube (rewritten q sp) = _make_cube sp.
Proof.
  unfold _make_cube.
  assert (length (rewritten q sp) = length sp) as -> by apply length_fmap.
  assert (((fun c : channel F moddata => length (c_samples c)) <$> rewritten q sp)
          = (fun c => length (c_samples c)) <$> sp) as ->.
  { unfold rewritten. rewrite <- list_fmap_compose. apply list_fmap_ext.
    intros i c _. simpl. apply length_fmap. }
  assert ((c ← rewritten q sp; (fun s => length (s_data s)) <$> c_samples c)
          = (c ← sp; (fun s => length (s_data s)) <$> c_samples c)) as ->.
  { unfold rewritten. induction sp as [|c sp IH]; csimpl; [done|].
    rewrite IH. f_equal. rewrite <- list_fmap_compose. done. }
  destruct (py_max _) as [maxsamp|]; simpl; [|done].
  destruct (py_max _) as [maxbins|]; simpl; [|done].
  assert (forall acc, for_each cube_channel_body (enumerate (rewritten q sp)) acc
                      = for_each cube_channel_body (enumerate sp) acc) as ->; [|done].
  intros acc. unfold rewritten. rewrite enumerate_fmap, for_each_fmap.
  apply for_each_ext. intros acc0 [i c]. unfold cube_channel_body. simpl.
  rewrite enumerate_fmap, for_each_fmap. apply for_each_ext.
  by intros [[c0 hid] hmap] [j s].
Qed.

(** X19.  [from_spec] leaves the specification with the structure it
    had: the channels and samples keep their names and data, every
    modifier definition carries the name it was registered under, and
    [modifiers_by_type] of a sample lists, per type, the names of the
    sample's modifiers of that type in their order.  Without
    [qualify_names] the definitions are unchanged. *)
Theorem from_spec_rewrites_spec (sp sp' : spec F moddata) (poiname : string) (q : bool)
    (cfg : _ModelConfig F mstate) :
  from_spec sp poiname q = Ok (cfg, sp') ->
  sp' = rewritten q sp /\
  all_modifier_defs sp' = qualified q <$> all_modifier_defs sp /\
  (q = false -> all_modifier_defs sp' = all_modifier_defs sp) /\
  forall i ch j s, sp' !! i = Some ch -> c_samples ch !! j = Some s ->
    forall t, default [] (modifiers_by_type s !! t)
              = md_name <$> filter (fun d => md_type d = t) (s_modifiers s).
Proof.
  intros Hrun. apply from_spec_rewritten in Hrun as ->.
  split; [done|]. split; [apply all_modifier_defs_rewritten|]. split.
  - intros ->. rewrite all_modifier_defs_rewritten. apply list_fmap_id.
  - intros i ch j s Hch Hs t. unfold rewritten in Hch.
    apply list_lookup_fmap_Some_1 in Hch as (c & -> & _). simpl in Hs.
    apply list_lookup_fmap_Some_1 in Hs as (s0 & -> & _). simpl.
    unfold by_type_of. rewrite by_type_lookup. by rewrite lookup_empty.
Qed.

Lemma from_spec_modifiers (sp sp' : spec F moddata) (poiname : string) (q : bool)
    (cfg : _ModelConfig F mstate) :
  from_spec sp poiname q = Ok (cfg, sp') ->
  modifiers cfg = list_to_set (declared_names q sp) /\
  dom (par_map cfg) = modifiers cfg.
Proof.
  unfold from_spec.
  destruct (from_spec_loops sp poiname q) as [[st sp1]|] eqn:Hl; simpl; [|done].
  destruct (set_poi _ _) as [c|] eqn:Hp; simpl; [|done].
  intros [= <- <-].
  destruct (from_spec_loops_names _ _ _ _ _ Hl) as [Hnames _].
  destruct (from_spec_loops_names_inv _ _ _ _ _ Hl) as [Hom Hcol].
  assert (modifiers c = list_to_set (bs_modifiers st)) as Hmods.
  { unfold set_poi in Hp. case_bool_decide; [|done].
    destruct (par_slice _ _); simpl in Hp; [|done].
    destruct (_ =? _)%nat; [|done]. by injection Hp as <-. }
  apply set_poi_fields in Hp as (Hpo & _ & _ & Hpm & _). simpl in *.
  rewrite Hmods, Hpm, <- Hnames. split; [done|].
  apply set_eq. intros name.
  rewrite elem_of_dom, elem_of_list_to_set, Hcol. symmetry. apply Hom.
Qed.

(** X20.  In a model built by [Model_init] the cube is the one of the
    specification as it was given, whatever the qualification of the
    names, and the modifier index and the configuration hold the same
    names: one entry of [allmods] for each name of [modifiers]. *)
Theorem Model_init_names_agree (sp : spec F moddata) (poiname : string) (q : bool)
    (self : model) :
  Model_init sp poiname q = Ok self ->
  m_spec self = rewritten q sp /\
  _make_cube sp = Ok (cube self, hm self) /\
  (forall name, name ∈ (allmods self).*1 <-> name ∈ modifiers (config self)) /\
  (forall name, name ∈ (allmods self).*1 <-> is_Some (par_map (config self) !! name)) /\
  length (allmods self) = size (modifiers (config self)).
Proof.
  intros Hinit. destruct (Model_init_parts _ _ _ _ Hinit) as (Hspec & Hcube & Hidx).
  pose proof (from_spec_rewritten _ _ _ _ _ Hspec) as Hsp.
  split; [done|]. split; [by rewrite <- (_make_cube_rewritten q), <- Hsp|].
  assert (modifiers (config self) = list_to_set (declared_names q sp) /\
          dom (par_map (config self)) = modifiers (config self)) as [Hmods Hdom].
  { by eapply from_spec_modifiers. }
  destruct (mod_index_names (m_spec self) (allmods self) Hidx) as (Hnd & Hnames & _).
  assert (forall name, name ∈ (allmods self).*1 <-> name ∈ modifiers (config self)) as Hagree.
  { intros name. rewrite Hnames, Hmods, elem_of_list_to_set, Hsp.
    rewrite all_modifier_defs_rewritten. unfold declared_names.
    by rewrite <- list_fmap_compose. }
  split; [done|]. split.
  - intros name. by rewrite Hagree, <- Hdom, elem_of_dom.
  - rewrite <- (length_fmap fst). rewrite <- (size_list_to_set (C := gset string)) by done.
    f_equal. apply set_eq. intros name. by rewrite elem_of_list_to_set.
Qed.
End SpecRewriting.

Lemma from_spec_rewrites_spec_witness :
  exists cfg sp',
    from_spec ex_spec_shared "mu" true = Ok (cfg, sp') /\
    md_name <$> all_modifier_defs sp'
    = ["normfactor/mu"; "normsys/lumi"; "normsys/lumi"]%string.
Proof.
  destruct (from_spec ex_spec_shared "mu" true) as [[cfg sp']|] eqn:H;
    [|vm_compute in H; discriminate].
  exists cfg, sp'. split; [reflexivity|].
  destruct (from_spec_rewrites_spec _ _ _ _ _ H) as (_ & -> & _).
  vm_compute. reflexivity.
Defined.

Lemma Model_init_names_agree_witness :
  length (allmods ex_model) = size (modifiers (config ex_model)).
Proof.
  assert (Model_init ex_spec "mu" false = Ok ex_model) as H by (vm_compute; reflexivity).
  exact (proj2 (proj2 (proj2 (proj2 (Model_init_names_agree _ _ _ _ H))))).
Defined.

Lemma for_each_no_raise {A S : Type} (P : S -> Prop) (body : S -> A -> result S)
    (l : list A) (E : exn) :
  (forall s x s', P s -> body s x = Ok s' -> P s') ->
  (forall s x, P s -> body s x <> Raise E) ->
  forall s, P s -> for_each body l s <> Raise E.
Proof.
  intros Hstep Hno. induction l as [|x l IH]; intros s Hs; simpl; [done|].
  destruct (body s x) as [s'|e] eqn:Hb; simpl.
  - apply IH. by eapply Hstep.
  - intros [= ->]. by eapply Hno.
Qed.

Lemma qualified_type_inj (t1 t2 n1 n2 : string) :
  no_slash t1 = true -> no_slash t2 = true ->
  (t1 +:+ "/" +:+ n1 = t2 +:+ "/" +:+ n2)%string -> t1 = t2.
Proof.
  revert t2. induction t1 as [|a t1 IH]; intros [|b t2]; simpl; try done.
  - intros _ Hb [= <- _]. fold slash in Hb. by rewrite Ascii.eqb_refl in Hb.
  - intros Ha _ [= -> _]. fold slash in Ha. by rewrite Ascii.eqb_refl in Ha.
  - intros [_ H1]%andb_prop [_ H2]%andb_prop [= -> Heq]. f_equal. by eapply IH.
Qed.

#[global] Instance ex_type_names : TypeNameContract Qn unit unit.
Proof.
  split; [| |done].
  - intros t cls nom d Hreg. unfold registry in Hreg. simpl in Hreg.
    repeat (apply lookup_insert_Some in Hreg as [[<- <-]|[_ Hreg]]; [reflexivity|]).
    by rewrite lookup_empty in Hreg.
  - intros t cls Hreg. unfold registry in Hreg. simpl in Hreg.
    repeat (apply lookup_insert_Some in Hreg as [[<- _]|[_ Hreg]]; [reflexivity|]).
    by rewrite lookup_empty in Hreg.
Qed.

Section QualifiedNames.
Context {F moddata mstate : Type} `{!Modifiers F moddata mstate}.
Context `{!TypeNameContract F moddata mstate}.

Lemma modifier_body_qualified (cname sname : string) (sdata : list F)
    (acc acc' : build_state * list (modifier_def moddata) * gmap string (list string))
    (d : modifier_def moddata) :
  qualified_inv (bs_instance acc.1.1) ->
  modifier_body true cname sname sdata acc d = Ok acc' ->
  qualified_inv (bs_instance acc'.1.1).
Proof.
  destruct acc as [[st defs] bt]. simpl. intros Hq. unfold modifier_body.
  destruct (add_or_get_modifier _ _ _) as [[ref inst]|] eqn:Hadd; simpl; [|done].
  intros [= <-]. simpl.
  assert (qualified_inv inst) as Hinst.
  { apply add_or_get_modifier_cases in Hadd as [[-> _]|(cls & Hreg & -> & _)]; [done|].
    intros name e. unfold register_modifier. simpl. rewrite lookup_insert.
    case_decide as Hname.
    - intros [= <-]. simpl. eexists _, (md_type d), (md_name d).
      split; [by apply list_lookup_middle|]. split; [by rewrite <- Hname|].
      split; [by eapply new_type_name|by eapply registry_no_slash].
    - intros He. destruct (Hq _ _ He) as (m & t & n & Hm & Hn & Ht & Hs).
      exists m, t, n. split; [|done]. by apply lookup_app_l_Some. }
  intros name e He. destruct (Hinst _ _ He) as (m & t & n & Hm & Hn & Ht & Hs).
  unfold heap_add_sample in *. simpl in *.
  destruct (decide (modifier_ref e = ref)) as [<-|Hne].
  - exists (add_sample m cname sname sdata (qualified true d)), t, n.
    rewrite list_lookup_alter_eq, Hm. simpl. split; [reflexivity|].
    split; [exact Hn|]. split; [|exact Hs]. by rewrite add_sample_type_name.
  - exists m, t, n. by rewrite list_lookup_alter_ne.
Qed.

Lemma modifier_body_no_reuse (cname sname : string) (sdata : list F)
    (acc : build_state * list (modifier_def moddata) * gmap string (list string))
    (d : modifier_def moddata) :
  qualified_inv (bs_instance acc.1.1) ->
  modifier_body true cname sname sdata acc d <> Raise InvalidNameReuse.
Proof.
  destruct acc as [[st defs] bt]. simpl. intros Hq. unfold modifier_body.
  destruct (add_or_get_modifier _ _ _) as [[ref inst]|e] eqn:Hadd; simpl; [done|].
  intros [= ->]. revert Hadd. unfold add_or_get_modifier. simpl.
  destruct (registry !! md_type d) as [cls|] eqn:Hreg; [|done].
  destruct (is_shared cls); [|done].
  destruct (par_map (bs_instance st) !! _) as [e|] eqn:He; [|done].
  destruct (Hq _ _ He) as (m & t & n & -> & Hn & Ht & Hs).
  rewrite bool_decide_eq_true_2; [done|].
  rewrite Ht. symmetry. eapply qualified_type_inj; [|done|exact Hn].
  by eapply registry_no_slash.
Qed.

Lemma sample_body_qualified (cname : string)
    (acc acc' : build_state * list (sample F moddata)) (s : sample F moddata) :
  qualified_inv (bs_instance acc.1) -> sample_body true cname acc s = Ok acc' ->
  qualified_inv (bs_instance acc'.1).
Proof.
  destruct acc as [st done0]. simpl. intros Hq. unfold sample_body.
  destruct (for_each _ _ _) as [[[st1 defs] bt]|] eqn:Hm; simpl; [|done].
  intros [= <-]. simpl.
  apply (for_each_inv (fun a => qualified_inv (bs_instance a.1.1)) _ _
           (fun a x a' Ha _ => modifier_body_qualified _ _ _ a a' x Ha)
           (st, [], ∅) (st1, defs, bt) Hq Hm).
Qed.

Lemma sample_body_no_reuse (cname : string)
    (acc : build_state * list (sample F moddata)) (s : sample F moddata) :
  qualified_inv (bs_instance acc.1) ->
  sample_body true cname acc s <> Raise InvalidNameReuse.
Proof.
  destruct acc as [st done0]. simpl. intros Hq. unfold sample_body.
  destruct (for_each _ _ _) as [[[st1 defs] bt]|e] eqn:Hm; simpl; [done|].
  intros [= ->]. revert Hm.
  apply (for_each_no_raise (fun a => qualified_inv (bs_instance a.1.1))); [| |done].
  - intros a x a'. apply modifier_body_qualified.
  - intros a x. apply modifier_body_no_reuse.
Qed.

Lemma channel_body_qualified (acc acc' : build_state * spec F moddata)
    (c : channel F moddata) :
  qualified_inv (bs_instance acc.1) -> channel_body true acc c = Ok acc' ->
  qualified_inv (bs_instance acc'.1).
Proof.
  destruct acc as [st done0]. simpl. intros Hq. unfold channel_body.
  destruct (for_each _ _ _) as [[st1 ss]|] eqn:Hs; simpl; [|done].
  intros [= <-]. simpl.
  apply (for_each_inv (fun a => qualified_inv (bs_instance a.1)) _ _
           (fun a x a' Ha _ => sample_body_qualified _ a a' x Ha)
           (st, []) (st1, ss) Hq Hs).
Qed.

Lemma channel_body_no_reuse (acc : build_state * spec F moddata)
    (c : channel F moddata) :
  qualified_inv (bs_instance acc.1) ->
  channel_body true acc c <> Raise InvalidNameReuse.
Proof.
  destruct acc as [st done0]. simpl. intros Hq. unfold channel_body.
  destruct (for_each _ _ _) as [[st1 ss]|e] eqn:Hs; simpl; [done|].
  intros [= ->]. revert Hs.
  apply (for_each_no_raise (fun a => qualified_inv (bs_instance a.1))); [| |done].
  - intros a x a'. apply sample_body_qualified.
  - intros a x. apply sample_body_no_reuse.
Qed.

(** X21.  With [qualify_names], [from_spec] never raises
    [InvalidNameReuse]: a registered name is then of the form
    type/name, and the instance found under it has the declared type.
    When it returns, every registered name has that form. *)
Theorem from_spec_qualified_no_reuse (sp : spec F moddata) (poiname : string) :
  from_spec sp poiname true <> Raise InvalidNameReuse /\
  forall cfg sp', from_spec sp poiname true = Ok (cfg, sp') -> qualified_inv cfg.
Proof.
  assert (qualified_inv (bs_instance
            {| bs_instance := __init__ (F := F) (mstate := mstate);
               bs_poiname := poiname; bs_modifiers := [] |})) as Hinit.
  { intros name e. simpl. by rewrite lookup_empty. }
  unfold from_spec, from_spec_loops. split.
  - destruct (for_each _ _ _) as [[st sp1]|e] eqn:Hl; simpl.
    + unfold set_poi. case_bool_decide; [|done].
      destruct (par_slice _ _) as [sl|e] eqn:Hsl; simpl.
      * by destruct (_ =? _)%nat.
      * unfold par_slice in Hsl.
        destruct (par_map _ !! _); [done|]. by injection Hsl as <-.
    + intros [= ->]. revert Hl.
      apply (for_each_no_raise (fun a => qualified_inv (bs_instance a.1))).
      * intros a x a'. apply channel_body_qualified.
      * intros a x. apply channel_body_no_reuse.
      * exact Hinit.
  - intros cfg sp'.
    destruct (for_each _ _ _) as [[st sp1]|] eqn:Hl; simpl; [|done].
    destruct (set_poi _ _) as [c|] eqn:Hp; simpl; [|done].
    intros [= <- <-].
    apply (for_each_inv (fun a => qualified_inv (bs_instance a.1)) _ _
             (fun a x a' Ha _ => channel_body_qualified a a' x Ha)
             ({| bs_instance := __init__; bs_poiname := poiname; bs_modifiers := [] |}, [])
             (st, sp1) Hinit) in Hl.
    apply set_poi_fields in Hp as (_ & Hh & _ & Hpm & _). simpl in *.
    intros name e. rewrite Hpm, Hh. apply Hl.
Qed.
End QualifiedNames.

Lemma from_spec_qualified_no_reuse_witness :
  from_spec ex_spec_clash "mu" false = Raise InvalidNameReuse /\
  from_spec ex_spec_clash "mu" true <> Raise InvalidNameReuse.
Proof.
  split; [vm_compute; reflexivity|].
  exact (proj1 (from_spec_qualified_no_reuse ex_spec_clash "mu")).
Defined.

Lemma for_each_ok_elem {A S : Type} (body : S -> A -> result S) (l : list A) (s r : S)
    (x : A) :
  for_each body l s = Ok r -> x ∈ l -> exists s0, is_Ok (body s0 x).
Proof.
  revert s. induction l as [|y l IH]; intros s Hrun Hx; simpl in Hrun.
  - by apply elem_of_nil in Hx.
  - destruct (body s y) as [s'|] eqn:Hb; simpl in Hrun; [|done].
    apply elem_of_cons in Hx as [->|Hx]; [|by eapply IH].
    exists s. rewrite Hb. by eexists.
Qed.

Section ResultIndexExtras.
Context {F moddata mstate : Type}.
Context `{!Modifiers F moddata mstate} `{!Number F} `{!Backend F}.
Context `{!Combiners F moddata mstate}.

Local Abbreviation model := (Model F moddata mstate).

Local Abbreviation all_results self pars :=
  (foldl (fun (acc : gmap string (option (gmap string (list (op_index * list F)))))
              mtype => <[mtype := _mtype_results self mtype pars]> acc) ∅
         (["normsys"; "normfactor"; "shapesys"; "shapefactor"; "staterror"]%string
            ++ delta_mods)).

Lemma all_results_lookup (self : model) (pars : list F) (t : string) :
  all_results self pars !! t
  = if bool_decide (t ∈ factor_mods ++ delta_mods)
    then Some (_mtype_results self t pars) else None.
Proof.
  unfold delta_mods, factor_mods. cbn [foldl app].
  case_bool_decide as Hin.
  - repeat (apply elem_of_cons in Hin as [->|Hin];
            [by (repeat (rewrite lookup_insert_ne by done); rewrite lookup_insert_eq)|]).
    by apply elem_of_nil in Hin.
  - repeat (rewrite lookup_insert_ne;
            [|intros <-; apply Hin; apply (bool_decide_unpack _); vm_compute; exact I]).
    apply lookup_empty.
Qed.

Lemma _mtype_results_known (self : model) (pars : list F) (t : string) :
  t ∈ factor_mods ++ delta_mods -> is_Some (_mtype_results self t pars).
Proof.
  intros Hin. unfold _mtype_results.
  repeat (apply elem_of_cons in Hin as [->|Hin]; [by eexists|]).
  by apply elem_of_nil in Hin.
Qed.

Local Abbreviation index_body self pars :=
  (fun (acc : list (op_index * list F)) (e : string * (string * nat * nat)) =>
     let '(mname, (mtype, _, _)) := e in
     match all_results self pars !! mtype with
     | None => Raise KeyError
     | Some None => Raise AttributeError
     | Some (Some res) => Ok (acc ++ default [] (res !! mname))
     end).

Lemma index_body_result (self : model) (pars : list F)
    (acc : list (op_index * list F)) (e : string * (string * nat * nat)) :
  if bool_decide (e.2.1.1 ∈ factor_mods ++ delta_mods)
  then is_Ok (index_body self pars acc e)
  else index_body self pars acc e = Raise KeyError.
Proof.
  destruct e as [mname [[mtype o] id]]. cbv beta iota. cbn [fst snd].
  rewrite all_results_lookup.
  case_bool_decide as Hin; [|done].
  destruct (_mtype_results_known self pars mtype Hin) as [res ->]. by eexists.
Qed.

Lemma index_loop_cases (self : model) (pars : list F)
    (l : list (string * (string * nat * nat))) (acc : list (op_index * list F)) :
  if bool_decide (Forall (fun e : string * (string * nat * nat) =>
                            e.2.1.1 ∈ factor_mods ++ delta_mods) l)
  then is_Ok (for_each (index_body self pars) l acc)
  else for_each (index_body self pars) l acc = Raise KeyError.
Proof.
  revert acc. induction l as [|e l IH]; intros acc.
  - rewrite bool_decide_eq_true_2 by constructor. by eexists.
  - pose proof (index_body_result self pars acc e) as He.
    cbn [for_each]. case_bool_decide as Hin.
    + destruct He as [acc' ->]. specialize (IH acc'). cbn [mbind].
      case_bool_decide as Hall.
      * rewrite bool_decide_eq_true_2 by (by constructor). exact IH.
      * rewrite bool_decide_eq_false_2 by (by intros [_ ?]%Forall_cons). exact IH.
    + rewrite bool_decide_eq_false_2 by (by intros [? _]%Forall_cons).
      by rewrite He.
Qed.

(** X22.  [_make_result_index] returns exactly when every entry of
    [allmods] has one of the six types it asks the combiners for, and
    then its first component is the number of entries of [allmods]; it
    raises [KeyError] otherwise. *)
Theorem _make_result_index_returns (self : model) (pars : list F) :
  if bool_decide (Forall (fun e : string * (string * nat * nat) =>
                            e.2.1.1 ∈ factor_mods ++ delta_mods) (allmods self))
  then exists ri, _make_result_index self pars = Ok (length (allmods self), ri)
  else _make_result_index self pars = Raise KeyError.
Proof.
  unfold _make_result_index. cbv zeta.
  pose proof (index_loop_cases self pars (allmods self) []) as H.
  case_bool_decide.
  - destruct H as [ri ->]. by exists ri.
  - by rewrite H.
Qed.

(** X23.  When every registered type is one of the six, a model built
    by [Model_init] has only such types in [allmods], and
    [_make_result_index] returns for every parameter vector. *)
Theorem Model_init_result_index (sp : spec F moddata) (poiname : string) (q : bool)
    (self : model) :
  (forall t cls, registry !! t = Some cls -> t ∈ factor_mods ++ delta_mods) ->
  Model_init sp poiname q = Ok self ->
  Forall (fun e : string * (string * nat * nat) =>
            e.2.1.1 ∈ factor_mods ++ delta_mods) (allmods self) /\
  forall pars, exists ri,
    _make_result_index self pars = Ok (length (allmods self), ri).
Proof.
  intros Hreg Hinit.
  destruct (Model_init_parts _ _ _ _ Hinit) as (Hspec & _ & Hidx).
  assert (Forall (fun e : string * (string * nat * nat) =>
                    e.2.1.1 ∈ factor_mods ++ delta_mods) (allmods self)) as Hall.
  { apply Forall_lookup. intros k [name [[t o] id]] Hk. simpl.
    destruct (mod_index_names _ _ Hidx) as (_ & _ & Hent).
    destruct (Hent _ _ _ _ _ Hk) as (i & d & Hd & <-).
    rewrite (from_spec_rewritten _ _ _ _ _ Hspec), all_modifier_defs_rewritten in Hd.
    apply list_lookup_fmap_Some_1 in Hd as (d0 & -> & Hd0).
    assert (md_type (qualified q d0) = md_type d0) as -> by (by destruct q).
    assert (Forall (fun d => is_Some (registry !! md_type d)) (all_modifier_defs sp))
      as Hregd.
    { revert Hspec. unfold from_spec.
      destruct (from_spec_loops sp poiname q) as [[st sp1]|] eqn:Hl; simpl; [|done].
      intros _. by eapply from_spec_loops_registered. }
    destruct (Forall_lookup_1 _ _ _ _ Hregd Hd0) as [cls Hcls]. by eapply Hreg. }
  split; [done|]. intros pars.
  pose proof (index_loop_cases self pars (allmods self) []) as H.
  rewrite bool_decide_eq_true_2 in H by done. destruct H as [ri Hri].
  exists ri. unfold _make_result_index. cbv zeta. by rewrite Hri.
Qed.
End ResultIndexExtras.

Lemma Model_init_result_index_witness :
  exists ri, _make_result_index ex_model [qn 1; qn 1; qn 1] = Ok (2%nat, ri).
Proof.
  assert (Model_init ex_spec "mu" false = Ok ex_model) as H by (vm_compute; reflexivity).
  refine (proj2 (Model_init_result_index ex_spec "mu" false ex_model _ H)
                [qn 1; qn 1; qn 1]).
  intros t cls Hreg. unfold registry in Hreg. simpl in Hreg.
  repeat (apply lookup_insert_Some in Hreg as [[<- _]|[_ Hreg]];
          [apply (bool_decide_unpack _); vm_compute; exact I|]).
  by rewrite lookup_empty in Hreg.
Defined.

Section AuxdataExtras.
Context {F moddata mstate : Type}.
Context `{!Modifiers F moddata mstate} `{!Number F} `{!Backend F}.
Context `{!Combiners F moddata mstate} `{!ModifierContract F moddata mstate}.

Local Abbreviation model := (Model F moddata mstate).

Lemma auxdata_order_resolves (sp sp' : spec F moddata) (poiname : string) (q : bool)
    (cfg : _ModelConfig F mstate) (name : string) :
  from_spec sp poiname q = Ok (cfg, sp') -> name ∈ auxdata_order cfg ->
  is_Ok (get_modifier cfg name) /\ is_Ok (par_slice cfg name).
Proof.
  intros Hspec Hin. pose proof (from_spec_inv _ _ _ _ _ Hspec) as Hinv.
  rewrite (auxdata_order_of_from_spec _ _ _ _ _ Hspec) in Hin.
  unfold constrained_names in Hin.
  apply list_elem_of_fmap in Hin as ([n m] & -> & Hin).
  apply list_elem_of_filter in Hin as [_ Hin].
  apply list_elem_of_lookup in Hin as [i Hi].
  apply lookup_zip_with_Some in Hi as (a & b & [= <- <-] & Ha & _). simpl.
  destruct (inv_order _ Hinv n) as [e He]; [by eapply list_elem_of_lookup_2|].
  unfold get_modifier, par_slice. rewrite He.
  destruct (inv_map _ Hinv _ _ He) as [Hord _].
  apply lookup_lt_Some in Hord. rewrite (inv_len _ Hinv) in Hord.
  apply lookup_lt_is_Some_2 in Hord as [m1 ->]. split; by eexists.
Qed.

Lemma expected_auxdata_loop (self : model) (pars : list F) (l : list string)
    (aux : option (list F)) :
  Forall (fun name => is_Ok (get_modifier (config self) name) /\
                      is_Ok (par_slice (config self) name)) l ->
  exists r,
    for_each (fun (aux : option (list F)) modname =>
                m ← get_modifier (config self) modname;
                sl ← par_slice (config self) modname;
                let thisaux := expected_data_of m (py_slice pars sl) in
                Ok (Some (default [] aux ++ thisaux))) l aux = Ok r /\
    (l = [] -> r = aux) /\ (l <> [] -> is_Some r).
Proof.
  intros Hall. revert aux. induction Hall as [|name l [[m Hm] [sl Hsl]] _ IH]; intros aux.
  - exists aux. by split.
  - destruct (IH (Some (default [] aux ++ expected_data_of m (py_slice pars sl))))
      as (r & Hr & Hnil & Hcons).
    exists r. split; [simpl; rewrite Hm, Hsl; simpl; exact Hr|].
    split; [done|]. intros _.
    destruct l as [|y l]; [rewrite Hnil by done; by eexists|by apply Hcons].
Qed.

(** X24.  In a model built by [Model_init], [expected_auxdata] returns
    for every parameter vector: every name of [auxdata_order] is found
    in [par_map] and refers to an instance.  It returns [None] exactly
    when no modifier is constrained, and [expected_data] with the
    auxiliary data returns whenever [expected_actualdata] does. *)
Theorem expected_auxdata_returns (sp : spec F moddata) (poiname : string) (q : bool)
    (self : model) :
  Model_init sp poiname q = Ok self ->
  forall pars, exists r,
    expected_auxdata self pars = Ok r /\
    (r = None <-> auxdata_order (config self) = []) /\
    forall lambdas, expected_actualdata self pars = Ok lambdas ->
      expected_data self pars true = Ok (lambdas ++ default [] r).
Proof.
  intros Hinit pars.
  destruct (Model_init_parts _ _ _ _ Hinit) as (Hspec & _ & _).
  destruct (expected_auxdata_loop self pars (auxdata_order (config self)) None)
    as (r & Hr & Hnil & Hcons).
  { apply Forall_forall. intros name Hin. by eapply auxdata_order_resolves. }
  assert (expected_auxdata self pars = Ok r) as Hr' by exact Hr.
  exists r. split; [exact Hr'|]. split.
  - split.
    + intros ->. destruct (auxdata_order (config self)) as [|x l]; [done|].
      by destruct Hcons as [? ?].
    + apply Hnil.
  - intros lambdas Hl. unfold expected_data. rewrite Hl.
    change (expected_auxdata self pars
              ≫= (fun ec => Ok (lambdas ++ default [] ec))
            = Ok (lambdas ++ default [] r)).
    by rewrite Hr'.
Qed.

(** X25.  Setting the parameter of interest again to the name that
    [from_spec] was given changes nothing. *)
Theorem set_poi_again (sp sp' : spec F moddata) (poiname : string)
    (cfg : _ModelConfig F mstate) :
  from_spec sp poiname false = Ok (cfg, sp') -> set_poi cfg poiname = Ok cfg.
Proof.
  unfold from_spec.
  destruct (from_spec_loops sp poiname false) as [[st sp1]|] eqn:Hl; simpl; [|done].
  destruct (from_spec_loops_names _ _ _ _ _ Hl) as [_ Hpoi].
  rewrite (Hpoi eq_refl).
  destruct (set_poi _ _) as [c|] eqn:Hp; simpl; [|done].
  intros [= <- <-]. unfold set_poi, par_slice in Hp. simpl in Hp.
  case_bool_decide as Hin; [|done].
  destruct (par_map (bs_instance st) !! poiname) as [e|] eqn:He; simpl in Hp; [|done].
  destruct (_ =? _)%nat eqn:Hw; [|done].
  injection Hp as <-. unfold set_poi, par_slice. simpl.
  rewrite bool_decide_eq_true_2 by done. rewrite He. simpl. by rewrite Hw.
Qed.
End AuxdataExtras.

Lemma expected_auxdata_returns_witness :
  exists r, expected_auxdata ex_model [qn 1; qn 1; qn 1] = Ok r /\
            (r = None <-> auxdata_order (config ex_model) = []).
Proof.
  assert (Model_init ex_spec "mu" false = Ok ex_model) as H by (vm_compute; reflexivity).
  destruct (expected_auxdata_returns ex_spec "mu" false ex_model H [qn 1; qn 1; qn 1])
    as (r & Hr & Hnone & _).
  exists r. split; [exact Hr|exact Hnone].
Defined.

Lemma set_poi_again_witness : set_poi ex_config "mu" = Ok ex_config.
Proof.
  assert (exists sp', from_spec ex_spec "mu" false = Ok (ex_config, sp')) as [sp' H].
  { eexists. vm_compute. reflexivity. }
  exact (set_poi_again ex_spec sp' "mu" ex_config H).
Defined.

Lemma hm_lookup_insert (h : histomap) (cn0 sn0 cn sn : string) (v : nat * (nat * nat)) :
  hm_lookup (<[cn0 := <[sn0 := v]> (default ∅ (h !! cn0))]> h) cn sn
  = if decide (cn = cn0 /\ sn = sn0) then Some v else hm_lookup h cn sn.
Proof.
  unfold hm_lookup, histomap in *. destruct (decide (cn = cn0)) as [->|Hc].
  - rewrite lookup_insert_eq. destruct (decide (sn = sn0)) as [->|Hs].
    + rewrite lookup_insert_eq. by rewrite decide_True.
    + rewrite lookup_insert_ne by done. rewrite decide_False by tauto.
      by destruct (h !! cn0).
  - rewrite lookup_insert_ne by done. by rewrite decide_False by tauto.
Qed.

Lemma drop_cons_inv {A} (l l' : list A) (n : nat) (x : A) :
  drop n l = x :: l' -> l !! n = Some x /\ drop (S n) l = l'.
Proof.
  intros H.
  assert (l !! n = Some x) as Hx.
  { pose proof (lookup_drop l n 0) as Hl. rewrite H, Nat.add_0_r in Hl.
    symmetry. exact Hl. }
  split; [exact Hx|]. rewrite (drop_S _ _ _ Hx) in H. by injection H.
Qed.

Section HistomapExtras.
Context {F moddata : Type} `{!Number F}.

Lemma samples_before_S (sp : spec F moddata) (k : nat) (ch : channel F moddata) :
  sp !! k = Some ch ->
  samples_before sp (S k) = (samples_before sp k + length (c_samples ch))%nat.
Proof.
  intros Hch. unfold samples_before. rewrite (take_S_r _ _ _ Hch), fmap_app, sum_list_app.
  simpl. lia.
Qed.

Lemma hm_samples_loop (sp : spec F moddata) (k : nat) (ch : channel F moddata)
    (l : list (sample F moddata)) (j0 : nat) (acc acc' : tensor3 F * nat * histomap) :
  sp !! k = Some ch -> drop j0 (c_samples ch) = l ->
  histomap_inv sp k j0 acc.1.2 acc.2 ->
  for_each (cube_sample_body k (c_name ch)) (zip (seq j0 (length l)) l) acc = Ok acc' ->
  histomap_inv sp k (j0 + length l) acc'.1.2 acc'.2.
Proof.
  intros Hch. revert j0 acc. induction l as [|s l IH]; intros j0 [[c0 hid] h0] Hdrop Hinv; simpl.
  - intros [= <-]. by rewrite Nat.add_0_r.
  - destruct (set_row k j0 (s_data s) c0) as [c1|]; simpl; [|done].
    apply drop_cons_inv in Hdrop as [Hs Hdrop].
    intros Hrest. replace (j0 + S (length l))%nat with (S j0 + length l)%nat by lia.
    eapply IH; [exact Hdrop| |exact Hrest]. simpl in *.
    destruct Hinv as (Hid & Hsound & Hcomplete). split; [lia|]. split.
    + intros cn sn id i j. rewrite hm_lookup_insert. case_decide as Heq.
      * destruct Heq as [-> ->]. intros [= <- <- <-]. split; [lia|].
        by exists ch, s.
      * intros Hl. destruct (Hsound _ _ _ _ _ Hl) as [Hb Hex]. split; [lia|done].
    + intros i ch' j s' Hb Hch' Hs'. rewrite hm_lookup_insert.
      case_decide; [by eexists|]. apply (Hcomplete i ch' j s'); [|done|done].
      destruct Hb as [?|[-> Hj]]; [by left|]. right. split; [done|].
      destruct (decide (j = j0)) as [->|]; [|lia].
      exfalso. rewrite Hch in Hch'. injection Hch' as <-.
      rewrite Hs in Hs'. injection Hs' as <-. tauto.
Qed.

Lemma hm_channels_loop (sp l : spec F moddata) (i0 : nat)
    (acc acc' : tensor3 F * nat * histomap) :
  drop i0 sp = l -> histomap_inv sp i0 0 acc.1.2 acc.2 ->
  for_each cube_channel_body (zip (seq i0 (length l)) l) acc = Ok acc' ->
  histomap_inv sp (i0 + length l) 0 acc'.1.2 acc'.2.
Proof.
  revert i0 acc. induction l as [|ch l IH]; intros i0 acc Hdrop Hinv; simpl.
  - intros [= <-]. by rewrite Nat.add_0_r.
  - destruct (cube_channel_body acc (i0, ch)) as [acc1|] eqn:Hin; simpl; [|done].
    apply drop_cons_inv in Hdrop as [Hch Hdrop].
    intros Hrest. replace (i0 + S (length l))%nat with (S i0 + length l)%nat by lia.
    eapply IH; [exact Hdrop| |exact Hrest].
    unfold cube_channel_body, enumerate in Hin. simpl in Hin.
    apply (hm_samples_loop sp i0 ch _ 0 acc acc1 Hch eq_refl Hinv) in Hin.
    simpl in Hin. rewrite drop_0 in Hin. destruct Hin as (Hid & Hsound & Hcomplete).
    split; [rewrite (samples_before_S _ _ _ Hch); lia|]. split.
    + intros cn sn id i j Hl. destruct (Hsound _ _ _ _ _ Hl) as [Hb Hex].
      split; [lia|done].
    + intros i ch' j s' Hb Hch' Hs'. apply (Hcomplete i ch' j s'); [|done|done].
      destruct Hb as [Hlt|[_ ?]]; [|lia].
      destruct (decide (i = i0)) as [->|]; [|lia]. right. split; [done|].
      assert (Some ch = Some ch') as [= <-]
        by (etrans; [symmetry; exact Hch|exact Hch']).
      by eapply lookup_lt_Some.
Qed.

(** X26.  The histogram map that [_make_cube] returns has an entry
    under the names of every declared sample.  Every entry points to a
    sample slot that holds a sample of that name in a channel of that
    name, and its [id] is the position of that sample in the order of
    the loops. *)
Theorem _make_cube_histomap (sp : spec F moddata) (c : tensor3 F) (h : histomap) :
  _make_cube sp = Ok (c, h) ->
  (forall i ch j s, sp !! i = Some ch -> c_samples ch !! j = Some s ->
     is_Some (hm_lookup h (c_name ch) (s_name s))) /\
  (forall cn sn id i j, hm_lookup h cn sn = Some (id, (i, j)) ->
     exists ch s, sp !! i = Some ch /\ c_samples ch !! j = Some s /\
       c_name ch = cn /\ s_name s = sn /\ id = (samples_before sp i + j)%nat).
Proof.
  intros Hmk.
  destruct (_make_cube_rect _ _ _ Hmk) as (maxsamp & maxbins & Hms & Hmb & _).
  unfold _make_cube in Hmk. rewrite Hms in Hmk. simpl in Hmk.
  rewrite Hmb in Hmk. simpl in Hmk.
  destruct (for_each _ _ _) as [[[c1 hid] h1]|] eqn:Hloop; simpl in Hmk; [|done].
  injection Hmk as <- <-. unfold enumerate in Hloop.
  apply (hm_channels_loop sp sp 0) in Hloop; [|done|].
  - simpl in Hloop. destruct Hloop as (_ & Hsound & Hcomplete). split.
    + intros i ch j s Hch Hs. apply (Hcomplete i ch j s); [|done|done].
      left. by eapply lookup_lt_Some.
    + intros cn sn id i j Hl. by destruct (Hsound _ _ _ _ _ Hl) as [_ ?].
  - simpl. split; [done|]. split.
    + intros cn sn id i j Hl. exfalso. revert Hl. unfold hm_lookup.
      replace ((∅ : histomap) !! cn) with (@None (gmap string (nat * (nat * nat))))
        by (symmetry; apply lookup_empty). done.
    + intros i ch j s [?|[_ ?]]; lia.
Qed.
End HistomapExtras.

Lemma _make_cube_histomap_witness :
  hm_lookup (hm ex_model_two_channels) "second" "control" = Some (2, (1, 0))%nat.
Proof.
  destruct (_make_cube_histomap ex_spec_two_channels (cube ex_model_two_channels)
              (hm ex_model_two_channels)) as [Hc Hs].
  - vm_compute. reflexivity.
  - destruct (Hc 1%nat {| c_name := "second";
                          c_samples := [ex_sample "control" [7; 9]%Z []] |}
                 0%nat (ex_sample "control" [7; 9]%Z []) eq_refl eq_refl)
      as [[id [i j]] Hl].
    change (c_name _) with "second"%string in Hl.
    change (s_name _) with "control"%string in Hl.
    rewrite Hl. vm_compute in Hl. symmetry. exact Hl.
Defined.
